(** * cel-fmt: the browser front end (docs/app.js) and the formatting core

    The first part embeds [docs/app.js], the page script that drives the
    WebAssembly build of the formatter.  The second part models the
    formatting core the script calls into. *)

From Stdlib Require Import List NArith ZArith Bool Lia String Ascii.
From Stdlib Require DecimalString DecimalN.
Import ListNotations.

Set Implicit Arguments.

(* ===================================================================== *)
(** ** ECMAScript strings and the two built-ins app.js uses              *)
(* ===================================================================== *)

Module JS.

(** A JavaScript string is a sequence of UTF-16 code units. *)
Definition char16 := N.
Definition jsstring := list char16.

Definition of_ascii (a : ascii) : char16 := N_of_ascii a.

(** An ASCII literal as a JavaScript string. *)
Definition js (s : string) : jsstring := map of_ascii (list_ascii_of_string s).

(** [WhiteSpace] and [LineTerminator] of ECMA-262: what [trim] and
    [parseInt] strip. *)
Definition is_white_space (c : char16) : bool :=
  ((9 <=? c) && (c <=? 13)            (* TAB, LF, VT, FF, CR *)
   || (c =? 32)                       (* SP *)
   || (c =? 160)                      (* NBSP *)
   || (c =? 5760)                     (* U+1680 *)
   || ((8192 <=? c) && (c <=? 8202))  (* U+2000 .. U+200A *)
   || (c =? 8232) || (c =? 8233)      (* LS, PS *)
   || (c =? 8239) || (c =? 8287)      (* U+202F, U+205F *)
   || (c =? 12288)                    (* U+3000 *)
   || (c =? 65279))%N.                (* U+FEFF *)

Fixpoint trimStart (s : jsstring) : jsstring :=
  match s with
  | [] => []
  | c :: s' => if is_white_space c then trimStart s' else s
  end.

Definition trimEnd (s : jsstring) : jsstring := rev (trimStart (rev s)).

(** [String.prototype.trim]. *)
Definition trim (s : jsstring) : jsstring := trimEnd (trimStart s).

(** ToBoolean on a string: only the empty string is falsy. *)
Definition truthy_string (s : jsstring) : bool :=
  match s with [] => false | _ :: _ => true end.

(** Value of a code unit as a digit in radix 10 or 16. *)
Definition digit_value (radix : N) (c : char16) : option N :=
  (if (48 <=? c) && (c <=? 57) then Some (c - 48)
   else if (radix =? 16) && (97 <=? c) && (c <=? 102) then Some (c - 87)
   else if (radix =? 16) && (65 <=? c) && (c <=? 70) then Some (c - 55)
   else None)%N.

(** Reads the longest prefix of radix digits; [None] when it is empty. *)
Fixpoint digits_prefix (radix : N) (acc : option N) (s : jsstring) : option N :=
  match s with
  | [] => acc
  | c :: s' =>
      match digit_value radix c with
      | Some d =>
          digits_prefix radix
            (Some (match acc with Some a => a * radix + d | None => d end)%N) s'
      | None => acc
      end
  end.

(** [parseInt(string)] with the radix left undefined.  [None] is NaN.
    The Number a real engine returns is the double nearest to the
    integer read; the integer itself stands for it here, which is exact
    below 2^53 and never changes whether the result is zero. *)
Definition parseInt (str : jsstring) : option Z :=
  let s := trimStart str in
  let '(sign, s) :=
    match s with
    | 45%N :: s' => ((-1)%Z, s')
    | 43%N :: s' => (1%Z, s')
    | _ => (1%Z, s)
    end in
  let '(radix, s) :=
    match s with
    | 48%N :: 120%N :: s' => (16%N, s')
    | 48%N :: 88%N :: s' => (16%N, s')
    | _ => (10%N, s)
    end in
  match digits_prefix radix None s with
  | None => None
  | Some n => Some (sign * Z.of_N n)%Z
  end.

(** [parseInt(x) || dflt]: NaN, +0 and -0 are falsy. *)
Definition number_or (x : option Z) (dflt : Z) : Z :=
  match x with
  | Some z => if (z =? 0)%Z then dflt else z
  | None => dflt
  end.

End JS.
Import JS.

(* ===================================================================== *)
(** ** The page state app.js reads and writes                            *)
(* ===================================================================== *)

(** What a call into the WebAssembly module does: it returns a value or
    throws one.  Of a thrown value the script only uses [toString()]
    (in [formatCode]) and [.message] (in [initWasm]). *)
Record thrown := { err_toString : jsstring; err_message : jsstring }.

Inductive outcome :=
| Returned (value : jsstring)
| Threw (err : thrown).

(** Arguments of one call [format_with_options(source, maxWidth,
    indentWidth, useTabs, trailingComma)]. *)
Record ffi_call := {
  arg_source : jsstring;
  arg_maxWidth : Z;
  arg_indentWidth : Z;
  arg_useTabs : bool;
  arg_trailingComma : bool
}.

(** The four configuration inputs. *)
Record config_inputs := {
  maxWidthInput_value : jsstring;
  indentWidthInput_value : jsstring;
  useTabsInput_checked : bool;
  trailingCommaInput_checked : bool
}.

(** The module-level variable [wasmReady], the DOM properties the script
    touches, and a ghost log of the calls made to [format_with_options].
    [*_hidden] is membership of ['hidden'] in the element's class list. *)
Record page := {
  wasmReady : bool;
  inputEl_value : jsstring;
  outputEl_value : jsstring;
  errorEl_textContent : jsstring;
  errorEl_hidden : bool;
  loadingEl_hidden : bool;
  versionEl_textContent : jsstring;
  formatBtn_disabled : bool;
  copyBtn_textContent : jsstring;
  config : config_inputs;
  ffi_log : list ffi_call
}.

Definition set_wasmReady (b : bool) (p : page) : page :=
  {| wasmReady := b; inputEl_value := inputEl_value p;
     outputEl_value := outputEl_value p;
     errorEl_textContent := errorEl_textContent p;
     errorEl_hidden := errorEl_hidden p; loadingEl_hidden := loadingEl_hidden p;
     versionEl_textContent := versionEl_textContent p;
     formatBtn_disabled := formatBtn_disabled p;
     copyBtn_textContent := copyBtn_textContent p;
     config := config p; ffi_log := ffi_log p |}.

Definition set_input (v : jsstring) (p : page) : page :=
  {| wasmReady := wasmReady p; inputEl_value := v;
     outputEl_value := outputEl_value p;
     errorEl_textContent := errorEl_textContent p;
     errorEl_hidden := errorEl_hidden p; loadingEl_hidden := loadingEl_hidden p;
     versionEl_textContent := versionEl_textContent p;
     formatBtn_disabled := formatBtn_disabled p;
     copyBtn_textContent := copyBtn_textContent p;
     config := config p; ffi_log := ffi_log p |}.

Definition set_output (v : jsstring) (p : page) : page :=
  {| wasmReady := wasmReady p; inputEl_value := inputEl_value p;
     outputEl_value := v;
     errorEl_textContent := errorEl_textContent p;
     errorEl_hidden := errorEl_hidden p; loadingEl_hidden := loadingEl_hidden p;
     versionEl_textContent := versionEl_textContent p;
     formatBtn_disabled := formatBtn_disabled p;
     copyBtn_textContent := copyBtn_textContent p;
     config := config p; ffi_log := ffi_log p |}.

Definition set_error (text : jsstring) (hidden : bool) (p : page) : page :=
  {| wasmReady := wasmReady p; inputEl_value := inputEl_value p;
     outputEl_value := outputEl_value p;
     errorEl_textContent := text;
     errorEl_hidden := hidden; loadingEl_hidden := loadingEl_hidden p;
     versionEl_textContent := versionEl_textContent p;
     formatBtn_disabled := formatBtn_disabled p;
     copyBtn_textContent := copyBtn_textContent p;
     config := config p; ffi_log := ffi_log p |}.

Definition set_loading_hidden (hidden : bool) (p : page) : page :=
  {| wasmReady := wasmReady p; inputEl_value := inputEl_value p;
     outputEl_value := outputEl_value p;
     errorEl_textContent := errorEl_textContent p;
     errorEl_hidden := errorEl_hidden p; loadingEl_hidden := hidden;
     versionEl_textContent := versionEl_textContent p;
     formatBtn_disabled := formatBtn_disabled p;
     copyBtn_textContent := copyBtn_textContent p;
     config := config p; ffi_log := ffi_log p |}.

Definition set_version (v : jsstring) (p : page) : page :=
  {| wasmReady := wasmReady p; inputEl_value := inputEl_value p;
     outputEl_value := outputEl_value p;
     errorEl_textContent := errorEl_textContent p;
     errorEl_hidden := errorEl_hidden p; loadingEl_hidden := loadingEl_hidden p;
     versionEl_textContent := v;
     formatBtn_disabled := formatBtn_disabled p;
     copyBtn_textContent := copyBtn_textContent p;
     config := config p; ffi_log := ffi_log p |}.

Definition set_formatBtn_disabled (b : bool) (p : page) : page :=
  {| wasmReady := wasmReady p; inputEl_value := inputEl_value p;
     outputEl_value := outputEl_value p;
     errorEl_textContent := errorEl_textContent p;
     errorEl_hidden := errorEl_hidden p; loadingEl_hidden := loadingEl_hidden p;
     versionEl_textContent := versionEl_textContent p;
     formatBtn_disabled := b;
     copyBtn_textContent := copyBtn_textContent p;
     config := config p; ffi_log := ffi_log p |}.

Definition set_copyBtn (v : jsstring) (p : page) : page :=
  {| wasmReady := wasmReady p; inputEl_value := inputEl_value p;
     outputEl_value := outputEl_value p;
     errorEl_textContent := errorEl_textContent p;
     errorEl_hidden := errorEl_hidden p; loadingEl_hidden := loadingEl_hidden p;
     versionEl_textContent := versionEl_textContent p;
     formatBtn_disabled := formatBtn_disabled p;
     copyBtn_textContent := v;
     config := config p; ffi_log := ffi_log p |}.

Definition set_config (c : config_inputs) (p : page) : page :=
  {| wasmReady := wasmReady p; inputEl_value := inputEl_value p;
     outputEl_value := outputEl_value p;
     errorEl_textContent := errorEl_textContent p;
     errorEl_hidden := errorEl_hidden p; loadingEl_hidden := loadingEl_hidden p;
     versionEl_textContent := versionEl_textContent p;
     formatBtn_disabled := formatBtn_disabled p;
     copyBtn_textContent := copyBtn_textContent p;
     config := c; ffi_log := ffi_log p |}.

Definition log_call (c : ffi_call) (p : page) : page :=
  {| wasmReady := wasmReady p; inputEl_value := inputEl_value p;
     outputEl_value := outputEl_value p;
     errorEl_textContent := errorEl_textContent p;
     errorEl_hidden := errorEl_hidden p; loadingEl_hidden := loadingEl_hidden p;
     versionEl_textContent := versionEl_textContent p;
     formatBtn_disabled := formatBtn_disabled p;
     copyBtn_textContent := copyBtn_textContent p;
     config := config p; ffi_log := ffi_log p ++ [c] |}.

(* ===================================================================== *)
(** ** The handlers of app.js                                            *)
(* ===================================================================== *)

Section App.

(** The two imports from [./pkg/cel_fmt.js]. *)
Variable format_with_options : jsstring -> Z -> Z -> bool -> bool -> outcome.
Variable version : outcome.

(** [showError(message)] *)
Definition showError (message : jsstring) (p : page) : page :=
  set_error message false p.

(** [hideError()] *)
Definition hideError (p : page) : page :=
  set_error (errorEl_textContent p) true p.

(** The argument list [formatCode] builds inside its [try] block. *)
Definition call_args (source : jsstring) (c : config_inputs) : ffi_call :=
  {| arg_source := source;
     arg_maxWidth := number_or (parseInt (maxWidthInput_value c)) 80;
     arg_indentWidth := number_or (parseInt (indentWidthInput_value c)) 2;
     arg_useTabs := useTabsInput_checked c;
     arg_trailingComma := trailingCommaInput_checked c |}.

Definition invoke (c : ffi_call) : outcome :=
  format_with_options (arg_source c) (arg_maxWidth c) (arg_indentWidth c)
    (arg_useTabs c) (arg_trailingComma c).

(** [formatCode()] *)
Definition formatCode (p : page) : page :=
  if negb (wasmReady p) then
    showError (js "Formatter is still loading, please wait...") p
  else
    let source := trim (inputEl_value p) in
    if negb (truthy_string source) then
      hideError (set_output [] p)
    else
      let c := call_args source (config p) in
      let p := log_call c p in
      match invoke c with
      | Returned formatted => hideError (set_output formatted p)
      | Threw err => set_output [] (showError (err_toString err) p)
      end.

(** [clearInput()]; moving the focus is not modelled. *)
Definition clearInput (p : page) : page :=
  hideError (set_output [] (set_input [] p)).

(** [initWasm()] up to its [await]. *)
Definition initWasm_begin (p : page) : page := set_loading_hidden false p.

(** [initWasm()] after [init()] resolved. *)
Definition initWasm_resolved (p : page) : page :=
  let p := set_loading_hidden true (set_wasmReady true p) in
  match version with
  | Returned v => formatCode (set_formatBtn_disabled false (set_version v p))
  | Threw err =>
      set_loading_hidden true
        (showError (js "Failed to load formatter: " ++ err_message err) p)
  end.

(** [initWasm()] after [init()] rejected with [err]. *)
Definition initWasm_rejected (err : thrown) (p : page) : page :=
  set_loading_hidden true
    (showError (js "Failed to load formatter: " ++ err_message err) p).

(** What can happen to the page: the listeners registered at the end of
    the script, the two ends of [initWasm], the two ends of the clipboard
    write of [copyOutput], and the user editing a control.  A failed
    clipboard write is allowed at any time, which is more than
    [copyOutput] permits. *)
Inductive event :=
| EInitBegin
| EInitResolved
| EInitRejected (err : thrown)
| EFormat
| EClear
| ECopied (label : jsstring)
| ECopyFailed
| EType (value : jsstring)
| EConfigure (c : config_inputs).

Definition handle (e : event) (p : page) : page :=
  match e with
  | EInitBegin => initWasm_begin p
  | EInitResolved => initWasm_resolved p
  | EInitRejected err => initWasm_rejected err p
  | EFormat => formatCode p
  | EClear => clearInput p
  | ECopied label => set_copyBtn label p
  | ECopyFailed => showError (js "Failed to copy to clipboard") p
  | EType v => set_input v p
  | EConfigure c => set_config c p
  end.

(** The page as the script finds it: the module not yet loaded, nothing
    formatted so far. *)
Definition freshly_loaded (p : page) : Prop :=
  wasmReady p = false /\ outputEl_value p = [] /\ ffi_log p = [].

Inductive reachable : page -> Prop :=
| reach_load p : freshly_loaded p -> reachable p
| reach_step e p : reachable p -> reachable (handle e p).

End App.

(* ===================================================================== *)
(** ** The listeners of app.js: timers, clipboard and keyboard           *)
(* ===================================================================== *)

(** [a === b] on two strings. *)
Fixpoint strict_equal (a b : jsstring) : bool :=
  match a, b with
  | [], [] => true
  | x :: a', y :: b' => (x =? y)%N && strict_equal a' b'
  | _, _ => false
  end.

(** The label [copyOutput] puts on the copy button, code unit by code unit
    as the script file spells it (U+00E2, U+0153, U+201C, then the word). *)
Definition copied_label : jsstring := [226; 339; 8220]%N ++ js " Copied!".

(** What a pending timer runs: [formatCode] (the debounced input listener)
    or the arrow function of [copyOutput] that puts [originalText] back. *)
Inductive task :=
| RunFormat
| RestoreLabel (originalText : jsstring).

Record timer := { timer_id : nat; timer_delay : N; timer_task : task }.

(** The fields of a [keydown] event the script reads. *)
Record KeyboardEvent := { ctrlKey : bool; metaKey : bool; key : jsstring }.

(** The page together with what the script keeps outside the DOM: whether
    [init()] is still pending, the pending timers and the next handle
    [setTimeout] returns, the module-level variable [formatTimeout] ([None]
    is [undefined]), the texts of the clipboard writes [copyOutput] is
    awaiting, and the last text written to the clipboard. *)
Record session := {
  dom : page;
  init_pending : bool;
  timers : list timer;
  next_timer : nat;
  formatTimeout : option nat;
  writes : list jsstring;
  clipboard : option jsstring
}.

Definition with_dom (p : page) (s : session) : session :=
  {| dom := p; init_pending := init_pending s; timers := timers s;
     next_timer := next_timer s; formatTimeout := formatTimeout s;
     writes := writes s; clipboard := clipboard s |}.

Definition with_init_pending (b : bool) (s : session) : session :=
  {| dom := dom s; init_pending := b; timers := timers s;
     next_timer := next_timer s; formatTimeout := formatTimeout s;
     writes := writes s; clipboard := clipboard s |}.

Definition with_timers (ts : list timer) (s : session) : session :=
  {| dom := dom s; init_pending := init_pending s; timers := ts;
     next_timer := next_timer s; formatTimeout := formatTimeout s;
     writes := writes s; clipboard := clipboard s |}.

Definition with_formatTimeout (id : option nat) (s : session) : session :=
  {| dom := dom s; init_pending := init_pending s; timers := timers s;
     next_timer := next_timer s; formatTimeout := id;
     writes := writes s; clipboard := clipboard s |}.

Definition with_writes (ws : list jsstring) (s : session) : session :=
  {| dom := dom s; init_pending := init_pending s; timers := timers s;
     next_timer := next_timer s; formatTimeout := formatTimeout s;
     writes := ws; clipboard := clipboard s |}.

Definition with_clipboard (text : jsstring) (s : session) : session :=
  {| dom := dom s; init_pending := init_pending s; timers := timers s;
     next_timer := next_timer s; formatTimeout := formatTimeout s;
     writes := writes s; clipboard := Some text |}.

(** [setTimeout(task, delay)]: the timer is pending under a handle not
    handed out before; the handle is the [next_timer] of the session it
    is called on. *)
Definition setTimeout (t : task) (delay : N) (s : session) : session :=
  {| dom := dom s; init_pending := init_pending s;
     timers := timers s
               ++ [{| timer_id := next_timer s; timer_delay := delay;
                      timer_task := t |}];
     next_timer := S (next_timer s); formatTimeout := formatTimeout s;
     writes := writes s; clipboard := clipboard s |}.

(** [clearTimeout(id)]: nothing happens for [undefined] or for a handle
    that is no longer pending. *)
Definition clearTimeout (id : option nat) (s : session) : session :=
  match id with
  | None => s
  | Some i =>
      with_timers (filter (fun t => negb (timer_id t =? i)%nat) (timers s)) s
  end.

Fixpoint remove_nth {A : Type} (i : nat) (l : list A) : list A :=
  match i, l with
  | _, [] => []
  | O, _ :: l' => l'
  | S i', x :: l' => x :: remove_nth i' l'
  end.

Definition is_format_timer (t : timer) : bool :=
  match timer_task t with RunFormat => true | RestoreLabel _ => false end.

Section Listeners.

Variable format_with_options : jsstring -> Z -> Z -> bool -> bool -> outcome.
Variable version : outcome.

(** The [input] listener, run once the user's edit has put [value] in the
    input box: [clearTimeout(formatTimeout); formatTimeout =
    setTimeout(formatCode, 500)]. *)
Definition on_input (value : jsstring) (s : session) : session :=
  let s := with_dom (set_input value (dom s)) s in
  let s := clearTimeout (formatTimeout s) s in
  let id := next_timer s in
  with_formatTimeout (Some id) (setTimeout RunFormat 500 s).

(** The [change] listeners of the four configuration inputs, run once the
    user's edit has put the controls in the state [c]. *)
Definition on_change (c : config_inputs) (s : session) : session :=
  with_dom (formatCode format_with_options (set_config c (dom s))) s.

(** [copyOutput()] up to its [await]: nothing at all for an empty output,
    otherwise a clipboard write of the output as it stands. *)
Definition copyOutput_begin (s : session) : session :=
  let text := outputEl_value (dom s) in
  if negb (truthy_string text) then s
  else with_writes (writes s ++ [text]) s.

(** [copyOutput()] after [writeText(text)] resolved. *)
Definition copyOutput_resolved (text : jsstring) (s : session) : session :=
  let s := with_clipboard text s in
  let originalText := copyBtn_textContent (dom s) in
  let s := with_dom (set_copyBtn copied_label (dom s)) s in
  setTimeout (RestoreLabel originalText) 2000 s.

(** [copyOutput()] after [writeText(text)] rejected. *)
Definition copyOutput_rejected (s : session) : session :=
  with_dom (showError (js "Failed to copy to clipboard") (dom s)) s.

(** The [i]th clipboard write awaited settles. *)
Definition write_settles (i : nat) (ok : bool) (s : session) : session :=
  match nth_error (writes s) i with
  | None => s
  | Some text =>
      let s := with_writes (remove_nth i (writes s)) s in
      if ok then copyOutput_resolved text s else copyOutput_rejected s
  end.

(** The pending timer with handle [id] fires. *)
Definition run_task (t : task) (s : session) : session :=
  match t with
  | RunFormat => with_dom (formatCode format_with_options (dom s)) s
  | RestoreLabel originalText =>
      with_dom (set_copyBtn originalText (dom s)) s
  end.

Definition timer_fires (id : nat) (s : session) : session :=
  match find (fun t => (timer_id t =? id)%nat) (timers s) with
  | None => s
  | Some t =>
      run_task (timer_task t)
        (with_timers (filter (fun t => negb (timer_id t =? id)%nat) (timers s)) s)
  end.

(** The [keydown] listener; the boolean tells whether it called
    [preventDefault]. *)
Definition on_keydown (e : KeyboardEvent) (s : session) : session * bool :=
  let modifier := ctrlKey e || metaKey e in
  let '(s, prevented) :=
    if modifier && strict_equal (key e) (js "Enter")
    then (with_dom (formatCode format_with_options (dom s)) s, true)
    else (s, false) in
  if modifier && strict_equal (key e) (js "k")
  then (with_dom (clearInput (dom s)) s, true)
  else (s, prevented).

(** [init()] settles, once. *)
Definition init_resolves (s : session) : session :=
  if init_pending s then
    with_init_pending false
      (with_dom (initWasm_resolved format_with_options version (dom s)) s)
  else s.

Definition init_rejects (err : thrown) (s : session) : session :=
  if init_pending s then
    with_init_pending false (with_dom (initWasm_rejected err (dom s)) s)
  else s.

(** A click on the format button reaches its listener only while the
    button is enabled. *)
Definition click_format (s : session) : session :=
  if formatBtn_disabled (dom s) then s
  else with_dom (formatCode format_with_options (dom s)) s.

(** What happens to the page once the script has run to its end.  A
    pending timer may fire and a clipboard write may settle at any time
    and in any order, which is more than a browser permits: timers there
    fire in the order of their delays. *)
Inductive action :=
| InitResolves
| InitRejects (err : thrown)
| ClickFormat
| ClickClear
| ClickCopy
| WriteSettles (i : nat) (ok : bool)
| Input (value : jsstring)
| Change (c : config_inputs)
| Keydown (e : KeyboardEvent)
| TimerFires (id : nat).

Definition perform (a : action) (s : session) : session :=
  match a with
  | InitResolves => init_resolves s
  | InitRejects err => init_rejects err s
  | ClickFormat => click_format s
  | ClickClear => with_dom (clearInput (dom s)) s
  | ClickCopy => copyOutput_begin s
  | WriteSettles i ok => write_settles i ok s
  | Input value => on_input value s
  | Change c => on_change c s
  | Keydown e => fst (on_keydown e s)
  | TimerFires id => timer_fires id s
  end.

Definition perform_all (actions : list action) (s : session) : session :=
  fold_left (fun s a => perform a s) actions s.

(** The session as the script leaves it when it has run to its end:
    [initWasm()] is suspended at its [await] with the loading indicator
    shown, the listeners are registered, nothing else has happened. *)
Definition script_loaded (s : session) : Prop :=
  freshly_loaded (dom s) /\ loadingEl_hidden (dom s) = false
  /\ init_pending s = true /\ timers s = [] /\ formatTimeout s = None
  /\ writes s = [] /\ clipboard s = None.

Inductive session_reachable : session -> Prop :=
| session_load s : script_loaded s -> session_reachable s
| session_step a s : session_reachable s -> session_reachable (perform a s).

End Listeners.

(** The pending timers are consistent: every handle was handed out by
    [setTimeout], no two timers share one, and a pending run of
    [formatCode] is the one [formatTimeout] refers to. *)
Definition timers_consistent (s : session) : Prop :=
  Forall (fun t => (timer_id t < next_timer s)%nat) (timers s)
  /\ NoDup (map timer_id (timers s))
  /\ forall t, In t (timers s) -> is_format_timer t = true ->
       formatTimeout s = Some (timer_id t).

(** Nothing empty is on its way to the clipboard or on it, and nothing at
    all before the module is ready. *)
Definition copies_consistent (s : session) : Prop :=
  Forall (fun text : jsstring => text <> []) (writes s)
  /\ (forall text, clipboard s = Some text -> text <> [])
  /\ (wasmReady (dom s) = false -> writes s = [] /\ clipboard s = None).

(** A call [formatCode] may issue: the source is not empty and carries no
    white space at either end, the two widths are not zero. *)
Definition call_well_formed (c : ffi_call) : Prop :=
  arg_source c <> []
  /\ (forall x rest, arg_source c = x :: rest -> is_white_space x = false)
  /\ (forall front x, arg_source c = front ++ [x] -> is_white_space x = false)
  /\ arg_maxWidth c <> 0%Z /\ arg_indentWidth c <> 0%Z.


(* ===================================================================== *)
(** ** The formatting core: expression model and precedence table        *)
(* ===================================================================== *)

Open Scope string_scope.

Inductive unary_op := Neg | Not.

Inductive binary_op :=
| LogicalOr | LogicalAnd
| Equals | NotEquals
| Less | LessEq | Greater | GreaterEq
| InOp
| Add | Sub
| Mul | Div | Rem.

(** Modelled from the spec: the literal kinds of the Expression Model
    (spec section 3).  A literal carries the value its canonical text is
    produced from; a float carries its decimal digits, since the value
    itself is a floating-point number. *)
Inductive literal :=
| LInt (value : Z)
| LUInt (value : N)
| LFloat (whole : N) (fraction : string)
| LString (value : string)
| LBytes (value : string)
| LBool (value : bool)
| LNull.

(** Modelled from the spec: the closed set of node variants of the
    Expression Model (spec section 3). *)
#[warnings="-register-all"]
Inductive expr :=
| Literal (l : literal)
| Identifier (name : string)
| Unary (op : unary_op) (operand : expr)
| Binary (op : binary_op) (lhs rhs : expr)
| Ternary (cond on_true on_false : expr)
| Member (base : expr) (field : string)
| Index (base key : expr)
| Call (receiver : option expr) (fn : string) (args : list expr)
| ListLit (elems : list expr)
| MapLit (entries : list (expr * expr))
| StructLit (type_name : option string) (fields : list (expr * expr))
| Comprehension (iter_var : string)
    (iter_range accu_init loop_cond loop_step result : expr)
| Grouping (inner : expr).

(** Modelled from the spec: FormatOptions (spec sections 3 and 6). *)
Record FormatOptions := {
  max_width : nat;
  indent_width : nat;
  use_tabs : bool;
  trailing_comma : bool
}.

(** Modelled from the spec: the defaults of the configuration surface
    (spec section 6). *)
Definition default_options : FormatOptions :=
  {| max_width := 80; indent_width := 2; use_tabs := false; trailing_comma := true |}.

Inductive associativity := LeftAssoc | RightAssoc | NonAssoc.

Inductive node_kind :=
| KTernary
| KBinary (op : binary_op)
| KUnary (op : unary_op)
| KPostfix
| KAtom.

Definition kind_of (e : expr) : node_kind :=
  match e with
  | Ternary _ _ _ => KTernary
  | Binary op _ _ => KBinary op
  | Unary op _ => KUnary op
  | Member _ _ | Index _ _ | Call _ _ _ => KPostfix
  | _ => KAtom
  end.

(** Modelled from the spec: the Precedence Table (spec section 4.1), the
    ladder from the conditional (weakest) to postfix forms.  The spec leaves
    the associativity of each rung to CEL: its binary operators group to the
    left, the conditional and the prefix operators to the right. *)
Definition binding_strength (k : node_kind) : nat :=
  match k with
  | KTernary => 1
  | KBinary LogicalOr => 2
  | KBinary LogicalAnd => 3
  | KBinary (Equals | NotEquals) => 4
  | KBinary (Less | LessEq | Greater | GreaterEq) => 5
  | KBinary InOp => 6
  | KBinary (Add | Sub) => 7
  | KBinary (Mul | Div | Rem) => 8
  | KUnary _ => 9
  | KPostfix => 10
  | KAtom => 11
  end.

Definition assoc_of (k : node_kind) : associativity :=
  match k with
  | KTernary => RightAssoc
  | KBinary _ => LeftAssoc
  | KUnary _ => RightAssoc
  | KPostfix => LeftAssoc
  | KAtom => NonAssoc
  end.

(** The structural slot a child occupies in its parent. *)
Inductive operand_position :=
| LeftOperand | RightOperand
| UnaryOperand
| Condition | ThenBranch | ElseBranch
| Receiver.

Record slot := { parent : node_kind; place : operand_position }.

(** Whether a child of equal strength in that position would be regrouped
    by a parent of that associativity. *)
Definition conflicts (a : associativity) (p : operand_position) : bool :=
  match a, p with
  | NonAssoc, _ => true
  | LeftAssoc, (LeftOperand | Receiver) => false
  | LeftAssoc, _ => true
  | RightAssoc, (RightOperand | UnaryOperand | ElseBranch) => false
  | RightAssoc, _ => true
  end.

(** Modelled from the spec: [needs_parens(child, parent_slot)] (spec
    section 4.1). *)
Definition needs_parens (child : expr) (s : slot) : bool :=
  let c := binding_strength (kind_of child) in
  let p := binding_strength (parent s) in
  (c <? p)%nat || ((c =? p)%nat && conflicts (assoc_of (parent s)) (place s)).

(* ===================================================================== *)
(** ** Canonical single-line form                                        *)
(* ===================================================================== *)

Definition unary_text (op : unary_op) : string :=
  match op with Neg => "-" | Not => "!" end.

Definition binary_text (op : binary_op) : string :=
  match op with
  | LogicalOr => "||" | LogicalAnd => "&&"
  | Equals => "==" | NotEquals => "!="
  | Less => "<" | LessEq => "<=" | Greater => ">" | GreaterEq => ">="
  | InOp => "in"
  | Add => "+" | Sub => "-"
  | Mul => "*" | Div => "/" | Rem => "%"
  end.

Definition quote : string := String (ascii_of_nat 34) "".
Definition backslash : ascii := ascii_of_nat 92.
Definition newline : string := String (ascii_of_nat 10) "".
Definition tab : string := String (ascii_of_nat 9) "".

(** Modelled from the spec: the canonical text of a quoted literal (spec
    section 3) re-escapes the characters that cannot stand for themselves
    inside double quotes. *)
Fixpoint escape (s : string) : string :=
  match s with
  | EmptyString => EmptyString
  | String c s' =>
      let n := nat_of_ascii c in
      if (n =? 34)%nat then String backslash (String c (escape s'))
      else if (n =? 92)%nat then String backslash (String c (escape s'))
      else if (n =? 10)%nat then String backslash (String "n" (escape s'))
      else if (n =? 13)%nat then String backslash (String "r" (escape s'))
      else if (n =? 9)%nat then String backslash (String "t" (escape s'))
      else String c (escape s')
  end.

Definition decimal (n : N) : string := DecimalString.NilEmpty.string_of_uint (N.to_uint n).

(** Modelled from the spec: the canonical textual rendering of a literal
    (spec section 3). *)
Definition literal_text (l : literal) : string :=
  match l with
  | LInt z => if (z <? 0)%Z then "-" ++ decimal (Z.abs_N z) else decimal (Z.abs_N z)
  | LUInt n => decimal n ++ "u"
  | LFloat w f => decimal w ++ "." ++ f
  | LString s => quote ++ escape s ++ quote
  | LBytes s => "b" ++ quote ++ escape s ++ quote
  | LBool true => "true"
  | LBool false => "false"
  | LNull => "null"
  end.

Definition paren_if (b : bool) (s : string) : string :=
  if b then "(" ++ s ++ ")" else s.

Fixpoint join (sep : string) (parts : list string) : string :=
  match parts with
  | [] => ""
  | [p] => p
  | p :: rest => p ++ sep ++ join sep rest
  end.

Definition type_prefix (type_name : option string) : string :=
  match type_name with Some t => t | None => "" end.

Definition binary_slot (op : binary_op) (p : operand_position) : slot :=
  {| parent := KBinary op; place := p |}.
Definition unary_slot (op : unary_op) : slot :=
  {| parent := KUnary op; place := UnaryOperand |}.
Definition ternary_slot (p : operand_position) : slot :=
  {| parent := KTernary; place := p |}.
Definition receiver_slot : slot := {| parent := KPostfix; place := Receiver |}.

(** Modelled from the spec: the canonical single-line form of a node (spec
    section 4.3, "Try single-line first"). *)
Fixpoint single_line (e : expr) : string :=
  let operand (s : slot) (child : expr) :=
    paren_if (needs_parens child s) (single_line child) in
  let entry (kv : expr * expr) :=
    single_line (fst kv) ++ ": " ++ single_line (snd kv) in
  match e with
  | Literal l => literal_text l
  | Identifier name => name
  | Unary op x => unary_text op ++ operand (unary_slot op) x
  | Binary op l r =>
      operand (binary_slot op LeftOperand) l ++ " " ++ binary_text op ++ " "
      ++ operand (binary_slot op RightOperand) r
  | Ternary c t f =>
      operand (ternary_slot Condition) c ++ " ? "
      ++ operand (ternary_slot ThenBranch) t ++ " : "
      ++ operand (ternary_slot ElseBranch) f
  | Member b field => operand receiver_slot b ++ "." ++ field
  | Index b k => operand receiver_slot b ++ "[" ++ single_line k ++ "]"
  | Call None fn args => fn ++ "(" ++ join ", " (map single_line args) ++ ")"
  | Call (Some r) fn args =>
      operand receiver_slot r ++ "." ++ fn
      ++ "(" ++ join ", " (map single_line args) ++ ")"
  | ListLit elems => "[" ++ join ", " (map single_line elems) ++ "]"
  | MapLit entries => "{" ++ join ", " (map entry entries) ++ "}"
  | StructLit t fields =>
      type_prefix t ++ "{" ++ join ", " (map entry fields) ++ "}"
  | Comprehension _ _ _ _ _ _ => "<comprehension>"
  | Grouping x => "(" ++ single_line x ++ ")"
  end.

(* ===================================================================== *)
(** ** Layout engine                                                     *)
(* ===================================================================== *)

(** One output line: its nesting level and its text without indentation. *)
Record line := { depth : nat; text : string }.

(** Modelled from the spec: the width test of the fast path,
    [current_indent_depth*indent_width + length(single_line_form) <=
    max_width] (spec section 4.3); a budget of zero never breaks (spec
    section 6). *)
Definition fits (o : FormatOptions) (d : nat) (s : string) : bool :=
  (max_width o =? 0)%nat || (d * indent_width o + String.length s <=? max_width o)%nat.

Fixpoint append_last (suffix : string) (ls : list line) : list line :=
  match ls with
  | [] => []
  | [l] => [{| depth := depth l; text := text l ++ suffix |}]
  | l :: rest => l :: append_last suffix rest
  end.

Definition prepend_first (prefix : string) (ls : list line) : list line :=
  match ls with
  | [] => []
  | l :: rest => {| depth := depth l; text := prefix ++ text l |} :: rest
  end.

Definition wrap_parens (ls : list line) : list line :=
  append_last ")" (prepend_first "(" ls).

Definition wrap_if (b : bool) (ls : list line) : list line :=
  if b then wrap_parens ls else ls.

(** Continues the last line of [a] with [sep] and the first line of [b]. *)
Definition glue (sep : string) (a b : list line) : list line :=
  match b with
  | [] => a
  | first :: rest => (append_last (sep ++ text first) a ++ rest)%list
  end.

(** One element per group of lines, a separator after each but the last,
    and after the last one too when [tc] is set. *)
Fixpoint separated (tc : bool) (groups : list (list line)) : list line :=
  match groups with
  | [] => []
  | [g] => if tc then append_last "," g else g
  | g :: rest => (append_last "," g ++ separated tc rest)%list
  end.

Definition bracketed (d : nat) (opener closer : string) (tc : bool)
    (groups : list (list line)) : list line :=
  ({| depth := d; text := opener |} :: separated tc groups
   ++ [{| depth := d; text := closer |}])%list.

Definition same_rung (op op' : binary_op) : bool :=
  (binding_strength (KBinary op) =? binding_strength (KBinary op'))%nat.

(** Modelled from the spec: the kind-specific breaking policy of the Layout
    Engine (spec section 4.3, "Break when it doesn't fit").  Every child is
    laid out by the two-phase rule of [render] below: its single-line form
    when that fits, its own breaking policy otherwise.  The left operand of a
    binary node that sits on the same rung of the ladder continues the chain
    and is broken with it. *)
Fixpoint break_node (o : FormatOptions) (d : nat) (e : expr) {struct e} : list line :=
  let render (d : nat) (x : expr) :=
    if fits o d (single_line x) then [{| depth := d; text := single_line x |}]
    else break_node o d x in
  let operand (d : nat) (s : slot) (child : expr) :=
    wrap_if (needs_parens child s) (render d child) in
  let entry (d : nat) (kv : expr * expr) :=
    let flat := single_line (fst kv) ++ ": " ++ single_line (snd kv) in
    if fits o d flat then [{| depth := d; text := flat |}]
    else glue ": " (render d (fst kv)) (render d (snd kv)) in
  match e with
  | Literal _ | Identifier _ | Comprehension _ _ _ _ _ _ =>
      [{| depth := d; text := single_line e |}]
  | Unary op x => prepend_first (unary_text op) (operand d (unary_slot op) x)
  | Binary op l r =>
      let left :=
        match l with
        | Binary op' _ _ =>
            if same_rung op op' then break_node o d l
            else operand d (binary_slot op LeftOperand) l
        | _ => operand d (binary_slot op LeftOperand) l
        end in
      (append_last (" " ++ binary_text op) left
       ++ operand (S d) (binary_slot op RightOperand) r)%list
  | Ternary c t f =>
      (operand d (ternary_slot Condition) c
       ++ prepend_first "? " (operand (S d) (ternary_slot ThenBranch) t)
       ++ prepend_first ": " (operand (S d) (ternary_slot ElseBranch) f))%list
  | Member b field => append_last ("." ++ field) (operand d receiver_slot b)
  | Index b k =>
      append_last "]" (glue "[" (operand d receiver_slot b) (render d k))
  | Call None fn args =>
      match args with
      | [] => [{| depth := d; text := single_line e |}]
      | _ => bracketed d (fn ++ "(") ")" (trailing_comma o)
               (map (render (S d)) args)
      end
  | Call (Some r) fn args =>
      match args with
      | [] => append_last ("." ++ fn ++ "()") (operand d receiver_slot r)
      | _ =>
          let head :=
            paren_if (needs_parens r receiver_slot) (single_line r)
            ++ "." ++ fn ++ "(" in
          if fits o d head then
            bracketed d head ")" (trailing_comma o) (map (render (S d)) args)
          else
            let segment :=
              "." ++ fn ++ "(" ++ join ", " (map single_line args) ++ ")" in
            (operand d receiver_slot r
             ++ (if fits o (S d) segment
                 then [{| depth := S d; text := segment |}]
                 else bracketed (S d) ("." ++ fn ++ "(") ")" (trailing_comma o)
                        (map (render (S (S d))) args)))%list
      end
  | ListLit elems =>
      match elems with
      | [] => [{| depth := d; text := single_line e |}]
      | _ => bracketed d "[" "]" (trailing_comma o) (map (render (S d)) elems)
      end
  | MapLit entries =>
      match entries with
      | [] => [{| depth := d; text := single_line e |}]
      | _ => bracketed d "{" "}" (trailing_comma o) (map (entry (S d)) entries)
      end
  | StructLit t fields =>
      match fields with
      | [] => [{| depth := d; text := single_line e |}]
      | _ => bracketed d (type_prefix t ++ "{") "}" (trailing_comma o)
               (map (entry (S d)) fields)
      end
  | Grouping x => wrap_parens (render d x)
  end.

(** Modelled from the spec: [render(node, options, current_indent_depth)]
    (spec section 4.3): the single-line form when it fits, the breaking
    policy otherwise. *)
Definition render (o : FormatOptions) (d : nat) (e : expr) : list line :=
  if fits o d (single_line e) then [{| depth := d; text := single_line e |}]
  else break_node o d e.

(** A child laid out in its slot: parenthesized when the Precedence Table
    asks for it. *)
Definition operand_lines (o : FormatOptions) (d : nat) (s : slot) (child : expr)
    : list line :=
  wrap_if (needs_parens child s) (render o d child).

(** A key and its value. *)
Definition entry_lines (o : FormatOptions) (d : nat) (kv : expr * expr)
    : list line :=
  let flat := single_line (fst kv) ++ ": " ++ single_line (snd kv) in
  if fits o d flat then [{| depth := d; text := flat |}]
  else glue ": " (render o d (fst kv)) (render o d (snd kv)).

(** The left operand of a broken binary node: broken along with it when it
    continues the chain on the same rung, an operand of its own otherwise. *)
Definition chain_left (o : FormatOptions) (d : nat) (op : binary_op) (l : expr)
    : list line :=
  match l with
  | Binary op' _ _ =>
      if same_rung op op' then break_node o d l
      else operand_lines o d (binary_slot op LeftOperand) l
  | _ => operand_lines o d (binary_slot op LeftOperand) l
  end.





Fixpoint repeat_string (n : nat) (s : string) : string :=
  match n with
  | O => ""
  | S n' => s ++ repeat_string n' s
  end.

(** Modelled from the spec: the indentation unit, [indent_width] spaces or
    one tab (spec section 3). *)
Definition indent_unit (o : FormatOptions) : string :=
  if use_tabs o then tab else repeat_string (indent_width o) " ".

Definition line_string (o : FormatOptions) (l : line) : string :=
  repeat_string (depth l) (indent_unit o) ++ text l.

(** Modelled from the spec: the lines joined with the line terminator, a
    single one after the last (spec section 4.4). *)
Fixpoint output_text (o : FormatOptions) (ls : list line) : string :=
  match ls with
  | [] => ""
  | l :: rest => line_string o l ++ newline ++ output_text o rest
  end.

(** Modelled from the spec: the Layout Engine driven from indent depth 0
    (spec section 4.4). *)
Definition format_expr (o : FormatOptions) (e : expr) : string :=
  output_text o (render o 0 e).

(* ===================================================================== *)
(** ** The external parser                                               *)
(* ===================================================================== *)

(** Modelled from the spec: the external CEL parser the Formatter Facade
    invokes (spec sections 1, 4.4 and 6), of which the spec fixes only the
    interface (source text in, Expression Model or diagnostic out) and the
    precedence ladder.  The grammar below is the CEL grammar on that ladder,
    restricted to decimal numbers, double-quoted literals and unqualified
    type names; explicit parentheses are kept as [Grouping] nodes and the
    macros [all], [exists], [map] and [filter] are expanded into
    [Comprehension] nodes.  One comma may precede the closing bracket of a
    list, a map, a struct and also of an argument list: the spec does not
    say whether the parser takes it, and the layout engine writes such a
    comma when it wraps any of the four.  This parser is one instance of the interface; what
    the round trip needs of a parser is stated on its own further down. *)
Inductive token :=
| TIdent (name : string)
| TInt (n : N)
| TUInt (n : N)
| TFloat (whole : N) (fraction : string)
| TString (s : string)
| TBytes (s : string)
| TLParen | TRParen
| TLBrack | TRBrack
| TLBrace | TRBrace
| TComma | TDot | TColon | TQuestion
| TBang | TMinus
| TOp (op : binary_op).

Definition is_digit (c : ascii) : bool :=
  let n := nat_of_ascii c in (48 <=? n)%nat && (n <=? 57)%nat.

Definition is_ident_start (c : ascii) : bool :=
  let n := nat_of_ascii c in
  ((65 <=? n)%nat && (n <=? 90)%nat) || ((97 <=? n)%nat && (n <=? 122)%nat)
  || (n =? 95)%nat.

Definition is_ident_char (c : ascii) : bool := is_ident_start c || is_digit c.

Definition is_space (c : ascii) : bool :=
  let n := nat_of_ascii c in
  (n =? 32)%nat || (n =? 9)%nat || (n =? 10)%nat || (n =? 12)%nat || (n =? 13)%nat.

(** The longest prefix whose characters satisfy [p], and what follows. *)
Fixpoint span (p : ascii -> bool) (s : string) : string * string :=
  match s with
  | EmptyString => (EmptyString, EmptyString)
  | String c s' =>
      if p c then let (a, b) := span p s' in (String c a, b)
      else (EmptyString, s)
  end.

Definition N_of_digits (digits : string) : N :=
  match DecimalString.NilEmpty.uint_of_string digits with
  | Some d => N.of_uint d
  | None => 0%N
  end.

(** Modelled from the spec: the escapes of a quoted literal of the parser's
    input, the inverse of [escape]. *)
Definition unescape (c : ascii) : option ascii :=
  let n := nat_of_ascii c in
  if (n =? 34)%nat then Some c
  else if (n =? 92)%nat then Some c
  else if (n =? 110)%nat then Some (ascii_of_nat 10)
  else if (n =? 114)%nat then Some (ascii_of_nat 13)
  else if (n =? 116)%nat then Some (ascii_of_nat 9)
  else None.

(** Modelled from the spec: the parser reads the body of a quoted literal
    up to and including the closing quote; the decoded value and the rest
    of the input. *)
Fixpoint read_string (s : string) : option (string * string) :=
  match s with
  | EmptyString => None
  | String c s' =>
      let n := nat_of_ascii c in
      if (n =? 34)%nat then Some (EmptyString, s')
      else if (n =? 10)%nat then None
      else if (n =? 92)%nat then
        match s' with
        | EmptyString => None
        | String e s'' =>
            match unescape e, read_string s'' with
            | Some ch, Some (v, rest) => Some (String ch v, rest)
            | _, _ => None
            end
        end
      else
        match read_string s' with
        | Some (v, rest) => Some (String c v, rest)
        | None => None
        end
  end.

Definition starts_with_quote (s : string) : bool :=
  match s with
  | String c _ => (nat_of_ascii c =? 34)%nat
  | EmptyString => false
  end.

(** Modelled from the spec: the numeric literals of the parser's input, an
    integer, an unsigned integer with its suffix, or a decimal number. *)
Definition number_token (digits rest : string) : token * string :=
  match rest with
  | String "." rest1 =>
      match span is_digit rest1 with
      | (EmptyString, _) => (TInt (N_of_digits digits), rest)
      | (fraction, rest2) => (TFloat (N_of_digits digits) fraction, rest2)
      end
  | String "u" rest1 => (TUInt (N_of_digits digits), rest1)
  | String "U" rest1 => (TUInt (N_of_digits digits), rest1)
  | _ => (TInt (N_of_digits digits), rest)
  end.

(** Modelled from the spec: the operators of the Precedence Table (spec
    section 4.1) and the punctuation of the node variants. *)
Definition symbol_token (c : ascii) (rest : string) : option (token * string) :=
  match c, rest with
  | "("%char, _ => Some (TLParen, rest)
  | ")"%char, _ => Some (TRParen, rest)
  | "["%char, _ => Some (TLBrack, rest)
  | "]"%char, _ => Some (TRBrack, rest)
  | "{"%char, _ => Some (TLBrace, rest)
  | "}"%char, _ => Some (TRBrace, rest)
  | ","%char, _ => Some (TComma, rest)
  | "."%char, _ => Some (TDot, rest)
  | ":"%char, _ => Some (TColon, rest)
  | "?"%char, _ => Some (TQuestion, rest)
  | "-"%char, _ => Some (TMinus, rest)
  | "+"%char, _ => Some (TOp Add, rest)
  | "*"%char, _ => Some (TOp Mul, rest)
  | "/"%char, _ => Some (TOp Div, rest)
  | "%"%char, _ => Some (TOp Rem, rest)
  | "&"%char, String "&" rest' => Some (TOp LogicalAnd, rest')
  | "|"%char, String "|" rest' => Some (TOp LogicalOr, rest')
  | "="%char, String "=" rest' => Some (TOp Equals, rest')
  | "!"%char, String "=" rest' => Some (TOp NotEquals, rest')
  | "!"%char, _ => Some (TBang, rest)
  | "<"%char, String "=" rest' => Some (TOp LessEq, rest')
  | "<"%char, _ => Some (TOp Less, rest)
  | ">"%char, String "=" rest' => Some (TOp GreaterEq, rest')
  | ">"%char, _ => Some (TOp Greater, rest)
  | _, _ => None
  end.

(** Modelled from the spec: the token at the head of [String c rest] of
    the parser's input, [c] not being white space. *)
Definition next_token (c : ascii) (rest : string) : option (token * string) :=
  if is_digit c then
    let (digits, rest1) := span is_digit (String c rest) in
    Some (number_token digits rest1)
  else if is_ident_start c then
    let (name, rest1) := span is_ident_char (String c rest) in
    if ((name =? "b") || (name =? "B")) && starts_with_quote rest1 then
      match rest1 with
      | String _ body =>
          match read_string body with
          | Some (v, rest2) => Some (TBytes v, rest2)
          | None => None
          end
      | EmptyString => None
      end
    else Some (TIdent name, rest1)
  else if (nat_of_ascii c =? 34)%nat then
    match read_string rest with
    | Some (v, rest1) => Some (TString v, rest1)
    | None => None
    end
  else symbol_token c rest.

(** Modelled from the spec: the parser's input as tokens, white space
    between them dropped; [fuel] bounds the number of steps. *)
Fixpoint lex_fuel (fuel : nat) (s : string) : option (list token) :=
  match fuel with
  | O => None
  | S fuel' =>
      match s with
      | EmptyString => Some []
      | String c rest =>
          if is_space c then lex_fuel fuel' rest
          else
            match next_token c rest with
            | Some (t, rest') =>
                match lex_fuel fuel' rest' with
                | Some ts => Some (t :: ts)
                | None => None
                end
            | None => None
            end
      end
  end.

Definition lex (s : string) : option (list token) :=
  lex_fuel (S (String.length s)) s.

Definition keyword (name : string) : bool :=
  (name =? "true") || (name =? "false") || (name =? "null") || (name =? "in").

Definition binop_of_token (t : token) : option binary_op :=
  match t with
  | TOp op => Some op
  | TMinus => Some Sub
  | TIdent name => if name =? "in" then Some InOp else None
  | _ => None
  end.

Inductive bracket := Round | Square | Curly.

Definition closes (b : bracket) (t : token) : bool :=
  match b, t with
  | Round, TRParen => true
  | Square, TRBrack => true
  | Curly, TRBrace => true
  | _, _ => false
  end.

Definition accu : expr := Identifier "__result__".

(** Modelled from the spec: the comprehension a macro call
    [target.fn(v, body)] is expanded into by the parser (README, Known
    Limitations). *)
Definition expand_macro (target : expr) (fn : string) (args : list expr)
    : option expr :=
  match args with
  | [Identifier v; body] =>
      if fn =? "all" then
        Some (Comprehension v target (Literal (LBool true))
                (Call None "@not_strictly_false" [accu])
                (Binary LogicalAnd accu body) accu)
      else if fn =? "exists" then
        Some (Comprehension v target (Literal (LBool false))
                (Call None "@not_strictly_false" [Unary Not accu])
                (Binary LogicalOr accu body) accu)
      else if fn =? "map" then
        Some (Comprehension v target (ListLit [])
                (Literal (LBool true))
                (Binary Add accu (ListLit [body])) accu)
      else if fn =? "filter" then
        Some (Comprehension v target (ListLit [])
                (Literal (LBool true))
                (Ternary body (Binary Add accu (ListLit [Identifier v])) accu)
                accu)
      else None
  | _ => None
  end.

Definition method_call (target : expr) (fn : string) (args : list expr) : expr :=
  match expand_macro target fn args with
  | Some c => c
  | None => Call (Some target) fn args
  end.

Definition atom_of_ident (name : string) : option expr :=
  if name =? "true" then Some (Literal (LBool true))
  else if name =? "false" then Some (Literal (LBool false))
  else if name =? "null" then Some (Literal LNull)
  else if name =? "in" then None
  else Some (Identifier name).

(** Modelled from the spec: recursive descent along the ladder of the
    Precedence Table (spec section 4.1); [fuel] bounds the nesting of
    calls.  [parse_binary fuel lvl] reads an operand chain of the rung
    [lvl] (2 for [||] up to 8 for [*]), [parse_binary_rest] continues it to
    the left-nested tree. *)
Fixpoint parse_expr (fuel : nat) (ts : list token) {struct fuel}
    : option (expr * list token) :=
  match fuel with
  | O => None
  | S f =>
      match parse_binary f 2 ts with
      | Some (c, TQuestion :: rest) =>
          match parse_binary f 2 rest with
          | Some (t, TColon :: rest') =>
              match parse_expr f rest' with
              | Some (e, rest'') => Some (Ternary c t e, rest'')
              | None => None
              end
          | _ => None
          end
      | other => other
      end
  end

with parse_binary (fuel : nat) (lvl : nat) (ts : list token) {struct fuel}
    : option (expr * list token) :=
  match fuel with
  | O => None
  | S f =>
      if (8 <? lvl)%nat then parse_unary f ts
      else
        match parse_binary f (S lvl) ts with
        | Some (l, rest) => parse_binary_rest f lvl l rest
        | None => None
        end
  end

with parse_binary_rest (fuel : nat) (lvl : nat) (lhs : expr) (ts : list token)
    {struct fuel} : option (expr * list token) :=
  match fuel with
  | O => None
  | S f =>
      match ts with
      | t :: rest =>
          match binop_of_token t with
          | Some op =>
              if (binding_strength (KBinary op) =? lvl)%nat then
                match parse_binary f (S lvl) rest with
                | Some (r, rest') => parse_binary_rest f lvl (Binary op lhs r) rest'
                | None => None
                end
              else Some (lhs, ts)
          | None => Some (lhs, ts)
          end
      | [] => Some (lhs, ts)
      end
  end

with parse_unary (fuel : nat) (ts : list token) {struct fuel}
    : option (expr * list token) :=
  match fuel with
  | O => None
  | S f =>
      match ts with
      | TBang :: rest =>
          match parse_unary f rest with
          | Some (x, rest') => Some (Unary Not x, rest')
          | None => None
          end
      | TMinus :: rest =>
          match parse_unary f rest with
          | Some (x, rest') => Some (Unary Neg x, rest')
          | None => None
          end
      | _ =>
          match parse_primary f ts with
          | Some (b, rest) => parse_postfix_rest f b rest
          | None => None
          end
      end
  end

with parse_postfix_rest (fuel : nat) (b : expr) (ts : list token) {struct fuel}
    : option (expr * list token) :=
  match fuel with
  | O => None
  | S f =>
      match ts with
      | TDot :: TIdent name :: TLParen :: rest =>
          match parse_items f Round rest with
          | Some (args, rest') => parse_postfix_rest f (method_call b name args) rest'
          | None => None
          end
      | TDot :: TIdent name :: rest => parse_postfix_rest f (Member b name) rest
      | TLBrack :: rest =>
          match parse_expr f rest with
          | Some (k, TRBrack :: rest') => parse_postfix_rest f (Index b k) rest'
          | _ => None
          end
      | _ => Some (b, ts)
      end
  end

with parse_primary (fuel : nat) (ts : list token) {struct fuel}
    : option (expr * list token) :=
  match fuel with
  | O => None
  | S f =>
      match ts with
      | TIdent name :: TLParen :: rest =>
          if keyword name then None
          else
            match parse_items f Round rest with
            | Some (args, rest') => Some (Call None name args, rest')
            | None => None
            end
      | TIdent name :: TLBrace :: rest =>
          if keyword name then None
          else
            match parse_entries f rest with
            | Some (fields, rest') => Some (StructLit (Some name) fields, rest')
            | None => None
            end
      | TIdent name :: rest =>
          match atom_of_ident name with
          | Some a => Some (a, rest)
          | None => None
          end
      | TInt n :: rest => Some (Literal (LInt (Z.of_N n)), rest)
      | TUInt n :: rest => Some (Literal (LUInt n), rest)
      | TFloat w fr :: rest => Some (Literal (LFloat w fr), rest)
      | TString s :: rest => Some (Literal (LString s), rest)
      | TBytes s :: rest => Some (Literal (LBytes s), rest)
      | TLParen :: rest =>
          match parse_expr f rest with
          | Some (x, TRParen :: rest') => Some (Grouping x, rest')
          | _ => None
          end
      | TLBrack :: rest =>
          match parse_items f Square rest with
          | Some (elems, rest') => Some (ListLit elems, rest')
          | None => None
          end
      | TLBrace :: rest =>
          match parse_entries f rest with
          | Some (entries, rest') => Some (MapLit entries, rest')
          | None => None
          end
      | _ => None
      end
  end

with parse_items (fuel : nat) (b : bracket) (ts : list token) {struct fuel}
    : option (list expr * list token) :=
  match fuel with
  | O => None
  | S f =>
      match ts with
      | [] => None
      | t :: rest =>
          if closes b t then Some ([], rest)
          else
            match parse_expr f ts with
            | Some (x, TComma :: rest') =>
                match parse_items f b rest' with
                | Some (xs, rest'') => Some (x :: xs, rest'')
                | None => None
                end
            | Some (x, t' :: rest') =>
                if closes b t' then Some ([x], rest') else None
            | _ => None
            end
      end
  end

with parse_entries (fuel : nat) (ts : list token) {struct fuel}
    : option (list (expr * expr) * list token) :=
  match fuel with
  | O => None
  | S f =>
      match ts with
      | [] => None
      | TRBrace :: rest => Some ([], rest)
      | _ =>
          match parse_expr f ts with
          | Some (k, TColon :: rest1) =>
              match parse_expr f rest1 with
              | Some (v, TComma :: rest2) =>
                  match parse_entries f rest2 with
                  | Some (kvs, rest3) => Some ((k, v) :: kvs, rest3)
                  | None => None
                  end
              | Some (v, TRBrace :: rest2) => Some ([(k, v)], rest2)
              | _ => None
              end
          | _ => None
          end
      end
  end.

Definition parse_fuel (ts : list token) : nat := 32 * List.length ts + 32.

Definition parse_tokens (ts : list token) : option expr :=
  match parse_expr (parse_fuel ts) ts with
  | Some (e, []) => Some e
  | _ => None
  end.

(** The parser's diagnostic. *)
Record diagnostic := { message : string; position : nat }.

(** Modelled from the spec: the parser's interface, source text in,
    Expression Model or diagnostic out (spec section 4.4). *)
Definition parse (source : string) : expr + diagnostic :=
  match lex source with
  | None => inr {| message := "unrecognized input"; position := 0 |}
  | Some ts =>
      match parse_tokens ts with
      | Some e => inl e
      | None => inr {| message := "syntax error"; position := 0 |}
      end
  end.

(* ===================================================================== *)
(** ** Formatter facade                                                  *)
(* ===================================================================== *)

Inductive FormatError := ParseError (d : diagnostic).

(** Modelled from the spec: [format(source_text, options)] of the
    Formatter Facade (spec section 4.4), over any parser. *)
Definition format_with (parser : string -> expr + diagnostic)
    (source_text : string) (o : FormatOptions) : string + FormatError :=
  match parser source_text with
  | inl e => inl (format_expr o e)
  | inr d => inr (ParseError d)
  end.

(** Modelled from the spec: the Formatter Facade over the parser above
    (spec section 4.4). *)
Definition format : string -> FormatOptions -> string + FormatError :=
  format_with parse.

(* ===================================================================== *)
(** ** Concrete pages and formatters used in the examples                *)
(* ===================================================================== *)

Definition blank_config : config_inputs :=
  {| maxWidthInput_value := []; indentWidthInput_value := [];
     useTabsInput_checked := false; trailingCommaInput_checked := false |}.

(** The page before the module has loaded, every control empty. *)
Definition fresh_page : page :=
  {| wasmReady := false; inputEl_value := []; outputEl_value := [];
     errorEl_textContent := []; errorEl_hidden := true;
     loadingEl_hidden := true; versionEl_textContent := [];
     formatBtn_disabled := true; copyBtn_textContent := [];
     config := blank_config; ffi_log := [] |}.

(** A formatter that returns its input, and one that always throws. *)
Definition echo_formatter (source : jsstring) (_ _ : Z) (_ _ : bool) : outcome :=
  Returned source.

Definition failing_formatter (source : jsstring) (_ _ : Z) (_ _ : bool) : outcome :=
  Threw {| err_toString := js "ParseError"; err_message := js "ParseError" |}.

Definition some_version : outcome := Returned (js "0.1.0").

(** The session the examples start from: the script has just run on the
    page with every control empty. *)
Definition first_session : session :=
  {| dom := set_loading_hidden false fresh_page; init_pending := true;
     timers := []; next_timer := 1; formatTimeout := None;
     writes := []; clipboard := None |}.

(** The module has loaded, the user has typed [ 1+2 ] and the debounce
    timer has fired, with a formatter that returns its input. *)
Definition typed_session : session :=
  perform_all echo_formatter some_version
    [InitResolves; Input (js " 1+2 "); TimerFires 1] first_session.

(** The module failed to load. *)
Definition failed_session : session :=
  perform echo_formatter some_version
    (InitRejects {| err_toString := js "TypeError: Failed to fetch";
                    err_message := js "Failed to fetch" |})
    first_session.

(** What the claim on option defaults asks of one run of [formatCode]:
    a control that carries no value (an empty field, an unticked box) yields
    the default of its option in the call that is issued. *)
Definition substitutes_all_defaults
    (fwo : jsstring -> Z -> Z -> bool -> bool -> outcome) (p : page) : Prop :=
  forall c, ffi_log (formatCode fwo p) = (ffi_log p ++ [c])%list ->
    (maxWidthInput_value (config p) = [] ->
       arg_maxWidth c = Z.of_nat (max_width default_options)) /\
    (indentWidthInput_value (config p) = [] ->
       arg_indentWidth c = Z.of_nat (indent_width default_options)) /\
    (useTabsInput_checked (config p) = false ->
       arg_useTabs c = use_tabs default_options) /\
    (trailingCommaInput_checked (config p) = false ->
       arg_trailingComma c = trailing_comma default_options).

(** Modelled from the spec: the rows of the Precedence Table that hold the
    binary operators, from the weakest to the strongest, in the symbols of
    the ladder of spec section 4.1: [||] < [&&] < equality < relational <
    [in] < additive < multiplicative. *)
Definition ladder_rows : list (list string) :=
  [ ["||"]; ["&&"]; ["=="; "!="]; ["<"; "<="; ">"; ">="]; ["in"];
    ["+"; "-"]; ["*"; "/"; "%"] ].

Fixpoint row_index (rows : list (list string)) (symbol : string) : nat :=
  match rows with
  | [] => 0
  | row :: rest =>
      if existsb (String.eqb symbol) row then 0 else S (row_index rest symbol)
  end.

(** The row of a binary operator on that ladder, counted from the weakest. *)
Definition rung (op : binary_op) : nat := row_index ladder_rows (binary_text op).

(** Modelled from the spec: the rule of the precedence-safety property
    (spec section 8) for the right operand [b op2 c] of [op1], read off the
    ladder alone: [op2] stands on a lower row than [op1], or on the same
    row.  Every binary operator of CEL groups to the left, so that on the
    same row the right-operand position always conflicts. *)
Definition right_operand_wraps (op1 op2 : binary_op) : bool :=
  (rung op2 <=? rung op1)%nat.




(* ===================================================================== *)
(** ** Trees the parser produces                                         *)
(* ===================================================================== *)

Fixpoint all_chars (p : ascii -> bool) (s : string) : bool :=
  match s with
  | EmptyString => true
  | String c s' => p c && all_chars p s'
  end.

(** A name token: a letter or underscore, then letters, digits and
    underscores. *)
Definition ident_ok (s : string) : bool :=
  match s with
  | EmptyString => false
  | String c rest => is_ident_start c && all_chars is_ident_char rest
  end.

Definition plain_name (s : string) : bool := ident_ok s && negb (keyword s).

Definition digits_ok (s : string) : bool :=
  match s with
  | EmptyString => false
  | _ => all_chars is_digit s
  end.

Definition token_ok (t : token) : bool :=
  match t with
  | TIdent name => ident_ok name
  | TFloat _ fraction => digits_ok fraction
  | _ => true
  end.

Definition literal_wf (l : literal) : bool :=
  match l with
  | LInt z => (0 <=? z)%Z
  | LFloat _ fraction => digits_ok fraction
  | _ => true
  end.

Definition is_none {A : Type} (x : option A) : bool :=
  match x with None => true | Some _ => false end.

(** The shape of every tree the parser hands over: names are name tokens,
    an integer literal carries no sign, no child needs parentheses in its
    slot (explicit parentheses are [Grouping] nodes), no method call has
    the form of a macro, and a struct has its type name.  A comprehension is
    opaque. *)
Fixpoint wf (e : expr) : bool :=
  let pair (kv : expr * expr) := wf (fst kv) && wf (snd kv) in
  match e with
  | Literal l => literal_wf l
  | Identifier name => plain_name name
  | Unary op x => wf x && negb (needs_parens x (unary_slot op))
  | Binary op l r =>
      wf l && wf r
      && negb (needs_parens l (binary_slot op LeftOperand))
      && negb (needs_parens r (binary_slot op RightOperand))
  | Ternary c t f =>
      wf c && wf t && wf f
      && negb (needs_parens c (ternary_slot Condition))
      && negb (needs_parens t (ternary_slot ThenBranch))
      && negb (needs_parens f (ternary_slot ElseBranch))
  | Member b field =>
      wf b && ident_ok field && negb (needs_parens b receiver_slot)
  | Index b k => wf b && wf k && negb (needs_parens b receiver_slot)
  | Call None fn args => plain_name fn && forallb wf args
  | Call (Some r) fn args =>
      wf r && negb (needs_parens r receiver_slot) && ident_ok fn
      && forallb wf args && is_none (expand_macro r fn args)
  | ListLit elems => forallb wf elems
  | MapLit entries => forallb pair entries
  | StructLit t fields =>
      match t with Some name => plain_name name | None => false end
      && forallb pair fields
  | Comprehension _ _ _ _ _ _ => true
  | Grouping x => wf x
  end.

Fixpoint comprehension_free (e : expr) : bool :=
  let pair (kv : expr * expr) :=
    comprehension_free (fst kv) && comprehension_free (snd kv) in
  match e with
  | Literal _ | Identifier _ => true
  | Unary _ x => comprehension_free x
  | Binary _ l r => comprehension_free l && comprehension_free r
  | Ternary c t f =>
      comprehension_free c && comprehension_free t && comprehension_free f
  | Member b _ => comprehension_free b
  | Index b k => comprehension_free b && comprehension_free k
  | Call None _ args => forallb comprehension_free args
  | Call (Some r) _ args =>
      comprehension_free r && forallb comprehension_free args
  | ListLit elems => forallb comprehension_free elems
  | MapLit entries => forallb pair entries
  | StructLit _ fields => forallb pair fields
  | Comprehension _ _ _ _ _ _ => false
  | Grouping x => comprehension_free x
  end.

(* ===================================================================== *)
(** ** Statements about the parser                                       *)
(* ===================================================================== *)

Definition level (e : expr) : nat := binding_strength (kind_of e).

Definition tokens_ok (ts : list token) : Prop := forallb token_ok ts = true.

Definition pair_wf (kv : expr * expr) : bool := wf (fst kv) && wf (snd kv).

(** What each parsing function guarantees of its result at a given
    amount of fuel. *)
Definition parser_sound_at (f : nat) : Prop :=
  (forall ts e rest, parse_expr f ts = Some (e, rest) -> tokens_ok ts ->
     wf e = true /\ tokens_ok rest)
  /\ (forall lvl ts e rest, parse_binary f lvl ts = Some (e, rest) ->
        tokens_ok ts ->
        wf e = true /\ (Nat.min lvl 9 <= level e)%nat /\ tokens_ok rest)
  /\ (forall lvl lhs ts e rest,
        parse_binary_rest f lvl lhs ts = Some (e, rest) ->
        wf lhs = true -> (lvl <= level lhs)%nat -> tokens_ok ts ->
        wf e = true /\ (lvl <= level e)%nat /\ tokens_ok rest)
  /\ (forall ts e rest, parse_unary f ts = Some (e, rest) -> tokens_ok ts ->
        wf e = true /\ (9 <= level e)%nat /\ tokens_ok rest)
  /\ (forall b ts e rest, parse_postfix_rest f b ts = Some (e, rest) ->
        wf b = true -> (10 <= level b)%nat -> tokens_ok ts ->
        wf e = true /\ (10 <= level e)%nat /\ tokens_ok rest)
  /\ (forall ts e rest, parse_primary f ts = Some (e, rest) -> tokens_ok ts ->
        wf e = true /\ (10 <= level e)%nat /\ tokens_ok rest)
  /\ (forall b ts xs rest, parse_items f b ts = Some (xs, rest) ->
        tokens_ok ts -> forallb wf xs = true /\ tokens_ok rest)
  /\ (forall ts kvs rest, parse_entries f ts = Some (kvs, rest) ->
        tokens_ok ts -> forallb pair_wf kvs = true /\ tokens_ok rest).

(* ===================================================================== *)
(** ** Shape of the output text                                          *)
(* ===================================================================== *)

Definition is_newline (c : ascii) : bool := (nat_of_ascii c =? 10)%nat.

Definition no_newline (s : string) : bool :=
  all_chars (fun c => negb (is_newline c)) s.

Definition starts_unspaced (s : string) : bool :=
  match s with
  | EmptyString => false
  | String c _ => negb (is_space c)
  end.

Fixpoint ends_unspaced (s : string) : bool :=
  match s with
  | EmptyString => false
  | String c EmptyString => negb (is_space c)
  | String _ rest => ends_unspaced rest
  end.

(** A line text that is not empty, holds no line terminator, and neither
    starts nor ends with white space. *)
Definition tidy (s : string) : bool :=
  no_newline s && starts_unspaced s && ends_unspaced s.

Definition tidy_line (l : line) : Prop := tidy (text l) = true.

(** No line of the text ends with white space: whatever stands right
    before a line terminator is not a white-space character (a terminator
    included, so no line is empty either). *)
Definition no_trailing_whitespace (t : string) : Prop :=
  forall before c after,
    t = before ++ String c (newline ++ after) -> is_space c = false.

(** The text ends with one line terminator, preceded by a character that
    is not white space. *)
Definition single_trailing_newline (t : string) : Prop :=
  exists body c, t = body ++ String c newline /\ is_space c = false.

(** The text starts at the left margin. *)
Definition starts_at_margin (t : string) : Prop :=
  exists c rest, t = String c rest /\ is_space c = false.

(** The first of the lines sits at depth [d]. *)
Definition first_depth (d : nat) (ls : list line) : Prop :=
  exists l rest, ls = l :: rest /\ depth l = d.




(** More fuel does not change what a parsing function returns. *)
Definition parser_mono_at (f : nat) : Prop :=
  forall f', (f <= f')%nat ->
  (forall ts r, parse_expr f ts = Some r -> parse_expr f' ts = Some r)
  /\ (forall lvl ts r, parse_binary f lvl ts = Some r ->
        parse_binary f' lvl ts = Some r)
  /\ (forall lvl lhs ts r, parse_binary_rest f lvl lhs ts = Some r ->
        parse_binary_rest f' lvl lhs ts = Some r)
  /\ (forall ts r, parse_unary f ts = Some r -> parse_unary f' ts = Some r)
  /\ (forall b ts r, parse_postfix_rest f b ts = Some r ->
        parse_postfix_rest f' b ts = Some r)
  /\ (forall ts r, parse_primary f ts = Some r -> parse_primary f' ts = Some r)
  /\ (forall b ts r, parse_items f b ts = Some r -> parse_items f' b ts = Some r)
  /\ (forall ts r, parse_entries f ts = Some r -> parse_entries f' ts = Some r).


(* ===================================================================== *)
(** ** Tokens of a well-formed tree                                      *)
(* ===================================================================== *)

Definition literal_token (l : literal) : token :=
  match l with
  | LInt z => TInt (Z.to_N z)
  | LUInt n => TUInt n
  | LFloat w fraction => TFloat w fraction
  | LString s => TString s
  | LBytes s => TBytes s
  | LBool true => TIdent "true"
  | LBool false => TIdent "false"
  | LNull => TIdent "null"
  end.

Definition unary_token (op : unary_op) : token :=
  match op with Neg => TMinus | Not => TBang end.

Definition binary_token (op : binary_op) : token :=
  match op with
  | Sub => TMinus
  | InOp => TIdent "in"
  | _ => TOp op
  end.

(** [spells e ts]: [ts] is a token sequence of the well-formed tree [e]:
    its single-line form token by token, where a bracketed sequence may end
    with one more comma. *)
Inductive spells : expr -> list token -> Prop :=
| spells_Literal l : spells (Literal l) [literal_token l]
| spells_Identifier name : spells (Identifier name) [TIdent name]
| spells_Unary op x tx :
    spells x tx -> spells (Unary op x) (unary_token op :: tx)
| spells_Binary op l r tl tr :
    spells l tl -> spells r tr ->
    spells (Binary op l r) (tl ++ binary_token op :: tr)
| spells_Ternary c t f tc tt tf :
    spells c tc -> spells t tt -> spells f tf ->
    spells (Ternary c t f) (tc ++ TQuestion :: tt ++ TColon :: tf)
| spells_Member b field tb :
    spells b tb -> spells (Member b field) (tb ++ [TDot; TIdent field])
| spells_Index b k tb tk :
    spells b tb -> spells k tk ->
    spells (Index b k) (tb ++ TLBrack :: tk ++ [TRBrack])
| spells_Call fn args ta :
    spells_items args ta ->
    spells (Call None fn args) (TIdent fn :: TLParen :: ta ++ [TRParen])
| spells_Method r fn args tr ta :
    spells r tr -> spells_items args ta ->
    spells (Call (Some r) fn args)
      (tr ++ TDot :: TIdent fn :: TLParen :: ta ++ [TRParen])
| spells_ListLit elems te :
    spells_items elems te -> spells (ListLit elems) (TLBrack :: te ++ [TRBrack])
| spells_MapLit entries te :
    spells_entries entries te ->
    spells (MapLit entries) (TLBrace :: te ++ [TRBrace])
| spells_StructLit name fields tf :
    spells_entries fields tf ->
    spells (StructLit (Some name) fields)
      (TIdent name :: TLBrace :: tf ++ [TRBrace])
| spells_Grouping x tx :
    spells x tx -> spells (Grouping x) (TLParen :: tx ++ [TRParen])

with spells_items : list expr -> list token -> Prop :=
| items_none : spells_items [] []
| items_last x tx : spells x tx -> spells_items [x] tx
| items_last_comma x tx : spells x tx -> spells_items [x] (tx ++ [TComma])
| items_more x y ys tx tys :
    spells x tx -> spells_items (y :: ys) tys ->
    spells_items (x :: y :: ys) (tx ++ TComma :: tys)

with spells_entries : list (expr * expr) -> list token -> Prop :=
| entries_none : spells_entries [] []
| entries_last k v tk tv :
    spells k tk -> spells v tv ->
    spells_entries [(k, v)] (tk ++ TColon :: tv)
| entries_last_comma k v tk tv :
    spells k tk -> spells v tv ->
    spells_entries [(k, v)] (tk ++ TColon :: tv ++ [TComma])
| entries_more k v kv kvs tk tv tkvs :
    spells k tk -> spells v tv -> spells_entries (kv :: kvs) tkvs ->
    spells_entries ((k, v) :: kv :: kvs) (tk ++ TColon :: tv ++ TComma :: tkvs).

Scheme spells_mut := Minimality for spells Sort Prop
  with spells_items_mut := Minimality for spells_items Sort Prop
  with spells_entries_mut := Minimality for spells_entries Sort Prop.

Combined Scheme spells_mutual
  from spells_mut, spells_items_mut, spells_entries_mut.

(** The rung at which a token continues the expression before it. *)
Definition follows_level (t : token) : nat :=
  match t with
  | TQuestion => 1
  | TDot | TLBrack => 10
  | TLParen | TLBrace => 11
  | _ =>
      match binop_of_token t with
      | Some op => binding_strength (KBinary op)
      | None => 0
      end
  end.

(** Nothing at the head of [rest] continues an expression at rung [n] or
    above. *)
Definition quiet (n : nat) (rest : list token) : Prop :=
  match rest with
  | [] => True
  | t :: _ => (follows_level t < n)%nat
  end.

(** Tokens an expression can start with. *)
Definition opens (t : token) : bool :=
  match t with
  | TRParen | TRBrack | TRBrace | TComma | TDot | TColon | TQuestion | TOp _ =>
      false
  | _ => true
  end.

(** What the parsing functions do on the tokens [ts] of [e], whatever
    follows them: the conditional level, a binary rung [n] (in terms of what
    the loop of that rung does next), the prefix level, and the postfix level
    (in terms of what the postfix loop does next). *)
Definition parses_expr (e : expr) (ts : list token) : Prop :=
  forall rest fuel, quiet 1 rest ->
    (32 * List.length ts + 24 <= fuel)%nat ->
    parse_expr fuel (ts ++ rest)%list = Some (e, rest).

Definition rung_at (n : nat) (e : expr) (ts : list token) : Prop :=
  forall rest k fuel res,
    quiet (S n) rest ->
    parse_binary_rest k n e rest = Some res ->
    (k + 32 * List.length ts + 2 + 2 * (10 - n) <= fuel)%nat ->
    parse_binary fuel n (ts ++ rest)%list = Some res.

Definition operand_at (n : nat) (e : expr) (ts : list token) : Prop :=
  forall rest fuel,
    quiet n rest ->
    (32 * List.length ts + 3 + 2 * (10 - n) <= fuel)%nat ->
    parse_binary fuel n (ts ++ rest)%list = Some (e, rest).

Definition parses_rung (e : expr) (ts : list token) : Prop :=
  forall n, (2 <= n <= 8)%nat -> (n <= level e)%nat -> rung_at n e ts.

Definition parses_operand (e : expr) (ts : list token) : Prop :=
  forall n, (2 <= n <= 9)%nat -> (n <= level e)%nat -> operand_at n e ts.

Definition parses_prefix (e : expr) (ts : list token) : Prop :=
  (9 <= level e)%nat ->
  forall rest fuel, quiet 10 rest ->
    (32 * List.length ts + 3 <= fuel)%nat ->
    parse_unary fuel (ts ++ rest)%list = Some (e, rest).

Definition parses_postfix (e : expr) (ts : list token) : Prop :=
  (10 <= level e)%nat ->
  forall rest k fuel res, quiet 11 rest ->
    parse_postfix_rest k e rest = Some res ->
    (k + 32 * List.length ts + 2 <= fuel)%nat ->
    parse_unary fuel (ts ++ rest)%list = Some res.

Definition parses_primary (e : expr) (ts : list token) : Prop :=
  forall rest fuel, quiet 11 rest ->
    (32 * List.length ts <= fuel)%nat ->
    parse_primary fuel (ts ++ rest)%list = Some (e, rest).

Definition parses (e : expr) (ts : list token) : Prop :=
  parses_expr e ts /\ parses_rung e ts /\ parses_prefix e ts
  /\ parses_postfix e ts.

Definition parses_items (xs : list expr) (ts : list token) : Prop :=
  forall b c rest fuel, closes b c = true ->
    (32 * List.length ts + 26 <= fuel)%nat ->
    parse_items fuel b (ts ++ c :: rest)%list = Some (xs, rest).

Definition parses_entries (kvs : list (expr * expr)) (ts : list token) : Prop :=
  forall rest fuel,
    (32 * List.length ts + 26 <= fuel)%nat ->
    parse_entries fuel (ts ++ TRBrace :: rest)%list = Some (kvs, rest).

Definition pair_free (kv : expr * expr) : bool :=
  comprehension_free (fst kv) && comprehension_free (snd kv).

(** The first token of a spelling: it can start an expression, and is no
    prefix operator when the tree is a postfix form or an atom. *)
Definition heads (e : expr) (ts : list token) : Prop :=
  exists t ts', ts = t :: ts' /\ opens t = true
                /\ ((10 <= level e)%nat -> t <> TBang /\ t <> TMinus).

Definition spelling_parses (e : expr) (ts : list token) : Prop :=
  wf e = true -> comprehension_free e = true -> parses e ts /\ heads e ts.

Definition items_parse (xs : list expr) (ts : list token) : Prop :=
  forallb wf xs = true -> forallb comprehension_free xs = true ->
  parses_items xs ts.

Definition entries_parse (kvs : list (expr * expr)) (ts : list token) : Prop :=
  forallb pair_wf kvs = true -> forallb pair_free kvs = true ->
  parses_entries kvs ts.


(* ===================================================================== *)
(** ** Reading the formatter's text back                                 *)
(* ===================================================================== *)

(** White space only. *)
Definition blank (s : string) : bool := all_chars is_space s.

(** What may follow the text of an expression in the formatter's output:
    nothing, white space, a closing bracket, a comma, a colon, an opening
    square bracket, or a dot and a name. *)
Definition delimited (rest : string) : bool :=
  match rest with
  | EmptyString => true
  | String c r =>
      is_space c
      || match c with
         | ")"%char | "]"%char | "}"%char | ","%char | ":"%char | "["%char =>
             true
         | "."%char =>
             match r with
             | String c' _ => is_ident_start c'
             | EmptyString => false
             end
         | _ => false
         end
  end.

(** Text that does not begin with an equals sign. *)
Definition unequal (rest : string) : bool :=
  match rest with
  | String "="%char _ => false
  | _ => true
  end.

(** The lexer reads [s] as the tokens [ts] whenever what follows satisfies
    [P] and is itself read. *)
Definition lexes_before (P : string -> bool) (s : string) (ts : list token)
    : Prop :=
  forall rest ts', P rest = true -> lex rest = Some ts' ->
    lex (s ++ rest) = Some (ts ++ ts')%list.

Definition anything (rest : string) : bool := true.

(** The text of a group of lines from the text of its first line on: the
    later lines with their line break and indentation. *)
Fixpoint body_rest (o : FormatOptions) (ls : list line) : string :=
  match ls with
  | [] => ""
  | l :: rest => newline ++ line_string o l ++ body_rest o rest
  end.

Definition body (o : FormatOptions) (ls : list line) : string :=
  match ls with
  | [] => ""
  | l :: rest => text l ++ body_rest o rest
  end.

(** [s] is read as a spelling of [e]. *)
Definition reads (e : expr) (s : string) : Prop :=
  exists ts, spells e ts /\ lexes_before delimited s ts.

Definition reads_items (xs : list expr) (s : string) : Prop :=
  exists ts, spells_items xs ts /\ lexes_before delimited s ts.

Definition reads_entries (kvs : list (expr * expr)) (s : string) : Prop :=
  exists ts, spells_entries kvs ts /\ lexes_before delimited s ts.

(** The next character, if any, does not satisfy [p]. *)
Definition stops (p : ascii -> bool) (rest : string) : bool :=
  match rest with
  | EmptyString => true
  | String c _ => negb (p c)
  end.

(** What may follow a name: no name character and no quote. *)
Definition stops_word (rest : string) : bool :=
  stops is_ident_char rest && negb (starts_with_quote rest).

(** Text that begins with white space. *)
Definition spaced (rest : string) : bool :=
  match rest with
  | EmptyString => false
  | String c _ => is_space c
  end.

(** The line terminator and the indentation of a line at depth [d]. *)
Definition line_break (o : FormatOptions) (d : nat) : string :=
  newline ++ repeat_string d (indent_unit o).

(** Both layouts of [e] are read as spellings of [e]: its single-line form
    and the lines of its breaking policy at any depth. *)
Definition readable (o : FormatOptions) (e : expr) : Prop :=
  wf e = true -> comprehension_free e = true ->
  reads e (single_line e)
  /\ forall d, reads e (body o (break_node o d e)).

(** The single-line form of a key and its value. *)
Definition entry_text (kv : expr * expr) : string :=
  single_line (fst kv) ++ ": " ++ single_line (snd kv).

Definition reads_entry (kv : expr * expr) (s : string) : Prop :=
  exists sk sv, s = sk ++ ": " ++ sv /\ reads (fst kv) sk /\ reads (snd kv) sv.

(* ===================================================================== *)
(** ** What the round trip asks of the external parser                   *)
(* ===================================================================== *)

(** The parser is not part of the core (spec sections 1 and 6): what the
    round-trip properties need of it is stated here and assumed of an
    arbitrary parser; [parse] above is one parser that meets it. *)






(* ===================================================================== *)
(** * Properties of the page script                                      *)
(* ===================================================================== *)

Open Scope list_scope.

Section TrimFacts.

Lemma trimStart_app_ws (pre s : jsstring) :
  Forall (fun c => is_white_space c = true) pre ->
  trimStart (pre ++ s) = trimStart s.
Proof.
  induction 1 as [|c pre Hc _ IH]; simpl; [reflexivity|].
  now rewrite Hc.
Qed.

Lemma trimStart_all_ws (s : jsstring) :
  Forall (fun c => is_white_space c = true) s -> trimStart s = [].
Proof.
  intros H. rewrite <- (app_nil_r s). now rewrite trimStart_app_ws.
Qed.

Lemma trimStart_keeps (s post : jsstring) :
  trimStart s <> [] -> trimStart (s ++ post) = trimStart s ++ post.
Proof.
  induction s as [|c s IH]; simpl; [congruence|].
  destruct (is_white_space c); auto.
Qed.

Lemma trimEnd_app_ws (s post : jsstring) :
  Forall (fun c => is_white_space c = true) post ->
  trimEnd (s ++ post) = trimEnd s.
Proof.
  intros H. unfold trimEnd. rewrite rev_app_distr.
  rewrite trimStart_app_ws; [reflexivity|].
  now apply Forall_rev.
Qed.

(** Surrounding white space does not survive [trim]. *)
Lemma trim_padding (pre v post : jsstring) :
  Forall (fun c => is_white_space c = true) pre ->
  Forall (fun c => is_white_space c = true) post ->
  trim (pre ++ v ++ post) = trim v.
Proof.
  intros Hpre Hpost. unfold trim.
  rewrite trimStart_app_ws by assumption.
  destruct (trimStart v) as [|c t] eqn:Hv.
  - assert (Hall : Forall (fun c => is_white_space c = true) v).
    { clear -Hv. induction v as [|c v IH]; [constructor|].
      simpl in Hv. destruct (is_white_space c) eqn:Hc; [|discriminate].
      constructor; auto. }
    rewrite trimStart_all_ws; [reflexivity|].
    apply Forall_app; split; assumption.
  - rewrite trimStart_keeps by (rewrite Hv; discriminate).
    rewrite Hv. now apply trimEnd_app_ws.
Qed.

Lemma trim_all_ws (s : jsstring) :
  Forall (fun c => is_white_space c = true) s -> trim s = [].
Proof.
  intros H. unfold trim. now rewrite trimStart_all_ws.
Qed.

End TrimFacts.

Section AppFacts.

Variable format_with_options : jsstring -> Z -> Z -> bool -> bool -> outcome.
Variable version : outcome.

Local Abbreviation run := (formatCode format_with_options).
Local Abbreviation call := (invoke format_with_options).
Local Abbreviation step := (handle format_with_options version).
Local Abbreviation reach := (reachable format_with_options version).

(** The three ways through [formatCode]. *)
Lemma formatCode_not_ready (p : page) :
  wasmReady p = false ->
  run p = showError (js "Formatter is still loading, please wait...") p.
Proof. intros H. unfold formatCode. now rewrite H. Qed.

Lemma formatCode_blank (p : page) :
  wasmReady p = true -> trim (inputEl_value p) = [] ->
  run p = hideError (set_output [] p).
Proof. intros H1 H2. unfold formatCode. now rewrite H1, H2. Qed.

Lemma formatCode_call (p : page) :
  wasmReady p = true -> trim (inputEl_value p) <> [] ->
  let c := call_args (trim (inputEl_value p)) (config p) in
  run p =
    match call c with
    | Returned formatted => hideError (set_output formatted (log_call c p))
    | Threw err => set_output [] (showError (err_toString err) (log_call c p))
    end.
Proof.
  intros H1 H2. unfold formatCode. rewrite H1.
  destruct (trim (inputEl_value p)); [congruence|reflexivity].
Qed.


Lemma formatCode_wasmReady (p : page) : wasmReady (run p) = wasmReady p.
Proof.
  unfold formatCode.
  destruct (wasmReady p) eqn:Hr; simpl; [|assumption].
  destruct (truthy_string (trim (inputEl_value p))); simpl; [|assumption].
  destruct (call _); simpl; assumption.
Qed.

(** Until the module is ready nothing has been written to the output. *)
Lemma output_empty_until_ready (p : page) :
  reach p -> wasmReady p = false -> outputEl_value p = [].
Proof.
  induction 1 as [p [_ [Hout _]]|e p Hp IH]; [auto|].
  destruct e; simpl; auto.
  - unfold initWasm_resolved. destruct version; simpl.
    + rewrite formatCode_wasmReady. simpl. discriminate.
    + discriminate.
  - rewrite formatCode_wasmReady. intros Hr.
    rewrite formatCode_not_ready by assumption. simpl. auto.
Qed.

(** C10.  After every run of formatCode on a page reached from page load,
    a visible error comes with an empty output; when the formatter returned,
    the error is hidden and the output is what it returned; when it threw,
    the error shows the thrown value and the output is empty. *)
Theorem error_and_output_exclusive (p : page) :
  reach p ->
  (errorEl_hidden (run p) = false -> outputEl_value (run p) = [])
  /\ (forall formatted,
        wasmReady p = true -> trim (inputEl_value p) <> [] ->
        call (call_args (trim (inputEl_value p)) (config p)) = Returned formatted ->
        errorEl_hidden (run p) = true /\ outputEl_value (run p) = formatted)
  /\ (forall err,
        wasmReady p = true -> trim (inputEl_value p) <> [] ->
        call (call_args (trim (inputEl_value p)) (config p)) = Threw err ->
        errorEl_hidden (run p) = false
        /\ errorEl_textContent (run p) = err_toString err
        /\ outputEl_value (run p) = []).
Proof.
  intros Hreach. split; [|split].
  - destruct (wasmReady p) eqn:Hr.
    + destruct (trim (inputEl_value p)) as [|c t] eqn:Ht.
      * rewrite formatCode_blank by assumption. simpl. discriminate.
      * rewrite formatCode_call by (try assumption; rewrite Ht; discriminate).
        rewrite Ht. destruct (call _); simpl; [discriminate|reflexivity].
    + rewrite formatCode_not_ready by assumption. simpl. intros _.
      now apply output_empty_until_ready.
  - intros formatted Hr Ht Hc. rewrite formatCode_call by assumption.
    rewrite Hc. simpl. split; reflexivity.
  - intros err Hr Ht Hc. rewrite formatCode_call by assumption.
    rewrite Hc. simpl. repeat split; reflexivity.
Qed.

(** C9, as amended.  Once the module is ready, an input that is empty or
    all white space empties the output and hides the error without a call
    to format_with_options; and on every page the white space around the
    input is trimmed away before the formatter sees it, so that padding the
    input changes nothing but the input box itself. *)
Theorem blank_input_and_trimming (p : page) :
  wasmReady p = true ->
  (Forall (fun c => is_white_space c = true) (inputEl_value p) ->
     outputEl_value (run p) = [] /\ errorEl_hidden (run p) = true
     /\ ffi_log (run p) = ffi_log p)
  /\ (forall pre post,
        Forall (fun c => is_white_space c = true) pre ->
        Forall (fun c => is_white_space c = true) post ->
        run (set_input (pre ++ inputEl_value p ++ post) p)
        = set_input (pre ++ inputEl_value p ++ post) (run p))
  /\ (forall c, In c (ffi_log (run p)) ->
        In c (ffi_log p) \/ arg_source c = trim (inputEl_value p)).
Proof.
  intros Hr. split; [|split].
  - intros Hws. rewrite formatCode_blank; auto using trim_all_ws.
  - intros pre post Hpre Hpost. unfold formatCode. simpl.
    rewrite Hr. simpl. rewrite trim_padding by assumption.
    destruct (truthy_string (trim (inputEl_value p))); [|reflexivity].
    destruct (call _); reflexivity.
  - intros c. unfold formatCode. rewrite Hr. simpl.
    destruct (truthy_string (trim (inputEl_value p))); simpl; auto.
    destruct (call _); simpl; rewrite in_app_iff; simpl;
      intros [H|[H|[]]]; auto; right; now subst c.
Qed.

(** C8, as amended.  The call formatCode issues carries 80 and 2 for a
    width field that holds no number or holds zero, and the two check boxes
    as they stand; 80, 2, false and true are the defaults of the core's own
    options, the two widths positive. *)
Theorem option_defaults (p : page) (c : ffi_call) :
  ffi_log (run p) = ffi_log p ++ [c] ->
  (number_or (parseInt (maxWidthInput_value (config p))) 0 = 0%Z ->
     arg_maxWidth c = 80%Z)
  /\ (number_or (parseInt (indentWidthInput_value (config p))) 0 = 0%Z ->
     arg_indentWidth c = 2%Z)
  /\ (maxWidthInput_value (config p) = [] -> arg_maxWidth c = 80%Z)
  /\ (indentWidthInput_value (config p) = [] -> arg_indentWidth c = 2%Z)
  /\ arg_useTabs c = useTabsInput_checked (config p)
  /\ arg_trailingComma c = trailingCommaInput_checked (config p)
  /\ arg_source c = trim (inputEl_value p)
  /\ default_options
     = {| max_width := 80; indent_width := 2; use_tabs := false;
          trailing_comma := true |}
  /\ (0 < max_width default_options)%nat /\ (0 < indent_width default_options)%nat.
Proof.
  intros Hlog.
  assert (Hc : c = call_args (trim (inputEl_value p)) (config p)).
  { revert Hlog. unfold formatCode.
    destruct (wasmReady p); simpl.
    - destruct (truthy_string (trim (inputEl_value p))); simpl.
      + destruct (call _); simpl; intros H; apply app_inv_head in H;
          now inversion H.
      + intros H. rewrite <- (app_nil_r (ffi_log p)) in H at 1.
        apply app_inv_head in H. discriminate.
    - intros H. rewrite <- (app_nil_r (ffi_log p)) in H at 1.
      apply app_inv_head in H. discriminate. }
  subst c. simpl.
  assert (Hdefault : forall x d, number_or x 0 = 0%Z -> number_or x d = d).
  { intros [z|] d; simpl; [|reflexivity].
    destruct (z =? 0)%Z eqn:Hz; [reflexivity|].
    intros ->. discriminate. }
  repeat split; auto using Nat.lt_0_succ.
  - intros ->. reflexivity.
  - intros ->. reflexivity.
Qed.

End AppFacts.

(** C8: with every control empty and the boxes unticked, the call carries
    [trailingComma = false], not the default [true]. *)
Lemma option_defaults_counterexample :
  ~ substitutes_all_defaults echo_formatter
      (set_input (js "x") (set_wasmReady true fresh_page)).
Proof.
  intros H.
  destruct (H (call_args (js "x") blank_config) eq_refl) as (_ & _ & _ & Htc).
  specialize (Htc eq_refl). discriminate.
Qed.

Lemma option_defaults_witness :
  let p := set_input (js "x") (set_wasmReady true fresh_page) in
  let c := call_args (js "x") blank_config in
  arg_maxWidth c = 80%Z /\ arg_indentWidth c = 2%Z
  /\ arg_useTabs c = false /\ arg_trailingComma c = false.
Proof.
  intros p c.
  pose proof (@option_defaults echo_formatter p c eq_refl)
    as (_ & _ & Hw & Hi & Ht & Hc & _).
  split; [apply Hw; reflexivity|].
  split; [apply Hi; reflexivity|].
  split; [exact Ht | exact Hc].
Defined.

(** C9: before the module is ready an empty input shows the loading error
    instead of hiding it. *)
Lemma blank_input_counterexample :
  ~ (forall (fwo : jsstring -> Z -> Z -> bool -> bool -> outcome) (p : page),
       Forall (fun c => is_white_space c = true) (inputEl_value p) ->
       outputEl_value (formatCode fwo p) = []
       /\ errorEl_hidden (formatCode fwo p) = true
       /\ ffi_log (formatCode fwo p) = ffi_log p).
Proof.
  intros H.
  destruct (H echo_formatter fresh_page (Forall_nil _)) as (_ & Hhidden & _).
  discriminate.
Qed.

Lemma blank_input_witness :
  let p := set_input (js "  ") (set_wasmReady true fresh_page) in
  outputEl_value (formatCode echo_formatter p) = []
  /\ errorEl_hidden (formatCode echo_formatter p) = true
  /\ ffi_log (formatCode echo_formatter p) = ffi_log p.
Proof.
  intros p.
  apply (@blank_input_and_trimming echo_formatter p eq_refl).
  repeat constructor.
Defined.

Lemma error_and_output_exclusive_witness :
  let p := handle failing_formatter some_version EInitResolved
             (handle failing_formatter some_version (EType (js "1 +")) fresh_page) in
  errorEl_hidden (formatCode failing_formatter p) = false
  /\ outputEl_value (formatCode failing_formatter p) = [].
Proof.
  intros p.
  assert (Hreach : reachable failing_formatter some_version p).
  { do 2 apply reach_step. apply reach_load. repeat split. }
  pose proof (@error_and_output_exclusive failing_formatter some_version p Hreach)
    as (Hex & _).
  split; [reflexivity | apply Hex; reflexivity].
Defined.

(* ===================================================================== *)
(** * Properties of the formatting core                                  *)
(* ===================================================================== *)

Open Scope string_scope.

(** Induction over expressions that reaches the children held in options,
    lists and pairs. *)
Section ExprInduction.

Variable P : expr -> Prop.

Hypothesis P_Literal : forall l, P (Literal l).
Hypothesis P_Identifier : forall name, P (Identifier name).
Hypothesis P_Unary : forall op x, P x -> P (Unary op x).
Hypothesis P_Binary : forall op l r, P l -> P r -> P (Binary op l r).
Hypothesis P_Ternary : forall c t f, P c -> P t -> P f -> P (Ternary c t f).
Hypothesis P_Member : forall b field, P b -> P (Member b field).
Hypothesis P_Index : forall b k, P b -> P k -> P (Index b k).
Hypothesis P_Call : forall r fn args,
  (forall x, r = Some x -> P x) -> Forall P args -> P (Call r fn args).
Hypothesis P_ListLit : forall elems, Forall P elems -> P (ListLit elems).
Hypothesis P_MapLit : forall entries,
  Forall (fun kv => P (fst kv) /\ P (snd kv)) entries -> P (MapLit entries).
Hypothesis P_StructLit : forall t fields,
  Forall (fun kv => P (fst kv) /\ P (snd kv)) fields -> P (StructLit t fields).
Hypothesis P_Comprehension : forall v r i c s res,
  P r -> P i -> P c -> P s -> P res -> P (Comprehension v r i c s res).
Hypothesis P_Grouping : forall x, P x -> P (Grouping x).

Lemma expr_induction : forall e, P e.
Proof.
  fix IH 1. intros e.
  assert (IHlist : forall l : list expr, Forall P l).
  { fix IHl 1. intros [|x l]; constructor; [apply IH | apply IHl]. }
  assert (IHpairs : forall l : list (expr * expr),
             Forall (fun kv => P (fst kv) /\ P (snd kv)) l).
  { fix IHl 1. intros [|[k v] l]; constructor;
      [split; apply IH | apply IHl]. }
  destruct e.
  - apply P_Literal.
  - apply P_Identifier.
  - apply P_Unary, IH.
  - apply P_Binary; apply IH.
  - apply P_Ternary; apply IH.
  - apply P_Member, IH.
  - apply P_Index; apply IH.
  - apply P_Call; [|apply IHlist].
    destruct receiver as [x|]; intros y Hy; [|discriminate].
    assert (Hx : P x) by apply IH.
    congruence.
  - apply P_ListLit, IHlist.
  - apply P_MapLit, IHpairs.
  - apply P_StructLit, IHpairs.
  - apply P_Comprehension; apply IH.
  - apply P_Grouping, IH.
Qed.

End ExprInduction.

(** ** How the layout engine unfolds *)

Lemma render_eq o d e :
  render o d e =
    if fits o d (single_line e) then [{| depth := d; text := single_line e |}]
    else break_node o d e.
Proof. reflexivity. Qed.

Lemma render_fits o d e :
  fits o d (single_line e) = true ->
  render o d e = [{| depth := d; text := single_line e |}].
Proof. intros H. unfold render. now rewrite H. Qed.

Lemma render_breaks o d e :
  fits o d (single_line e) = false -> render o d e = break_node o d e.
Proof. intros H. unfold render. now rewrite H. Qed.

Lemma break_node_Binary o d op l r :
  break_node o d (Binary op l r) =
    (append_last (" " ++ binary_text op) (chain_left o d op l)
     ++ operand_lines o (S d) (binary_slot op RightOperand) r)%list.
Proof. destruct l; reflexivity. Qed.

Lemma break_node_ListLit o d x xs :
  break_node o d (ListLit (x :: xs)) =
    bracketed d "[" "]" (trailing_comma o) (map (render o (S d)) (x :: xs)).
Proof. reflexivity. Qed.

(** ** Lines are never lost *)

Lemma length_append_last suffix ls :
  List.length (append_last suffix ls) = List.length ls.
Proof.
  induction ls as [|l [|l' ls] IH]; simpl in *; auto.
Qed.

Lemma length_prepend_first prefix ls :
  List.length (prepend_first prefix ls) = List.length ls.
Proof. destruct ls; reflexivity. Qed.

Lemma length_wrap_if b ls : List.length (wrap_if b ls) = List.length ls.
Proof.
  destruct b; simpl; [|reflexivity].
  unfold wrap_parens. now rewrite length_append_last, length_prepend_first.
Qed.

Lemma append_last_app suffix a b :
  b <> [] -> append_last suffix (a ++ b)%list = (a ++ append_last suffix b)%list.
Proof.
  intros Hb. induction a as [|l a IH]; [reflexivity|].
  simpl. rewrite IH.
  destruct (a ++ b)%list eqn:E; [|reflexivity].
  apply app_eq_nil in E. destruct E. contradiction.
Qed.

Lemma nonempty_length (ls : list line) : ls <> [] <-> (0 < List.length ls)%nat.
Proof. destruct ls; simpl; split; intros; try congruence; try lia. Qed.

Lemma length_glue sep a b :
  a <> [] -> (0 < List.length (glue sep a b))%nat.
Proof.
  intros Ha. destruct b as [|f rest]; simpl.
  - now apply nonempty_length.
  - rewrite length_app, length_append_last.
    apply nonempty_length in Ha. lia.
Qed.

Lemma length_bracketed d opener closer tc groups :
  (2 <= List.length (bracketed d opener closer tc groups))%nat.
Proof. unfold bracketed. simpl. rewrite length_app. simpl. lia. Qed.

Lemma break_node_nonempty o e : forall d, (0 < List.length (break_node o d e))%nat.
Proof.
  assert (Hrender : forall x, (forall d, 0 < List.length (break_node o d x))%nat ->
            forall d, (0 < List.length (render o d x))%nat).
  { intros x Hx d. unfold render. destruct (fits o d (single_line x)); simpl; auto. }
  assert (Hoperand : forall x, (forall d, 0 < List.length (break_node o d x))%nat ->
            forall d s, (0 < List.length (operand_lines o d s x))%nat).
  { intros x Hx d s. unfold operand_lines. rewrite length_wrap_if. auto. }
  induction e using expr_induction; intros d.
  - simpl. lia.
  - simpl. lia.
  - change (0 < List.length (prepend_first (unary_text op)
                               (operand_lines o d (unary_slot op) e)))%nat.
    rewrite length_prepend_first. auto.
  - rewrite break_node_Binary, length_app.
    specialize (Hoperand _ IHe2 (S d) (binary_slot op RightOperand)). lia.
  - change (0 < List.length
              (operand_lines o d (ternary_slot Condition) e1
               ++ prepend_first "? " (operand_lines o (S d) (ternary_slot ThenBranch) e2)
               ++ prepend_first ": " (operand_lines o (S d) (ternary_slot ElseBranch) e3))%list)%nat.
    rewrite length_app. specialize (Hoperand _ IHe1 d (ternary_slot Condition)). lia.
  - change (0 < List.length (append_last ("." ++ field)
                               (operand_lines o d receiver_slot e)))%nat.
    rewrite length_append_last. auto.
  - change (0 < List.length (append_last "]"
              (glue "[" (operand_lines o d receiver_slot e1) (render o d e2))))%nat.
    rewrite length_append_last. apply length_glue.
    apply nonempty_length. auto.
  - destruct r as [x|].
    + destruct args as [|a args].
      * change (0 < List.length (append_last ("." ++ fn ++ "()")
                                   (operand_lines o d receiver_slot x)))%nat.
        rewrite length_append_last. apply Hoperand. eauto.
      * simpl.
        destruct (fits o d _).
        -- pose proof (length_bracketed d
                (paren_if (needs_parens x receiver_slot) (single_line x)
                 ++ "." ++ fn ++ "(") ")" (trailing_comma o)
                (map (render o (S d)) (a :: args))) as Hb.
           unfold render in Hb. simpl in Hb. simpl. lia.
        -- rewrite length_app.
           assert (Hx : (0 < List.length (operand_lines o d receiver_slot x))%nat)
             by (apply Hoperand; eauto).
           unfold operand_lines, render in Hx. lia.
    + destruct args as [|a args]; [simpl; lia|].
      pose proof (length_bracketed d (fn ++ "(") ")" (trailing_comma o)
                    (map (render o (S d)) (a :: args))) as Hb.
      unfold render in Hb. simpl in Hb. simpl. lia.
  - destruct elems as [|a elems]; [simpl; lia|].
    rewrite break_node_ListLit.
    pose proof (length_bracketed d "[" "]" (trailing_comma o)
                  (map (render o (S d)) (a :: elems))). lia.
  - destruct entries as [|a entries]; [simpl; lia|].
    pose proof (length_bracketed d "{" "}" (trailing_comma o)
                  (map (entry_lines o (S d)) (a :: entries))) as Hb.
    unfold entry_lines, render in Hb. simpl in Hb. simpl. lia.
  - destruct fields as [|a fields]; [simpl; lia|].
    pose proof (length_bracketed d (type_prefix t ++ "{") "}" (trailing_comma o)
                  (map (entry_lines o (S d)) (a :: fields))) as Hb.
    unfold entry_lines, render in Hb. simpl in Hb. simpl. lia.
  - simpl. lia.
  - change (0 < List.length (wrap_parens (render o d e)))%nat.
    unfold wrap_parens. rewrite length_append_last, length_prepend_first. auto.
Qed.

Lemma render_nonempty o d e : (0 < List.length (render o d e))%nat.
Proof.
  unfold render. destruct (fits o d (single_line e)); simpl; [lia|].
  apply break_node_nonempty.
Qed.


(** ** Binary chains *)











(** ** Parentheses *)

Lemma needs_parens_rung op1 op2 b c :
  needs_parens (Binary op2 b c) (binary_slot op1 RightOperand)
  = right_operand_wraps op1 op2.
Proof. destruct op1, op2; reflexivity. Qed.

Lemma single_line_Binary op l r :
  single_line (Binary op l r)
  = paren_if (needs_parens l (binary_slot op LeftOperand)) (single_line l)
    ++ " " ++ binary_text op ++ " "
    ++ paren_if (needs_parens r (binary_slot op RightOperand)) (single_line r).
Proof. reflexivity. Qed.

(** ** Separators *)

Lemma append_last_snoc suffix init l :
  append_last suffix (init ++ [l])%list
  = (init ++ [{| depth := depth l; text := text l ++ suffix |}])%list.
Proof.
  rewrite append_last_app by discriminate. reflexivity.
Qed.

Lemma split_last (ls : list line) :
  ls <> [] -> exists init l, ls = (init ++ [l])%list.
Proof.
  intros H. destruct (exists_last H) as (init & l & ->). eauto.
Qed.

(** C5.  A list of three elements that fits on one line is the plain
    single-line form whatever trailing_comma says; a list that does not fit
    is laid out one element per line between the brackets, and the last
    line of its last element ends with a comma when trailing_comma is set
    and is left as it is otherwise. *)
Theorem trailing_comma_toggle (o : FormatOptions) (d : nat) (a b c : expr) :
  let e := ListLit [a; b; c] in
  (fits o d (single_line e) = true ->
     render o d e
     = [{| depth := d;
           text := "[" ++ (single_line a ++ ", " ++ single_line b ++ ", "
                           ++ single_line c) ++ "]" |}])
  /\ (fits o d (single_line e) = false ->
      render o d e
      = ({| depth := d; text := "[" |}
         :: append_last "," (render o (S d) a)
         ++ append_last "," (render o (S d) b)
         ++ (if trailing_comma o then append_last "," (render o (S d) c)
             else render o (S d) c)
         ++ [{| depth := d; text := "]" |}])%list
      /\ (1 < List.length (render o d e))%nat
      /\ exists before init last_line,
           render o (S d) c = (init ++ [last_line])%list
           /\ render o d e
              = (before
                 ++ [{| depth := depth last_line;
                        text := if trailing_comma o then text last_line ++ ","
                                else text last_line |};
                     {| depth := d; text := "]" |}])%list).
Proof.
  intros e. split; intros Hfit.
  - rewrite render_fits by assumption. reflexivity.
  - rewrite render_breaks by assumption. subst e.
    rewrite break_node_ListLit. unfold bracketed. simpl separated.
    rewrite <- !app_assoc.
    split; [reflexivity|]. split.
    + simpl. rewrite !length_app. simpl. lia.
    + destruct (@split_last (render o (S d) c)) as (init & last_line & Hc).
      { apply nonempty_length, render_nonempty. }
      exists ({| depth := d; text := "[" |}
              :: append_last "," (render o (S d) a)
              ++ append_last "," (render o (S d) b) ++ init)%list,
             init, last_line.
      split; [exact Hc|]. rewrite Hc.
      destruct (trailing_comma o).
      * rewrite append_last_snoc. simpl. now rewrite <- !app_assoc.
      * destruct last_line. simpl. now rewrite <- !app_assoc.
Qed.

(* ===================================================================== *)
(** * The lexer                                                          *)
(* ===================================================================== *)

Lemma span_spec p s :
  s = fst (span p s) ++ snd (span p s)
  /\ all_chars p (fst (span p s)) = true
  /\ match snd (span p s) with
     | String c _ => p c = false
     | EmptyString => True
     end.
Proof.
  induction s as [|c s IH]; simpl; [auto|].
  destruct (p c) eqn:Hc.
  - destruct (span p s) as [a b]. simpl in *.
    destruct IH as (-> & Ha & Hb). rewrite Hc. auto.
  - simpl. rewrite Hc. auto.
Qed.

Lemma span_length p s : (String.length (snd (span p s)) <= String.length s)%nat.
Proof.
  induction s as [|c s IH]; simpl; [lia|].
  destruct (p c); [|simpl; lia].
  destruct (span p s). simpl in *. lia.
Qed.

Lemma read_string_length_bounded n : forall s v rest,
  (String.length s <= n)%nat ->
  read_string s = Some (v, rest) -> (String.length rest < String.length s)%nat.
Proof.
  induction n as [|n IH]; intros [|c s] v rest Hn; simpl in *;
    try discriminate; try lia.
  destruct (nat_of_ascii c =? 34)%nat; [intros H; inversion H; subst; lia|].
  destruct (nat_of_ascii c =? 10)%nat; [discriminate|].
  destruct (nat_of_ascii c =? 92)%nat.
  - destruct s as [|e s]; [discriminate|].
    destruct (unescape e); [|discriminate].
    destruct (read_string s) as [[v' rest']|] eqn:E; [|discriminate].
    intros H. inversion H; subst.
    apply IH in E; simpl in *; lia.
  - destruct (read_string s) as [[v' rest']|] eqn:E; [|discriminate].
    intros H. inversion H; subst.
    apply IH in E; simpl in *; lia.
Qed.

Lemma read_string_length s v rest :
  read_string s = Some (v, rest) -> (String.length rest < String.length s)%nat.
Proof. apply (@read_string_length_bounded (String.length s)). lia. Qed.

Lemma span_cons p c rest :
  p c = true ->
  span p (String c rest) = (String c (fst (span p rest)), snd (span p rest)).
Proof. intros H. simpl. rewrite H. destruct (span p rest); reflexivity. Qed.

Lemma is_ident_start_char c : is_ident_start c = true -> is_ident_char c = true.
Proof. intros H. unfold is_ident_char. now rewrite H. Qed.

Lemma number_token_length digits rest :
  (String.length (snd (number_token digits rest)) <= String.length rest)%nat.
Proof.
  unfold number_token.
  destruct rest as [|c rest]; simpl; [lia|].
  destruct c as [[] [] [] [] [] [] [] []]; simpl; try lia.
  pose proof (span_length is_digit rest).
  destruct (span is_digit rest) as [[|f fs] b]; simpl in *; lia.
Qed.

Lemma symbol_token_length c rest t rest' :
  symbol_token c rest = Some (t, rest') ->
  (String.length rest' <= String.length rest)%nat.
Proof.
  unfold symbol_token.
  destruct c as [[] [] [] [] [] [] [] []]; try discriminate;
    try (intros H; inversion H; subst; lia);
    destruct rest as [|[[] [] [] [] [] [] [] []] rest]; try discriminate;
    intros H; inversion H; subst; simpl; lia.
Qed.

Lemma next_token_length c rest t rest' :
  next_token c rest = Some (t, rest') ->
  (String.length rest' <= String.length rest)%nat.
Proof.
  unfold next_token.
  destruct (is_digit c) eqn:Hd.
  - rewrite span_cons by assumption.
    pose proof (span_length is_digit rest) as Hs.
    pose proof (number_token_length (String c (fst (span is_digit rest)))
                  (snd (span is_digit rest))) as Hn.
    destruct (number_token _ _) as [t0 r0]. simpl in Hn.
    intros H. inversion H; subst. lia.
  - destruct (is_ident_start c) eqn:Hi.
    + rewrite span_cons by now apply is_ident_start_char.
      pose proof (span_length is_ident_char rest) as Hs.
      destruct (_ && starts_with_quote _).
      * destruct (snd (span is_ident_char rest)) as [|q body];
          [discriminate|].
        destruct (read_string body) as [[v r]|] eqn:E; [|discriminate].
        apply read_string_length in E.
        intros H. inversion H; subst. simpl in *. lia.
      * intros H. inversion H; subst. lia.
    + destruct (nat_of_ascii c =? 34)%nat.
      * destruct (read_string rest) as [[v r]|] eqn:E; [|discriminate].
        apply read_string_length in E.
        intros H. inversion H; subst. lia.
      * apply symbol_token_length.
Qed.

Lemma lex_fuel_stable n : forall m s,
  (String.length s < n)%nat -> (String.length s < m)%nat ->
  lex_fuel n s = lex_fuel m s.
Proof.
  induction n as [|n IH]; intros [|m] s Hn Hm; try lia.
  destruct s as [|c rest]; [reflexivity|]. simpl in *.
  destruct (is_space c); [apply IH; lia|].
  destruct (next_token c rest) as [[t rest']|] eqn:E; [|reflexivity].
  apply next_token_length in E.
  rewrite (IH m rest') by lia. reflexivity.
Qed.

(** One step of the lexer. *)
Lemma lex_cons c rest :
  lex (String c rest) =
    if is_space c then lex rest
    else match next_token c rest with
         | Some (t, rest') =>
             match lex rest' with
             | Some ts => Some (t :: ts)
             | None => None
             end
         | None => None
         end.
Proof.
  unfold lex.
  change (lex_fuel (S (String.length (String c rest))) (String c rest))
    with (if is_space c then lex_fuel (S (String.length rest)) rest
          else match next_token c rest with
               | Some (t, rest') =>
                   match lex_fuel (S (String.length rest)) rest' with
                   | Some ts => Some (t :: ts)
                   | None => None
                   end
               | None => None
               end).
  destruct (is_space c); [reflexivity|].
  destruct (next_token c rest) as [[t rest']|] eqn:E; [|reflexivity].
  apply next_token_length in E.
  rewrite (@lex_fuel_stable _ (S (String.length rest')) rest') by lia.
  reflexivity.
Qed.

Lemma lex_empty : lex "" = Some [].
Proof. reflexivity. Qed.

(** Every token the lexer produces is well formed. *)
Lemma next_token_ok c rest t rest' :
  next_token c rest = Some (t, rest') -> token_ok t = true.
Proof.
  unfold next_token.
  destruct (is_digit c) eqn:Hd.
  - rewrite span_cons by assumption.
    unfold number_token.
    destruct (snd (span is_digit rest)) as [|x b];
      [intros H; inversion H; reflexivity|].
    destruct x as [[] [] [] [] [] [] [] []];
      try (intros H; inversion H; reflexivity).
    pose proof (span_spec is_digit b) as (_ & Hall & _).
    destruct (span is_digit b) as [[|f fs] b']; intros H; inversion H;
      [reflexivity|]. simpl in *. exact Hall.
  - destruct (is_ident_start c) eqn:Hi.
    + rewrite span_cons by now apply is_ident_start_char.
      pose proof (span_spec is_ident_char rest) as (_ & Hall & _).
      destruct (_ && starts_with_quote _).
      * destruct (snd (span is_ident_char rest)) as [|q body];
          [discriminate|].
        destruct (read_string body) as [[v r]|]; [|discriminate].
        intros H. inversion H. reflexivity.
      * intros H. inversion H. simpl. now rewrite Hi, Hall.
    + destruct (nat_of_ascii c =? 34)%nat.
      * destruct (read_string rest) as [[v r]|]; [|discriminate].
        intros H. inversion H. reflexivity.
      * unfold symbol_token.
        destruct c as [[] [] [] [] [] [] [] []]; try discriminate;
          try (intros H; inversion H; reflexivity);
          destruct rest as [|[[] [] [] [] [] [] [] []] rest];
          try discriminate; intros H; inversion H; reflexivity.
Qed.

Lemma lex_ok_bounded n : forall s ts,
  (String.length s <= n)%nat -> lex s = Some ts -> forallb token_ok ts = true.
Proof.
  induction n as [|n IH]; intros [|c rest] ts Hn; simpl in Hn; try lia.
  - intros H. inversion H. reflexivity.
  - intros H. inversion H. reflexivity.
  - rewrite lex_cons. destruct (is_space c); [apply IH; lia|].
    destruct (next_token c rest) as [[t rest']|] eqn:E; [|discriminate].
    pose proof (next_token_length _ _ E) as Hlen.
    destruct (lex rest') as [ts'|] eqn:E'; [|discriminate].
    intros H. inversion H; subst. simpl.
    rewrite (next_token_ok _ _ E). apply (IH rest'); [lia|assumption].
Qed.

Lemma lex_ok s ts : lex s = Some ts -> forallb token_ok ts = true.
Proof. apply (@lex_ok_bounded (String.length s)). lia. Qed.

(* ===================================================================== *)
(** * The parser produces well-formed trees                              *)
(* ===================================================================== *)

(** ** One step of each parsing function *)

Lemma parse_expr_S f ts :
  parse_expr (S f) ts =
    match parse_binary f 2 ts with
    | Some (c, TQuestion :: rest) =>
        match parse_binary f 2 rest with
        | Some (t, TColon :: rest') =>
            match parse_expr f rest' with
            | Some (e, rest'') => Some (Ternary c t e, rest'')
            | None => None
            end
        | _ => None
        end
    | other => other
    end.
Proof. reflexivity. Qed.

Lemma parse_binary_S f lvl ts :
  parse_binary (S f) lvl ts =
    if (8 <? lvl)%nat then parse_unary f ts
    else match parse_binary f (S lvl) ts with
         | Some (l, rest) => parse_binary_rest f lvl l rest
         | None => None
         end.
Proof. reflexivity. Qed.

Lemma parse_binary_rest_S f lvl lhs ts :
  parse_binary_rest (S f) lvl lhs ts =
    match ts with
    | t :: rest =>
        match binop_of_token t with
        | Some op =>
            if (binding_strength (KBinary op) =? lvl)%nat then
              match parse_binary f (S lvl) rest with
              | Some (r, rest') => parse_binary_rest f lvl (Binary op lhs r) rest'
              | None => None
              end
            else Some (lhs, ts)
        | None => Some (lhs, ts)
        end
    | [] => Some (lhs, ts)
    end.
Proof. reflexivity. Qed.

Lemma parse_unary_S f ts :
  parse_unary (S f) ts =
    match ts with
    | TBang :: rest =>
        match parse_unary f rest with
        | Some (x, rest') => Some (Unary Not x, rest')
        | None => None
        end
    | TMinus :: rest =>
        match parse_unary f rest with
        | Some (x, rest') => Some (Unary Neg x, rest')
        | None => None
        end
    | _ =>
        match parse_primary f ts with
        | Some (b, rest) => parse_postfix_rest f b rest
        | None => None
        end
    end.
Proof. reflexivity. Qed.

Lemma parse_postfix_rest_S f b ts :
  parse_postfix_rest (S f) b ts =
    match ts with
    | TDot :: TIdent name :: TLParen :: rest =>
        match parse_items f Round rest with
        | Some (args, rest') => parse_postfix_rest f (method_call b name args) rest'
        | None => None
        end
    | TDot :: TIdent name :: rest => parse_postfix_rest f (Member b name) rest
    | TLBrack :: rest =>
        match parse_expr f rest with
        | Some (k, TRBrack :: rest') => parse_postfix_rest f (Index b k) rest'
        | _ => None
        end
    | _ => Some (b, ts)
    end.
Proof. reflexivity. Qed.

Lemma parse_primary_S f ts :
  parse_primary (S f) ts =
    match ts with
    | TIdent name :: TLParen :: rest =>
        if keyword name then None
        else
          match parse_items f Round rest with
          | Some (args, rest') => Some (Call None name args, rest')
          | None => None
          end
    | TIdent name :: TLBrace :: rest =>
        if keyword name then None
        else
          match parse_entries f rest with
          | Some (fields, rest') => Some (StructLit (Some name) fields, rest')
          | None => None
          end
    | TIdent name :: rest =>
        match atom_of_ident name with
        | Some a => Some (a, rest)
        | None => None
        end
    | TInt n :: rest => Some (Literal (LInt (Z.of_N n)), rest)
    | TUInt n :: rest => Some (Literal (LUInt n), rest)
    | TFloat w fr :: rest => Some (Literal (LFloat w fr), rest)
    | TString s :: rest => Some (Literal (LString s), rest)
    | TBytes s :: rest => Some (Literal (LBytes s), rest)
    | TLParen :: rest =>
        match parse_expr f rest with
        | Some (x, TRParen :: rest') => Some (Grouping x, rest')
        | _ => None
        end
    | TLBrack :: rest =>
        match parse_items f Square rest with
        | Some (elems, rest') => Some (ListLit elems, rest')
        | None => None
        end
    | TLBrace :: rest =>
        match parse_entries f rest with
        | Some (entries, rest') => Some (MapLit entries, rest')
        | None => None
        end
    | _ => None
    end.
Proof. reflexivity. Qed.

Lemma parse_items_S f b ts :
  parse_items (S f) b ts =
    match ts with
    | [] => None
    | t :: rest =>
        if closes b t then Some ([], rest)
        else
          match parse_expr f ts with
          | Some (x, TComma :: rest') =>
              match parse_items f b rest' with
              | Some (xs, rest'') => Some (x :: xs, rest'')
              | None => None
              end
          | Some (x, t' :: rest') =>
              if closes b t' then Some ([x], rest') else None
          | _ => None
          end
    end.
Proof. reflexivity. Qed.

Lemma parse_entries_S f ts :
  parse_entries (S f) ts =
    match ts with
    | [] => None
    | TRBrace :: rest => Some ([], rest)
    | _ =>
        match parse_expr f ts with
        | Some (k, TColon :: rest1) =>
            match parse_expr f rest1 with
            | Some (v, TComma :: rest2) =>
                match parse_entries f rest2 with
                | Some (kvs, rest3) => Some ((k, v) :: kvs, rest3)
                | None => None
                end
            | Some (v, TRBrace :: rest2) => Some ([(k, v)], rest2)
            | _ => None
            end
        | _ => None
        end
    end.
Proof. reflexivity. Qed.

Lemma level_ge_1 e : (1 <= level e)%nat.
Proof.
  unfold level. destruct e; simpl; try lia;
    match goal with op : binary_op |- _ => destruct op; simpl; lia end.
Qed.

Lemma no_parens_left op l :
  (binding_strength (KBinary op) <= level l)%nat ->
  needs_parens l (binary_slot op LeftOperand) = false.
Proof.
  unfold needs_parens, level. simpl. intros H.
  rewrite andb_false_r, orb_false_r. apply Nat.ltb_ge. exact H.
Qed.

Lemma no_parens_right op r :
  (S (binding_strength (KBinary op)) <= level r)%nat ->
  needs_parens r (binary_slot op RightOperand) = false.
Proof.
  unfold needs_parens, level. simpl. intros H.
  apply orb_false_iff. split; [apply Nat.ltb_ge; lia|].
  apply andb_false_iff. left. apply Nat.eqb_neq. lia.
Qed.

Lemma no_parens_unary op x :
  (9 <= level x)%nat -> needs_parens x (unary_slot op) = false.
Proof.
  unfold needs_parens, level. simpl. intros H.
  rewrite andb_false_r, orb_false_r. apply Nat.ltb_ge. exact H.
Qed.

Lemma no_parens_receiver b :
  (10 <= level b)%nat -> needs_parens b receiver_slot = false.
Proof.
  unfold needs_parens, level. simpl. intros H.
  rewrite andb_false_r, orb_false_r. apply Nat.ltb_ge. exact H.
Qed.

Lemma no_parens_branch p x :
  (2 <= level x)%nat -> needs_parens x (ternary_slot p) = false.
Proof.
  unfold needs_parens, level. simpl. intros H.
  apply orb_false_iff. split; [apply Nat.ltb_ge; lia|].
  apply andb_false_iff. left. apply Nat.eqb_neq. lia.
Qed.

Lemma no_parens_else x : needs_parens x (ternary_slot ElseBranch) = false.
Proof.
  unfold needs_parens. simpl.
  rewrite andb_false_r, orb_false_r. apply Nat.ltb_ge. apply level_ge_1.
Qed.

Lemma tokens_ok_cons t ts :
  tokens_ok (t :: ts) <-> token_ok t = true /\ tokens_ok ts.
Proof. unfold tokens_ok. simpl. apply andb_true_iff. Qed.

Lemma tokens_ok_tail t ts : tokens_ok (t :: ts) -> tokens_ok ts.
Proof. intros H. now apply tokens_ok_cons in H. Qed.

Lemma expand_macro_comprehension b fn args c :
  expand_macro b fn args = Some c -> wf c = true /\ level c = 11%nat.
Proof.
  unfold expand_macro.
  destruct args as [|[] [|body []]]; try discriminate.
  destruct (fn =? "all"); [intros H; inversion H; auto|].
  destruct (fn =? "exists"); [intros H; inversion H; auto|].
  destruct (fn =? "map"); [intros H; inversion H; auto|].
  destruct (fn =? "filter"); [intros H; inversion H; auto|].
  discriminate.
Qed.

Lemma method_call_wf b fn args :
  wf b = true -> (10 <= level b)%nat -> ident_ok fn = true ->
  forallb wf args = true ->
  wf (method_call b fn args) = true /\ (10 <= level (method_call b fn args))%nat.
Proof.
  intros Hb Hl Hfn Hargs. unfold method_call.
  destruct (expand_macro b fn args) as [c|] eqn:E.
  - apply expand_macro_comprehension in E as [-> ->]. split; [reflexivity|lia].
  - split; [|unfold level; simpl; lia].
    simpl. rewrite Hb, Hfn, Hargs, E, no_parens_receiver by assumption.
    reflexivity.
Qed.

Ltac split_ok H :=
  repeat match type of H with
         | tokens_ok (_ :: _) =>
             let Ht := fresh "Htok" in
             apply tokens_ok_cons in H; destruct H as [Ht H]
         end.

Lemma parser_sound_step f : parser_sound_at f -> parser_sound_at (S f).
Proof.
  intros (IHe & IHb & IHr & IHu & IHp & IHa & IHi & IHn).
  unfold parser_sound_at. repeat apply conj.
  - (* parse_expr *)
    intros ts e rest H Hts. rewrite parse_expr_S in H.
    destruct (parse_binary f 2 ts) as [[c l]|] eqn:Ec; [|discriminate].
    destruct (IHb _ _ _ _ Ec Hts) as (Hc & Hlc & Hl). simpl in Hlc.
    assert (Hdefault : Some (c, l) = Some (e, rest) -> wf e = true /\ tokens_ok rest)
      by (intros H'; inversion H'; subst; auto).
    destruct l as [|t l]; [auto|].
    destruct t; auto.
    destruct (parse_binary f 2 l) as [[t l']|] eqn:Et; [|discriminate].
    apply tokens_ok_tail in Hl.
    destruct (IHb _ _ _ _ Et Hl) as (Ht & Hlt & Hl'). simpl in Hlt.
    destruct l' as [|t' l']; [discriminate|].
    destruct t'; try discriminate.
    destruct (parse_expr f l') as [[x l'']|] eqn:Ex; [|discriminate].
    apply tokens_ok_tail in Hl'.
    destruct (IHe _ _ _ Ex Hl') as (Hx & Hl'').
    inversion H; subst. split; [|assumption].
    simpl. rewrite Hc, Ht, Hx, !no_parens_branch, no_parens_else by assumption.
    reflexivity.
  - (* parse_binary *)
    intros lvl ts e rest H Hts. rewrite parse_binary_S in H.
    destruct (8 <? lvl)%nat eqn:Hlvl.
    + apply Nat.ltb_lt in Hlvl.
      destruct (IHu _ _ _ H Hts) as (He & Hle & Hrest).
      repeat split; auto; lia.
    + apply Nat.ltb_ge in Hlvl.
      destruct (parse_binary f (S lvl) ts) as [[l r]|] eqn:El; [|discriminate].
      destruct (IHb _ _ _ _ El Hts) as (Hl & Hll & Hr).
      destruct (IHr _ _ _ _ _ H Hl ltac:(lia) Hr) as (He & Hle & Hrest).
      repeat split; auto; lia.
  - (* parse_binary_rest *)
    intros lvl lhs ts e rest H Hlhs Hlvl Hts. rewrite parse_binary_rest_S in H.
    assert (Hdefault : Some (lhs, ts) = Some (e, rest) ->
              wf e = true /\ (lvl <= level e)%nat /\ tokens_ok rest)
      by (intros H'; inversion H'; subst; auto).
    destruct ts as [|t ts]; [auto|].
    destruct (binop_of_token t) as [op|] eqn:Eop; [|auto].
    destruct (binding_strength (KBinary op) =? lvl)%nat eqn:Es; [|auto].
    apply Nat.eqb_eq in Es.
    destruct (parse_binary f (S lvl) ts) as [[r ts']|] eqn:Er; [|discriminate].
    apply tokens_ok_tail in Hts.
    destruct (IHb _ _ _ _ Er Hts) as (Hr & Hlr & Hts').
    assert (Hlvl8 : (lvl <= 8)%nat) by (subst lvl; destruct op; simpl; lia).
    apply (IHr _ _ _ _ _ H); auto.
    + simpl. rewrite Hlhs, Hr.
      rewrite no_parens_left, no_parens_right by lia. reflexivity.
    + unfold level. simpl kind_of. lia.
  - (* parse_unary *)
    intros ts e rest H Hts. rewrite parse_unary_S in H.
    assert (Hdefault :
      match parse_primary f ts with
      | Some (b, rest0) => parse_postfix_rest f b rest0
      | None => None
      end = Some (e, rest) ->
      wf e = true /\ (9 <= level e)%nat /\ tokens_ok rest).
    { intros H'.
      destruct (parse_primary f ts) as [[b r]|] eqn:Eb; [|discriminate].
      destruct (IHa _ _ _ Eb Hts) as (Hb & Hlb & Hr).
      destruct (IHp _ _ _ _ H' Hb Hlb Hr) as (He & Hle & Hrest).
      repeat split; auto; lia. }
    destruct ts as [|t ts]; [auto|].
    destruct t; auto.
    + destruct (parse_unary f ts) as [[x r]|] eqn:Ex; [|discriminate].
      apply tokens_ok_tail in Hts.
      destruct (IHu _ _ _ Ex Hts) as (Hx & Hlx & Hr).
      inversion H; subst. repeat split; auto.
      simpl. now rewrite Hx, no_parens_unary.
    + destruct (parse_unary f ts) as [[x r]|] eqn:Ex; [|discriminate].
      apply tokens_ok_tail in Hts.
      destruct (IHu _ _ _ Ex Hts) as (Hx & Hlx & Hr).
      inversion H; subst. repeat split; auto.
      simpl. now rewrite Hx, no_parens_unary.
  - (* parse_postfix_rest *)
    intros b ts e rest H Hb Hlb Hts. rewrite parse_postfix_rest_S in H.
    assert (Hdefault : Some (b, ts) = Some (e, rest) ->
              wf e = true /\ (10 <= level e)%nat /\ tokens_ok rest)
      by (intros H'; inversion H'; subst; auto).
    destruct ts as [|t ts]; [auto|].
    destruct t; auto.
    + (* TLBrack *)
      destruct (parse_expr f ts) as [[k r]|] eqn:Ek; [|discriminate].
      apply tokens_ok_tail in Hts.
      destruct (IHe _ _ _ Ek Hts) as (Hk & Hr).
      destruct r as [|t r]; [discriminate|].
      destruct t; try discriminate.
      apply tokens_ok_tail in Hr.
      apply (IHp _ _ _ _ H); auto.
      simpl. now rewrite Hb, Hk, no_parens_receiver.
    + (* TDot *)
      destruct ts as [|t ts]; [auto|].
      destruct t; auto.
      split_ok Hts.
      assert (Hmember : parse_postfix_rest f (Member b name) ts = Some (e, rest) ->
                wf e = true /\ (10 <= level e)%nat /\ tokens_ok rest).
      { intros H'. apply (IHp _ _ _ _ H'); auto.
        simpl. simpl in Htok0. now rewrite Hb, Htok0, no_parens_receiver. }
      destruct ts as [|t ts]; [auto|].
      destruct t; auto.
      destruct (parse_items f Round ts) as [[args r]|] eqn:Ei; [|discriminate].
      apply tokens_ok_tail in Hts.
      destruct (IHi _ _ _ _ Ei Hts) as (Hargs & Hr).
      destruct (@method_call_wf b name args) as (Hm & Hlm); auto.
      apply (IHp _ _ _ _ H); auto.
  - (* parse_primary *)
    intros ts e rest H Hts. rewrite parse_primary_S in H.
    destruct ts as [|t ts]; [discriminate|].
    split_ok Hts.
    destruct t; try discriminate;
      try (inversion H; subst; repeat split; auto;
           unfold level; simpl; lia).
    + (* TIdent *)
      simpl in Htok.
      assert (Hatom : match atom_of_ident name with
                      | Some a => Some (a, ts)
                      | None => None
                      end = Some (e, rest) ->
                wf e = true /\ (10 <= level e)%nat /\ tokens_ok rest).
      { unfold atom_of_ident.
        destruct (name =? "true") eqn:E1;
          [intros H'; inversion H'; subst; repeat split; auto;
           unfold level; simpl; lia|].
        destruct (name =? "false") eqn:E2;
          [intros H'; inversion H'; subst; repeat split; auto;
           unfold level; simpl; lia|].
        destruct (name =? "null") eqn:E3;
          [intros H'; inversion H'; subst; repeat split; auto;
           unfold level; simpl; lia|].
        destruct (name =? "in") eqn:E4; [discriminate|].
        intros H'; inversion H'; subst.
        split; [|split; [unfold level; simpl; lia|assumption]].
        simpl. unfold plain_name, keyword. now rewrite Htok, E1, E2, E3, E4. }
      destruct ts as [|t ts]; [auto|].
      destruct t; auto.
      * destruct (keyword name) eqn:Ek; [discriminate|].
        destruct (parse_items f Round ts) as [[args r]|] eqn:Ei; [|discriminate].
        apply tokens_ok_tail in Hts.
        destruct (IHi _ _ _ _ Ei Hts) as (Hargs & Hr).
        inversion H; subst.
        split; [|split; [unfold level; simpl; lia|assumption]].
        simpl. unfold plain_name. now rewrite Htok, Ek, Hargs.
      * destruct (keyword name) eqn:Ek; [discriminate|].
        destruct (parse_entries f ts) as [[fields r]|] eqn:Ei; [|discriminate].
        apply tokens_ok_tail in Hts.
        destruct (IHn _ _ _ Ei Hts) as (Hfields & Hr).
        inversion H; subst.
        split; [|split; [unfold level; simpl; lia|assumption]].
        simpl. unfold plain_name. rewrite Htok, Ek. exact Hfields.
    + (* TInt *)
      inversion H; subst.
      split; [|split; [unfold level; simpl; lia|assumption]].
      simpl. apply Z.leb_le. lia.
    + (* TLParen *)
      destruct (parse_expr f ts) as [[x r]|] eqn:Ex; [|discriminate].
      destruct (IHe _ _ _ Ex Hts) as (Hx & Hr).
      destruct r as [|t r]; [discriminate|].
      destruct t; try discriminate.
      apply tokens_ok_tail in Hr.
      inversion H; subst.
      split; [assumption|split; [unfold level; simpl; lia|assumption]].
    + (* TLBrack *)
      destruct (parse_items f Square ts) as [[xs r]|] eqn:Ei; [|discriminate].
      destruct (IHi _ _ _ _ Ei Hts) as (Hxs & Hr).
      inversion H; subst.
      split; [assumption|split; [unfold level; simpl; lia|assumption]].
    + (* TLBrace *)
      destruct (parse_entries f ts) as [[kvs r]|] eqn:Ei; [|discriminate].
      destruct (IHn _ _ _ Ei Hts) as (Hkvs & Hr).
      inversion H; subst.
      split; [assumption|split; [unfold level; simpl; lia|assumption]].
  - (* parse_items *)
    intros b ts xs rest H Hts. rewrite parse_items_S in H.
    destruct ts as [|t ts]; [discriminate|].
    destruct (closes b t).
    { inversion H; subst. split; [reflexivity|]. now apply tokens_ok_tail in Hts. }
    destruct (parse_expr f (t :: ts)) as [[x r]|] eqn:Ex; [|discriminate].
    destruct (IHe _ _ _ Ex Hts) as (Hx & Hr).
    destruct r as [|t' r]; [discriminate|].
    apply tokens_ok_tail in Hr.
    assert (Hclose : (if closes b t' then Some ([x], r) else None)
                     = Some (xs, rest) ->
              forallb wf xs = true /\ tokens_ok rest).
    { destruct (closes b t'); [|discriminate].
      intros H'. inversion H'; subst. simpl. now rewrite Hx. }
    destruct t'; auto.
    destruct (parse_items f b r) as [[xs' r']|] eqn:Ei; [|discriminate].
    destruct (IHi _ _ _ _ Ei Hr) as (Hxs & Hr').
    inversion H; subst. simpl. now rewrite Hx, Hxs.
  - (* parse_entries *)
    intros ts kvs rest H Hts. rewrite parse_entries_S in H.
    destruct ts as [|t ts]; [discriminate|].
    assert (Hentry :
      match parse_expr f (t :: ts) with
      | Some (k, TColon :: rest1) =>
          match parse_expr f rest1 with
          | Some (v, TComma :: rest2) =>
              match parse_entries f rest2 with
              | Some (kvs, rest3) => Some ((k, v) :: kvs, rest3)
              | None => None
              end
          | Some (v, TRBrace :: rest2) => Some ([(k, v)], rest2)
          | _ => None
          end
      | _ => None
      end = Some (kvs, rest) ->
      forallb pair_wf kvs = true /\ tokens_ok rest).
    { clear H. intros H.
      destruct (parse_expr f (t :: ts)) as [[k r]|] eqn:Ek; [|discriminate].
      destruct (IHe _ _ _ Ek Hts) as (Hk & Hr).
      destruct r as [|t' r]; [discriminate|].
      destruct t'; try discriminate.
      apply tokens_ok_tail in Hr.
      destruct (parse_expr f r) as [[v r']|] eqn:Ev; [|discriminate].
      destruct (IHe _ _ _ Ev Hr) as (Hv & Hr').
      destruct r' as [|t' r']; [discriminate|].
      apply tokens_ok_tail in Hr'.
      destruct t'; try discriminate.
      - inversion H; subst. simpl. unfold pair_wf. simpl. now rewrite Hk, Hv.
      - destruct (parse_entries f r') as [[kvs' r'']|] eqn:En; [|discriminate].
        destruct (IHn _ _ _ En Hr') as (Hkvs & Hr'').
        inversion H; subst. simpl. unfold pair_wf at 1. simpl.
        now rewrite Hk, Hv, Hkvs. }
    destruct t; auto.
    inversion H; subst. split; [reflexivity|]. now apply tokens_ok_tail in Hts.
Qed.

Lemma parser_sound f : parser_sound_at f.
Proof.
  induction f as [|f IH]; [|now apply parser_sound_step].
  unfold parser_sound_at. repeat apply conj; intros; discriminate.
Qed.

Lemma parse_tokens_wf ts e :
  tokens_ok ts -> parse_tokens ts = Some e -> wf e = true.
Proof.
  unfold parse_tokens. intros Hts.
  destruct (parse_expr (parse_fuel ts) ts) as [[x [|t r]]|] eqn:E;
    try discriminate.
  intros H. inversion H; subst.
  destruct (parser_sound (parse_fuel ts)) as (IHe & _).
  now destruct (IHe _ _ _ E Hts).
Qed.

(** Every tree handed over by the parser is well formed. *)
Lemma parse_wf source e : parse source = inl e -> wf e = true.
Proof.
  unfold parse.
  destruct (lex source) as [ts|] eqn:El; [|discriminate].
  destruct (parse_tokens ts) as [x|] eqn:Ep; [|discriminate].
  intros H. inversion H; subst.
  apply (@parse_tokens_wf ts); [|assumption].
  now apply lex_ok in El.
Qed.

(* ===================================================================== *)
(** * Shape of the formatted text                                        *)
(* ===================================================================== *)

(** ** The breaking policy, node by node *)

Lemma break_node_Unary o d op x :
  break_node o d (Unary op x)
  = prepend_first (unary_text op) (operand_lines o d (unary_slot op) x).
Proof. reflexivity. Qed.

Lemma break_node_Ternary o d c t f :
  break_node o d (Ternary c t f)
  = (operand_lines o d (ternary_slot Condition) c
     ++ prepend_first "? " (operand_lines o (S d) (ternary_slot ThenBranch) t)
     ++ prepend_first ": " (operand_lines o (S d) (ternary_slot ElseBranch) f))%list.
Proof. reflexivity. Qed.

Lemma break_node_Member o d b field :
  break_node o d (Member b field)
  = append_last ("." ++ field) (operand_lines o d receiver_slot b).
Proof. reflexivity. Qed.

Lemma break_node_Index o d b k :
  break_node o d (Index b k)
  = append_last "]" (glue "[" (operand_lines o d receiver_slot b) (render o d k)).
Proof. reflexivity. Qed.

Lemma break_node_Call o d fn a args :
  break_node o d (Call None fn (a :: args))
  = bracketed d (fn ++ "(") ")" (trailing_comma o)
      (map (render o (S d)) (a :: args)).
Proof. reflexivity. Qed.

Lemma break_node_Method_nil o d r fn :
  break_node o d (Call (Some r) fn [])
  = append_last ("." ++ fn ++ "()") (operand_lines o d receiver_slot r).
Proof. reflexivity. Qed.

Lemma break_node_Method o d r fn a args :
  break_node o d (Call (Some r) fn (a :: args))
  = if fits o d (paren_if (needs_parens r receiver_slot) (single_line r)
                 ++ "." ++ fn ++ "(")
    then bracketed d
           (paren_if (needs_parens r receiver_slot) (single_line r)
            ++ "." ++ fn ++ "(") ")" (trailing_comma o)
           (map (render o (S d)) (a :: args))
    else (operand_lines o d receiver_slot r
          ++ (if fits o (S d)
                   ("." ++ fn ++ "("
                    ++ join ", " (map single_line (a :: args)) ++ ")")
              then [{| depth := S d;
                       text := "." ++ fn ++ "("
                               ++ join ", " (map single_line (a :: args))
                               ++ ")" |}]
              else bracketed (S d) ("." ++ fn ++ "(") ")" (trailing_comma o)
                     (map (render o (S (S d))) (a :: args))))%list.
Proof. reflexivity. Qed.

Lemma break_node_MapLit o d kv entries :
  break_node o d (MapLit (kv :: entries))
  = bracketed d "{" "}" (trailing_comma o)
      (map (entry_lines o (S d)) (kv :: entries)).
Proof. reflexivity. Qed.

Lemma break_node_StructLit o d t kv fields :
  break_node o d (StructLit t (kv :: fields))
  = bracketed d (type_prefix t ++ "{") "}" (trailing_comma o)
      (map (entry_lines o (S d)) (kv :: fields)).
Proof. reflexivity. Qed.

Lemma break_node_Grouping o d x :
  break_node o d (Grouping x) = wrap_parens (render o d x).
Proof. reflexivity. Qed.

Lemma break_node_leaf o d e :
  match e with
  | Literal _ | Identifier _ | Comprehension _ _ _ _ _ _
  | Call None _ [] | ListLit [] | MapLit [] | StructLit _ [] => True
  | _ => False
  end ->
  break_node o d e = [{| depth := d; text := single_line e |}].
Proof.
  destruct e; try contradiction; try reflexivity.
  - destruct receiver; [contradiction|]. destruct args; [reflexivity|contradiction].
  - destruct elems; [reflexivity|contradiction].
  - destruct entries; [reflexivity|contradiction].
  - destruct fields; [reflexivity|contradiction].
Qed.

(** ** Characters of the rendered pieces *)

Lemma all_chars_app p a b :
  all_chars p (a ++ b) = all_chars p a && all_chars p b.
Proof.
  induction a as [|c a IH]; simpl; [reflexivity|].
  now rewrite IH, andb_assoc.
Qed.

Lemma all_chars_weaken (p q : ascii -> bool) s :
  (forall c, p c = true -> q c = true) ->
  all_chars p s = true -> all_chars q s = true.
Proof.
  intros Hpq. induction s as [|c s IH]; simpl; [reflexivity|].
  rewrite !andb_true_iff. intros [Hc Hs]. auto.
Qed.

Lemma no_newline_app a b : no_newline (a ++ b) = no_newline a && no_newline b.
Proof. apply all_chars_app. Qed.

Lemma starts_unspaced_app a b :
  starts_unspaced a = true -> starts_unspaced (a ++ b) = true.
Proof. destruct a; simpl; [discriminate|auto]. Qed.

Lemma ends_unspaced_app a b :
  ends_unspaced b = true -> ends_unspaced (a ++ b) = true.
Proof.
  intros Hb. induction a as [|c a IH]; [exact Hb|].
  simpl. destruct (a ++ b) eqn:E; [|exact IH].
  destruct a; simpl in E; [subst b|]; discriminate.
Qed.

Lemma tidy_parts s :
  tidy s = true <->
  no_newline s = true /\ starts_unspaced s = true /\ ends_unspaced s = true.
Proof. unfold tidy. rewrite !andb_true_iff. tauto. Qed.

(** Text between a tidy start and a tidy end is tidy when it holds no line
    terminator. *)
Lemma tidy_between a m b :
  no_newline a = true -> starts_unspaced a = true ->
  no_newline m = true ->
  no_newline b = true -> ends_unspaced b = true ->
  tidy (a ++ m ++ b) = true.
Proof.
  intros Ha Hsa Hm Hb Heb. apply tidy_parts.
  rewrite !no_newline_app, Ha, Hm, Hb.
  repeat split.
  - now apply starts_unspaced_app.
  - now apply ends_unspaced_app, ends_unspaced_app.
Qed.

Lemma tidy_app a b : tidy a = true -> tidy b = true -> tidy (a ++ b) = true.
Proof.
  intros Ha Hb. apply tidy_parts in Ha, Hb.
  change (a ++ b) with (a ++ "" ++ b). apply tidy_between; tauto.
Qed.

Lemma tidy_suffix a b :
  tidy a = true -> no_newline b = true -> ends_unspaced b = true ->
  tidy (a ++ b) = true.
Proof.
  intros Ha Hb Heb. apply tidy_parts in Ha.
  change (a ++ b) with (a ++ "" ++ b). apply tidy_between; tauto.
Qed.

Lemma tidy_prefix a b :
  no_newline a = true -> starts_unspaced a = true -> tidy b = true ->
  tidy (a ++ b) = true.
Proof.
  intros Ha Hsa Hb. apply tidy_parts in Hb.
  change (a ++ b) with (a ++ "" ++ b). apply tidy_between; tauto.
Qed.

Lemma is_digit_plain c :
  is_digit c = true -> is_newline c = false /\ is_space c = false.
Proof.
  unfold is_digit, is_newline, is_space.
  rewrite andb_true_iff, !Nat.leb_le. intros [H1 H2].
  repeat rewrite orb_false_iff. repeat split; apply Nat.eqb_neq; lia.
Qed.

Lemma is_ident_char_plain c :
  is_ident_char c = true -> is_newline c = false /\ is_space c = false.
Proof.
  unfold is_ident_char. rewrite orb_true_iff. intros [H|H];
    [|now apply is_digit_plain].
  revert H. unfold is_ident_start, is_newline, is_space.
  rewrite !orb_true_iff, !andb_true_iff, !Nat.leb_le, Nat.eqb_eq.
  intros H.
  repeat rewrite orb_false_iff. repeat split; apply Nat.eqb_neq; lia.
Qed.

Lemma plain_chars_end (p : ascii -> bool) s :
  (forall c, p c = true -> is_space c = false) ->
  s <> "" -> all_chars p s = true -> ends_unspaced s = true.
Proof.
  intros Hp. induction s as [|c s IH]; [congruence|].
  intros _ Hall. simpl in Hall. apply andb_true_iff in Hall as [Hc Hs].
  destruct s as [|c' s].
  - simpl. now rewrite (Hp c Hc).
  - change (ends_unspaced (String c' s) = true).
    apply IH; [discriminate|assumption].
Qed.

Lemma plain_chars_tidy (p : ascii -> bool) s :
  (forall c, p c = true -> is_newline c = false /\ is_space c = false) ->
  s <> "" -> all_chars p s = true -> tidy s = true.
Proof.
  intros Hp Hne Hall. apply tidy_parts. repeat split.
  - apply all_chars_weaken with (p := p); [|assumption].
    intros c Hc. destruct (Hp c Hc) as [-> _]. reflexivity.
  - destruct s as [|c s]; [congruence|]. simpl in *.
    apply andb_true_iff in Hall as [Hc _].
    destruct (Hp c Hc) as [_ ->]. reflexivity.
  - apply plain_chars_end with (p := p); auto.
    intros c Hc. now destruct (Hp c Hc).
Qed.

Lemma ident_ok_chars s :
  ident_ok s = true -> s <> "" /\ all_chars is_ident_char s = true.
Proof.
  destruct s as [|c s]; simpl; [discriminate|].
  rewrite !andb_true_iff. intros [Hc Hs].
  split; [discriminate|]. split; [now apply is_ident_start_char|assumption].
Qed.

Lemma ident_ok_tidy s : ident_ok s = true -> tidy s = true.
Proof.
  intros H. apply ident_ok_chars in H as [Hne Hall].
  apply plain_chars_tidy with (p := is_ident_char); auto using is_ident_char_plain.
Qed.

Lemma plain_name_ident s : plain_name s = true -> ident_ok s = true.
Proof. unfold plain_name. now rewrite andb_true_iff. Qed.

Lemma digits_ok_chars s :
  digits_ok s = true -> s <> "" /\ all_chars is_digit s = true.
Proof.
  destruct s as [|c s]; [discriminate|]. intros H. split; [discriminate|exact H].
Qed.

Lemma digits_ok_tidy s : digits_ok s = true -> tidy s = true.
Proof.
  intros H. apply digits_ok_chars in H as [Hne Hall].
  apply plain_chars_tidy with (p := is_digit); auto using is_digit_plain.
Qed.

Lemma string_of_uint_digits d :
  all_chars is_digit (DecimalString.NilEmpty.string_of_uint d) = true.
Proof. induction d; simpl; auto. Qed.

Lemma string_of_uint_nonempty d :
  d <> Decimal.Nil -> DecimalString.NilEmpty.string_of_uint d <> "".
Proof. destruct d; simpl; congruence. Qed.

Lemma decimal_digits n : digits_ok (decimal n) = true.
Proof.
  unfold decimal.
  assert (Hne : N.to_uint n <> Decimal.Nil).
  { destruct n; simpl; [discriminate|].
    apply DecimalPos.Unsigned.to_uint_nonnil. }
  pose proof (string_of_uint_nonempty Hne) as Hs.
  pose proof (string_of_uint_digits (N.to_uint n)) as Hd.
  destruct (DecimalString.NilEmpty.string_of_uint (N.to_uint n));
    [congruence|exact Hd].
Qed.

Lemma escape_no_newline s : no_newline (escape s) = true.
Proof.
  unfold no_newline.
  induction s as [|c s IH]; [reflexivity|].
  cbn [escape].
  destruct (nat_of_ascii c =? 34)%nat eqn:E1.
  { apply Nat.eqb_eq in E1. cbn [all_chars]. rewrite IH.
    unfold is_newline. rewrite E1. reflexivity. }
  destruct (nat_of_ascii c =? 92)%nat eqn:E2.
  { apply Nat.eqb_eq in E2. cbn [all_chars]. rewrite IH.
    unfold is_newline. rewrite E2. reflexivity. }
  destruct (nat_of_ascii c =? 10)%nat eqn:E3; [exact IH|].
  destruct (nat_of_ascii c =? 13)%nat eqn:E4; [exact IH|].
  destruct (nat_of_ascii c =? 9)%nat eqn:E5; [exact IH|].
  cbn [all_chars]. rewrite IH. unfold is_newline. rewrite E3. reflexivity.
Qed.

Lemma literal_text_tidy l : literal_wf l = true -> tidy (literal_text l) = true.
Proof.
  destruct l; cbn [literal_text literal_wf]; intros Hwf.
  - apply Z.leb_le in Hwf.
    destruct (value <? 0)%Z eqn:E; [apply Z.ltb_lt in E; lia|].
    apply digits_ok_tidy, decimal_digits.
  - apply tidy_app; [apply digits_ok_tidy, decimal_digits|reflexivity].
  - apply tidy_app; [apply digits_ok_tidy, decimal_digits|].
    apply tidy_prefix; [reflexivity|reflexivity|now apply digits_ok_tidy].
  - apply tidy_between; try reflexivity. apply escape_no_newline.
  - change ("b" ++ quote ++ escape value ++ quote)
      with (("b" ++ quote) ++ escape value ++ quote).
    apply tidy_between; try reflexivity. apply escape_no_newline.
  - destruct value; reflexivity.
  - reflexivity.
Qed.

(** ** Every rendered line is tidy *)

Lemma no_newline_join sep parts :
  no_newline sep = true ->
  Forall (fun p => no_newline p = true) parts ->
  no_newline (join sep parts) = true.
Proof.
  intros Hsep. induction 1 as [|p parts Hp _ IH]; [reflexivity|].
  destruct parts as [|q parts]; [exact Hp|].
  change (join sep (p :: q :: parts)) with (p ++ sep ++ join sep (q :: parts)).
  now rewrite !no_newline_app, Hp, Hsep, IH.
Qed.

Lemma tidy_paren_if b s : tidy s = true -> tidy (paren_if b s) = true.
Proof.
  intros H. destruct b; [|exact H]. apply tidy_parts in H.
  apply tidy_between; try reflexivity; tauto.
Qed.

Lemma forallb_Forall {A} (f : A -> bool) l :
  forallb f l = true <-> Forall (fun x => f x = true) l.
Proof. rewrite forallb_forall, Forall_forall. reflexivity. Qed.

Ltac split_andb H :=
  repeat match type of H with
         | (_ && _) = true =>
             let H' := fresh "Hwf" in
             apply andb_true_iff in H; destruct H as [H H']
         end.

Lemma tidy_type_prefix t :
  match t with Some name => plain_name name | None => false end = true ->
  no_newline (type_prefix t ++ "{") = true
  /\ starts_unspaced (type_prefix t ++ "{") = true.
Proof.
  destruct t as [name|]; [|discriminate]. intros H.
  apply plain_name_ident, ident_ok_tidy, tidy_parts in H.
  simpl type_prefix. rewrite no_newline_app. split.
  - now replace (no_newline name) with true by (symmetry; tauto).
  - apply starts_unspaced_app. tauto.
Qed.

Lemma single_line_tidy e : wf e = true -> tidy (single_line e) = true.
Proof.
  induction e using expr_induction; intros Hwf.
  - now apply literal_text_tidy.
  - now apply ident_ok_tidy, plain_name_ident.
  - cbn [wf] in Hwf. split_andb Hwf.
    cbn [single_line].
    apply tidy_prefix; [destruct op; reflexivity|destruct op; reflexivity|].
    apply tidy_paren_if. auto.
  - cbn [wf] in Hwf. split_andb Hwf.
    rewrite single_line_Binary.
    specialize (IHe1 Hwf). specialize (IHe2 Hwf2).
    apply tidy_paren_if with (b := needs_parens e1 (binary_slot op LeftOperand)) in IHe1.
    apply tidy_paren_if with (b := needs_parens e2 (binary_slot op RightOperand)) in IHe2.
    apply tidy_parts in IHe1, IHe2.
    apply tidy_parts. rewrite !no_newline_app.
    repeat split.
    + replace (no_newline (binary_text op)) with true by (destruct op; reflexivity).
      destruct IHe1 as (-> & _). destruct IHe2 as (-> & _). reflexivity.
    + apply starts_unspaced_app. tauto.
    + repeat apply ends_unspaced_app. tauto.
  - cbn [wf] in Hwf. split_andb Hwf.
    cbn [single_line].
    specialize (IHe1 Hwf). specialize (IHe2 Hwf4). specialize (IHe3 Hwf3).
    apply tidy_paren_if with (b := needs_parens e1 (ternary_slot Condition)) in IHe1.
    apply tidy_paren_if with (b := needs_parens e2 (ternary_slot ThenBranch)) in IHe2.
    apply tidy_paren_if with (b := needs_parens e3 (ternary_slot ElseBranch)) in IHe3.
    apply tidy_parts in IHe1, IHe2, IHe3.
    apply tidy_parts. rewrite !no_newline_app.
    repeat split.
    + destruct IHe1 as (-> & _). destruct IHe2 as (-> & _).
      destruct IHe3 as (-> & _). reflexivity.
    + apply starts_unspaced_app. tauto.
    + repeat apply ends_unspaced_app. tauto.
  - cbn [wf] in Hwf. split_andb Hwf.
    cbn [single_line].
    specialize (IHe Hwf).
    apply tidy_paren_if with (b := needs_parens e receiver_slot) in IHe.
    apply tidy_app; [exact IHe|].
    apply tidy_prefix; [reflexivity|reflexivity|now apply ident_ok_tidy].
  - cbn [wf] in Hwf. split_andb Hwf.
    cbn [single_line].
    specialize (IHe1 Hwf). specialize (IHe2 Hwf1).
    apply tidy_paren_if with (b := needs_parens e1 receiver_slot) in IHe1.
    apply tidy_parts in IHe1, IHe2.
    apply tidy_parts. rewrite !no_newline_app.
    repeat split.
    + destruct IHe1 as (-> & _). destruct IHe2 as (-> & _). reflexivity.
    + apply starts_unspaced_app. tauto.
    + repeat apply ends_unspaced_app. reflexivity.
  - (* Call *)
    assert (Hargs : forallb wf args = true ->
              no_newline (join ", " (map single_line args)) = true).
    { intros Ha. apply no_newline_join; [reflexivity|].
      apply Forall_map. apply forallb_Forall in Ha.
      rewrite Forall_forall in *. intros x Hx.
      specialize (H0 x Hx (Ha x Hx)). apply tidy_parts in H0. tauto. }
    destruct r as [x|]; cbn [wf] in Hwf; split_andb Hwf; cbn [single_line].
    + specialize (H x eq_refl Hwf).
      apply tidy_paren_if with (b := needs_parens x receiver_slot) in H.
      apply ident_ok_tidy in Hwf2.
      apply tidy_parts in H, Hwf2.
      apply tidy_parts. rewrite !no_newline_app, Hargs by assumption.
      repeat split.
      * destruct H as (-> & _). destruct Hwf2 as (-> & _). reflexivity.
      * apply starts_unspaced_app. tauto.
      * repeat apply ends_unspaced_app. reflexivity.
    + apply plain_name_ident, ident_ok_tidy, tidy_parts in Hwf.
      apply tidy_parts. rewrite !no_newline_app, Hargs by assumption.
      repeat split.
      * destruct Hwf as (-> & _). reflexivity.
      * apply starts_unspaced_app. tauto.
      * repeat apply ends_unspaced_app. reflexivity.
  - (* ListLit *)
    cbn [wf] in Hwf. cbn [single_line].
    apply tidy_between; try reflexivity.
    apply no_newline_join; [reflexivity|].
    apply Forall_map. apply forallb_Forall in Hwf.
    rewrite Forall_forall in *. intros x Hx.
    specialize (H x Hx (Hwf x Hx)). apply tidy_parts in H. tauto.
  - (* MapLit *)
    cbn [wf] in Hwf. cbn [single_line].
    apply tidy_between; try reflexivity.
    apply no_newline_join; [reflexivity|].
    apply Forall_map. apply forallb_Forall in Hwf.
    rewrite Forall_forall in *. intros [k v] Hx.
    specialize (H _ Hx). specialize (Hwf _ Hx). cbn [fst snd] in *.
    apply andb_true_iff in Hwf as [Hk Hv]. destruct H as [H1 H2].
    specialize (H1 Hk). specialize (H2 Hv).
    apply tidy_parts in H1, H2. rewrite !no_newline_app.
    destruct H1 as (-> & _). destruct H2 as (-> & _). reflexivity.
  - (* StructLit *)
    cbn [wf] in Hwf. apply andb_true_iff in Hwf as [Ht Hwf].
    cbn [single_line].
    destruct (tidy_type_prefix t Ht) as [Hn Hs].
    apply tidy_parts.
    assert (Hjoin : no_newline
              (join ", " (map (fun kv => single_line (fst kv) ++ ": "
                                         ++ single_line (snd kv)) fields)) = true).
    { apply no_newline_join; [reflexivity|].
      apply Forall_map. apply forallb_Forall in Hwf.
      rewrite Forall_forall in *. intros [k v] Hx.
      specialize (H _ Hx). specialize (Hwf _ Hx). cbn [fst snd] in *.
      apply andb_true_iff in Hwf as [Hk Hv]. destruct H as [H1 H2].
      specialize (H1 Hk). specialize (H2 Hv).
      apply tidy_parts in H1, H2. rewrite !no_newline_app.
      destruct H1 as (-> & _). destruct H2 as (-> & _). reflexivity. }
    rewrite no_newline_app in Hn. apply andb_true_iff in Hn as [Hn _].
    rewrite !no_newline_app, Hn, Hjoin.
    repeat split.
    + destruct t as [name|]; [|discriminate].
      apply starts_unspaced_app.
      apply plain_name_ident, ident_ok_tidy, tidy_parts in Ht. tauto.
    + repeat apply ends_unspaced_app. reflexivity.
  - reflexivity.
  - cbn [wf] in Hwf. cbn [single_line].
    specialize (IHe Hwf). apply tidy_parts in IHe.
    apply tidy_between; try reflexivity; tauto.
Qed.


Lemma tidy_append_last suffix ls :
  no_newline suffix = true -> ends_unspaced suffix = true ->
  Forall tidy_line ls -> Forall tidy_line (append_last suffix ls).
Proof.
  intros Hn He. induction 1 as [|l ls Hl Hls IH]; [constructor|].
  destruct ls as [|l' ls].
  - constructor; [|constructor]. unfold tidy_line in *. simpl.
    now apply tidy_suffix.
  - change (append_last suffix (l :: l' :: ls))
      with (l :: append_last suffix (l' :: ls)).
    constructor; assumption.
Qed.

Lemma tidy_prepend_first prefix ls :
  no_newline prefix = true -> starts_unspaced prefix = true ->
  Forall tidy_line ls -> Forall tidy_line (prepend_first prefix ls).
Proof.
  intros Hn Hs. destruct 1 as [|l ls Hl Hls]; [constructor|].
  constructor; [|assumption]. unfold tidy_line in *. simpl.
  now apply tidy_prefix.
Qed.

Lemma tidy_wrap_if b ls :
  Forall tidy_line ls -> Forall tidy_line (wrap_if b ls).
Proof.
  intros H. destruct b; [|exact H]. unfold wrap_if, wrap_parens.
  apply tidy_append_last; try reflexivity.
  now apply tidy_prepend_first.
Qed.

Lemma tidy_glue sep a b :
  no_newline sep = true ->
  Forall tidy_line a -> Forall tidy_line b -> Forall tidy_line (glue sep a b).
Proof.
  intros Hsep Ha Hb. destruct Hb as [|f rest Hf Hrest]; [exact Ha|].
  unfold glue. apply Forall_app. split; [|assumption].
  unfold tidy_line in Hf. apply tidy_parts in Hf.
  apply tidy_append_last; [| |assumption].
  - rewrite no_newline_app, Hsep. tauto.
  - apply ends_unspaced_app. tauto.
Qed.

Lemma tidy_separated tc groups :
  Forall (Forall tidy_line) groups -> Forall tidy_line (separated tc groups).
Proof.
  induction 1 as [|g groups Hg Hgs IH]; [constructor|].
  destruct groups as [|g' groups].
  - simpl. destruct tc; [|assumption].
    now apply tidy_append_last.
  - change (separated tc (g :: g' :: groups))
      with (append_last "," g ++ separated tc (g' :: groups))%list.
    apply Forall_app. split; [|assumption].
    now apply tidy_append_last.
Qed.

Lemma tidy_bracketed d opener closer tc groups :
  tidy opener = true -> tidy closer = true ->
  Forall (Forall tidy_line) groups ->
  Forall tidy_line (bracketed d opener closer tc groups).
Proof.
  intros Ho Hc Hg. unfold bracketed.
  constructor; [exact Ho|].
  apply Forall_app. split; [now apply tidy_separated|].
  constructor; [exact Hc|constructor].
Qed.

Lemma tidy_single d s : tidy s = true -> Forall tidy_line [{| depth := d; text := s |}].
Proof. intros H. constructor; [exact H|constructor]. Qed.

Lemma tidy_opener name :
  ident_ok name = true -> tidy (name ++ "(") = true.
Proof.
  intros H. apply tidy_app; [now apply ident_ok_tidy|reflexivity].
Qed.

Lemma tidy_dot_opener name :
  ident_ok name = true -> tidy ("." ++ name ++ "(") = true.
Proof.
  intros H. apply tidy_prefix; [reflexivity|reflexivity|now apply tidy_opener].
Qed.

Lemma break_node_tidy o e :
  wf e = true -> forall d, Forall tidy_line (break_node o d e).
Proof.
  assert (Hrender : forall x, wf x = true ->
            (wf x = true -> forall d, Forall tidy_line (break_node o d x)) ->
            forall d, Forall tidy_line (render o d x)).
  { intros x Hx IH d. unfold render.
    destruct (fits o d (single_line x)); [|auto].
    now apply tidy_single, single_line_tidy. }
  assert (Hoperand : forall x, wf x = true ->
            (wf x = true -> forall d, Forall tidy_line (break_node o d x)) ->
            forall d s, Forall tidy_line (operand_lines o d s x)).
  { intros x Hx IH d s. unfold operand_lines. apply tidy_wrap_if. auto. }
  assert (Hgroups : forall xs, forallb wf xs = true ->
            Forall (fun x => wf x = true ->
                      forall d, Forall tidy_line (break_node o d x)) xs ->
            forall d, Forall (Forall tidy_line) (map (render o d) xs)).
  { intros xs Hxs IH d. apply Forall_map. apply forallb_Forall in Hxs.
    rewrite Forall_forall in *. intros x Hx. apply Hrender; auto. }
  assert (Hentries : forall kvs, forallb pair_wf kvs = true ->
            Forall (fun kv =>
                      (wf (fst kv) = true ->
                       forall d, Forall tidy_line (break_node o d (fst kv)))
                      /\ (wf (snd kv) = true ->
                          forall d, Forall tidy_line (break_node o d (snd kv)))) kvs ->
            forall d, Forall (Forall tidy_line) (map (entry_lines o d) kvs)).
  { intros kvs Hkvs IH d. apply Forall_map. apply forallb_Forall in Hkvs.
    rewrite Forall_forall in *. intros [k v] Hkv.
    specialize (IH _ Hkv). specialize (Hkvs _ Hkv).
    unfold pair_wf in Hkvs. cbn [fst snd] in *.
    apply andb_true_iff in Hkvs as [Hk Hv]. destruct IH as [IHk IHv].
    unfold entry_lines. cbn [fst snd].
    destruct (fits o d _).
    - apply tidy_single.
      pose proof (single_line_tidy _ Hk) as Tk.
      pose proof (single_line_tidy _ Hv) as Tv.
      apply tidy_parts in Tk, Tv.
      apply tidy_between; try reflexivity; tauto.
    - apply tidy_glue; [reflexivity| |]; apply Hrender; auto. }
  induction e using expr_induction; intros Hwf d.
  - rewrite break_node_leaf by exact I. now apply tidy_single, single_line_tidy.
  - rewrite break_node_leaf by exact I. now apply tidy_single, single_line_tidy.
  - rewrite break_node_Unary. cbn [wf] in Hwf. split_andb Hwf.
    apply tidy_prepend_first; [destruct op; reflexivity|destruct op; reflexivity|].
    auto.
  - rewrite break_node_Binary. cbn [wf] in Hwf. split_andb Hwf.
    apply Forall_app. split; [|auto].
    apply tidy_append_last.
    + rewrite no_newline_app. destruct op; reflexivity.
    + apply ends_unspaced_app. destruct op; reflexivity.
    + unfold chain_left. destruct e1; auto.
      destruct (same_rung op op0); auto.
  - rewrite break_node_Ternary. cbn [wf] in Hwf. split_andb Hwf.
    apply Forall_app. split; [auto|].
    apply Forall_app. split; apply tidy_prepend_first; auto.
  - rewrite break_node_Member. cbn [wf] in Hwf. split_andb Hwf.
    apply ident_ok_tidy, tidy_parts in Hwf1.
    apply tidy_append_last; [| |auto].
    + rewrite no_newline_app. tauto.
    + apply ends_unspaced_app. tauto.
  - rewrite break_node_Index. cbn [wf] in Hwf. split_andb Hwf.
    apply tidy_append_last; try reflexivity.
    apply tidy_glue; [reflexivity|auto|auto].
  - (* Call *)
    destruct r as [x|]; cbn [wf] in Hwf; split_andb Hwf.
    + destruct args as [|a args].
      * rewrite break_node_Method_nil.
        apply ident_ok_tidy, tidy_parts in Hwf2.
        apply tidy_append_last; [| |eauto].
        -- rewrite !no_newline_app. 
           replace (no_newline fn) with true by (symmetry; tauto). reflexivity.
        -- repeat apply ends_unspaced_app. reflexivity.
      * rewrite break_node_Method.
        pose proof (single_line_tidy _ Hwf) as Tx.
        apply tidy_paren_if with (b := needs_parens x receiver_slot) in Tx.
        destruct (fits o d _).
        -- apply tidy_bracketed; [|reflexivity|auto].
           apply tidy_app; [exact Tx|]. now apply tidy_dot_opener.
        -- apply Forall_app. split; [eauto|].
           destruct (fits o (S d) _).
           ++ apply tidy_single.
              apply tidy_parts. rewrite !no_newline_app.
              pose proof Hwf2 as Hfn.
              apply ident_ok_tidy, tidy_parts in Hfn.
              replace (no_newline fn) with true by (symmetry; tauto).
              rewrite no_newline_join; [|reflexivity|].
              ** repeat split. repeat apply ends_unspaced_app. reflexivity.
              ** apply Forall_map. apply forallb_Forall in Hwf1.
                 rewrite Forall_forall in *. intros y Hy.
                 pose proof (single_line_tidy _ (Hwf1 y Hy)) as Ty.
                 apply tidy_parts in Ty. tauto.
           ++ apply tidy_bracketed; [now apply tidy_dot_opener|reflexivity|auto].
    + destruct args as [|a args].
      * rewrite break_node_leaf by exact I.
        apply tidy_single. apply (single_line_tidy (Call None fn [])).
        cbn [wf]. now rewrite Hwf, Hwf0.
      * rewrite break_node_Call.
        apply tidy_bracketed; [|reflexivity|auto].
        now apply tidy_opener, plain_name_ident.
  - destruct elems as [|a elems].
    + rewrite break_node_leaf by exact I. now apply tidy_single.
    + rewrite break_node_ListLit. cbn [wf] in Hwf.
      apply tidy_bracketed; [reflexivity|reflexivity|auto].
  - destruct entries as [|a entries].
    + rewrite break_node_leaf by exact I. now apply tidy_single.
    + rewrite break_node_MapLit. cbn [wf] in Hwf.
      apply tidy_bracketed; [reflexivity|reflexivity|].
      apply Hentries; assumption.
  - destruct fields as [|a fields].
    + rewrite break_node_leaf by exact I.
      now apply tidy_single, single_line_tidy.
    + rewrite break_node_StructLit. cbn [wf] in Hwf.
      apply andb_true_iff in Hwf as [Ht Hwf].
      apply tidy_bracketed; [|reflexivity|now apply Hentries].
      destruct t as [name|]; [|discriminate]. simpl type_prefix.
      apply tidy_app; [|reflexivity].
      now apply ident_ok_tidy, plain_name_ident.
  - rewrite break_node_leaf by exact I. now apply tidy_single.
  - rewrite break_node_Grouping. cbn [wf] in Hwf.
    apply (tidy_wrap_if true). auto.
Qed.

Lemma render_tidy o d e : wf e = true -> Forall tidy_line (render o d e).
Proof.
  intros Hwf. unfold render. destruct (fits o d (single_line e)).
  - now apply tidy_single, single_line_tidy.
  - now apply break_node_tidy.
Qed.


(** ** The first line of a node sits at the depth it was rendered at *)

Lemma first_depth_append_last d suffix ls :
  first_depth d ls -> first_depth d (append_last suffix ls).
Proof.
  intros (l & rest & -> & <-). destruct rest as [|l' rest].
  - eexists _, []. split; reflexivity.
  - exists l, (append_last suffix (l' :: rest)). split; reflexivity.
Qed.

Lemma first_depth_prepend_first d prefix ls :
  first_depth d ls -> first_depth d (prepend_first prefix ls).
Proof.
  intros (l & rest & -> & <-). eexists _, rest. split; reflexivity.
Qed.

Lemma first_depth_wrap_if d b ls :
  first_depth d ls -> first_depth d (wrap_if b ls).
Proof.
  intros H. destruct b; [|exact H].
  now apply first_depth_append_last, first_depth_prepend_first.
Qed.

Lemma first_depth_app d a b : first_depth d a -> first_depth d (a ++ b)%list.
Proof. intros (l & rest & -> & <-). exists l, (rest ++ b)%list. split; reflexivity. Qed.

Lemma first_depth_glue d sep a b :
  first_depth d a -> first_depth d (glue sep a b).
Proof.
  intros H. destruct b as [|f rest]; [exact H|].
  now apply first_depth_app, first_depth_append_last.
Qed.

Lemma first_depth_bracketed d opener closer tc groups :
  first_depth d (bracketed d opener closer tc groups).
Proof. eexists _, _. split; reflexivity. Qed.

Lemma first_depth_single d s : first_depth d [{| depth := d; text := s |}].
Proof. eexists _, _. split; reflexivity. Qed.

Lemma break_node_first_depth o e : forall d, first_depth d (break_node o d e).
Proof.
  assert (Hrender : forall x, (forall d, first_depth d (break_node o d x)) ->
            forall d, first_depth d (render o d x)).
  { intros x Hx d. unfold render.
    destruct (fits o d (single_line x)); [apply first_depth_single|auto]. }
  assert (Hoperand : forall x, (forall d, first_depth d (break_node o d x)) ->
            forall d s, first_depth d (operand_lines o d s x)).
  { intros x Hx d s. unfold operand_lines. apply first_depth_wrap_if. auto. }
  induction e using expr_induction; intros d.
  - apply first_depth_single.
  - apply first_depth_single.
  - rewrite break_node_Unary. apply first_depth_prepend_first. auto.
  - rewrite break_node_Binary. apply first_depth_app, first_depth_append_last.
    unfold chain_left. destruct e1; auto.
    destruct (same_rung op op0); auto.
  - rewrite break_node_Ternary. apply first_depth_app. auto.
  - rewrite break_node_Member. apply first_depth_append_last. auto.
  - rewrite break_node_Index.
    apply first_depth_append_last, first_depth_glue. auto.
  - destruct r as [x|]; destruct args as [|a args].
    + rewrite break_node_Method_nil. apply first_depth_append_last. eauto.
    + rewrite break_node_Method. destruct (fits o d _).
      * apply first_depth_bracketed.
      * apply first_depth_app. eauto.
    + apply first_depth_single.
    + rewrite break_node_Call. apply first_depth_bracketed.
  - destruct elems; [apply first_depth_single|].
    rewrite break_node_ListLit. apply first_depth_bracketed.
  - destruct entries; [apply first_depth_single|].
    rewrite break_node_MapLit. apply first_depth_bracketed.
  - destruct fields; [apply first_depth_single|].
    rewrite break_node_StructLit. apply first_depth_bracketed.
  - apply first_depth_single.
  - rewrite break_node_Grouping. apply (first_depth_wrap_if true). auto.
Qed.

Lemma render_first_depth o d e : first_depth d (render o d e).
Proof.
  unfold render. destruct (fits o d (single_line e));
    [apply first_depth_single|apply break_node_first_depth].
Qed.

(** ** From tidy lines to the shape of the text *)

Lemma append_assoc (a b c : string) : (a ++ b) ++ c = a ++ b ++ c.
Proof. induction a as [|x a IH]; simpl; [reflexivity|now rewrite IH]. Qed.

Lemma append_empty_r (a : string) : a ++ "" = a.
Proof. induction a as [|x a IH]; simpl; [reflexivity|now rewrite IH]. Qed.

Lemma ends_unspaced_split s :
  ends_unspaced s = true ->
  exists body c, s = body ++ String c "" /\ is_space c = false.
Proof.
  induction s as [|x s IH]; [discriminate|].
  destruct s as [|y s].
  - simpl. intros H. exists "", x. split; [reflexivity|].
    now apply negb_true_iff in H.
  - intros H. destruct (IH H) as (body & c & E & Hc).
    exists (String x body), c. split; [|assumption].
    simpl. now rewrite <- E.
Qed.

Lemma ends_unspaced_last body c :
  ends_unspaced (body ++ String c "") = true -> is_space c = false.
Proof.
  induction body as [|x body IH]; simpl.
  - intros H. now apply negb_true_iff in H.
  - destruct (body ++ String c "") eqn:E; [|exact IH].
    destruct body; discriminate.
Qed.

Lemma no_newline_repeat n s :
  no_newline s = true -> no_newline (repeat_string n s) = true.
Proof.
  intros H. induction n as [|n IH]; [reflexivity|].
  simpl. now rewrite no_newline_app, H, IH.
Qed.

Lemma no_newline_indent o d : no_newline (repeat_string d (indent_unit o)) = true.
Proof.
  apply no_newline_repeat. unfold indent_unit.
  destruct (use_tabs o); [reflexivity|].
  now apply no_newline_repeat.
Qed.

Lemma line_string_tidy_end o l :
  tidy_line l ->
  no_newline (line_string o l) = true /\ ends_unspaced (line_string o l) = true.
Proof.
  unfold tidy_line, line_string. intros H. apply tidy_parts in H.
  rewrite no_newline_app, no_newline_indent. split; [tauto|].
  apply ends_unspaced_app. tauto.
Qed.

(** Where a line terminator can stand in [L ++ newline ++ T] when [L]
    holds none. *)
Lemma terminator_position L : forall T before c after,
  no_newline L = true -> L <> "" ->
  L ++ newline ++ T = before ++ String c (newline ++ after) ->
  (L = before ++ String c "" /\ T = after)
  \/ (exists before', T = before' ++ String c (newline ++ after))
  \/ (exists after', T = newline ++ after').
Proof.
  induction L as [|x L IH]; intros T before c after Hn Hne E; [congruence|].
  unfold no_newline in Hn. cbn [all_chars] in Hn.
  apply andb_true_iff in Hn as [Hx Hn].
  destruct before as [|b before].
  - simpl in E. inversion E; subst. left.
    destruct L as [|y L].
    + simpl in H1. unfold newline in H1. inversion H1. auto.
    + simpl in H1. unfold newline in H1. inversion H1; subst.
      cbn [all_chars] in Hn. discriminate.
  - simpl in E. inversion E; subst. clear E.
    destruct L as [|y L].
    + simpl in H1. unfold newline in H1.
      destruct before as [|b' before].
      * simpl in H1. inversion H1; subst. right. right.
        eexists. reflexivity.
      * simpl in H1. inversion H1; subst. right. left.
        eexists. reflexivity.
    + destruct (IH T before c after Hn ltac:(discriminate) H1)
        as [[E1 E2]|[H|H]].
      * left. split; [|assumption]. simpl. now rewrite <- E1.
      * right. left. exact H.
      * right. right. exact H.
Qed.

Lemma output_text_start o ls :
  Forall tidy_line ls -> forall after, output_text o ls <> newline ++ after.
Proof.
  intros [|l rest Hl _] after; [discriminate|].
  simpl. destruct (line_string_tidy_end o Hl) as [Hn He].
  destruct (line_string o l) as [|x s]; [discriminate|].
  unfold no_newline in Hn. cbn [all_chars] in Hn.
  apply andb_true_iff in Hn as [Hx _].
  intros E. simpl in E. unfold newline in E. inversion E; subst.
  discriminate.
Qed.

Lemma output_text_no_trailing_whitespace o ls :
  Forall tidy_line ls -> no_trailing_whitespace (output_text o ls).
Proof.
  induction 1 as [|l rest Hl Hrest IH]; intros before c after E.
  - destruct before; discriminate.
  - simpl in E. destruct (line_string_tidy_end o Hl) as [Hn He].
    assert (Hne : line_string o l <> "")
      by (destruct (line_string o l); [discriminate|congruence]).
    destruct (@terminator_position _ _ _ _ _ Hn Hne E) as [[E1 _]|[[b' E2]|[a' E3]]].
    + rewrite E1 in He. now apply ends_unspaced_last in He.
    + eapply IH; eassumption.
    + exfalso. eapply output_text_start; eassumption.
Qed.

Lemma output_text_single_trailing_newline o ls :
  Forall tidy_line ls -> ls <> [] -> single_trailing_newline (output_text o ls).
Proof.
  induction 1 as [|l rest Hl Hrest IH]; [congruence|]. intros _.
  destruct rest as [|l' rest].
  - simpl. destruct (line_string_tidy_end o Hl) as [_ He].
    destruct (ends_unspaced_split _ He) as (body & c & E & Hc).
    exists body, c. split; [|assumption].
    rewrite E, append_assoc. reflexivity.
  - destruct (IH ltac:(discriminate)) as (body & c & E & Hc).
    exists (line_string o l ++ newline ++ body), c. split; [|assumption].
    change (output_text o (l :: l' :: rest))
      with (line_string o l ++ newline ++ output_text o (l' :: rest)).
    rewrite E, !append_assoc. reflexivity.
Qed.

Lemma output_text_starts_at_margin o ls :
  Forall tidy_line ls -> first_depth 0 ls -> starts_at_margin (output_text o ls).
Proof.
  intros Hls (l & rest & -> & Hd). inversion Hls as [|? ? Hl _]; subst.
  unfold tidy_line in Hl. apply tidy_parts in Hl as (_ & Hs & _).
  simpl. unfold line_string. rewrite Hd. simpl.
  destruct (text l) as [|c s]; [discriminate|].
  exists c, (s ++ newline ++ output_text o rest). split; [reflexivity|].
  now apply negb_true_iff in Hs.
Qed.

(** C6.  Every text format returns starts at the left margin, ends with
    one line terminator that follows a character other than white space,
    and has no white space before any of its line terminators. *)
Theorem output_shape (source : string) (o : FormatOptions) (text : string) :
  format source o = inl text ->
  starts_at_margin text
  /\ single_trailing_newline text
  /\ no_trailing_whitespace text.
Proof.
  unfold format, format_with.
  destruct (parse source) as [e|diag] eqn:Ep; [|discriminate].
  intros H. inversion H; subst. clear H.
  apply parse_wf in Ep.
  pose proof (render_tidy o 0 e Ep) as Hlines.
  pose proof (render_first_depth o 0 e) as Hfirst.
  unfold format_expr. repeat split.
  - now apply output_text_starts_at_margin.
  - apply output_text_single_trailing_newline; [assumption|].
    destruct Hfirst as (l & rest & -> & _). discriminate.
  - now apply output_text_no_trailing_whitespace.
Qed.

Lemma output_shape_witness :
  starts_at_margin ("1 + 2 * 3" ++ newline)
  /\ single_trailing_newline ("1 + 2 * 3" ++ newline)
  /\ no_trailing_whitespace ("1 + 2 * 3" ++ newline).
Proof.
  apply (@output_shape "1+2*3" default_options). vm_compute. reflexivity.
Defined.

(* ===================================================================== *)
(** ** The parser reads every spelling of a tree back                    *)
(* ===================================================================== *)
(* ===================================================================== *)
(** * Fuel                                                               *)
(* ===================================================================== *)

Lemma parser_mono_step f : parser_mono_at f -> parser_mono_at (S f).
Proof.
  intros IH [|f'] Hle; [lia|].
  destruct (IH f' ltac:(lia)) as (IHe & IHb & IHr & IHu & IHp & IHa & IHi & IHn).
  clear IH. repeat apply conj.
  - intros ts r. rewrite !parse_expr_S.
    destruct (parse_binary f 2 ts) as [[c l]|] eqn:Ec; [|discriminate].
    rewrite (IHb _ _ _ Ec).
    destruct l as [|[] l]; auto.
    destruct (parse_binary f 2 l) as [[t l']|] eqn:Et; [|discriminate].
    rewrite (IHb _ _ _ Et).
    destruct l' as [|[] l']; auto.
    destruct (parse_expr f l') as [[x l'']|] eqn:Ex; [|discriminate].
    rewrite (IHe _ _ Ex). auto.
  - intros lvl ts r. rewrite !parse_binary_S.
    destruct (8 <? lvl)%nat; [apply IHu|].
    destruct (parse_binary f (S lvl) ts) as [[l rest]|] eqn:El; [|discriminate].
    rewrite (IHb _ _ _ El). apply IHr.
  - intros lvl lhs ts r. rewrite !parse_binary_rest_S.
    destruct ts as [|t ts]; auto.
    destruct (binop_of_token t) as [op|]; auto.
    destruct (binding_strength (KBinary op) =? lvl)%nat; auto.
    destruct (parse_binary f (S lvl) ts) as [[x rest]|] eqn:Ex; [|discriminate].
    rewrite (IHb _ _ _ Ex). apply IHr.
  - intros ts r. rewrite !parse_unary_S.
    assert (Hdefault :
      match parse_primary f ts with
      | Some (b, rest) => parse_postfix_rest f b rest
      | None => None
      end = Some r ->
      match parse_primary f' ts with
      | Some (b, rest) => parse_postfix_rest f' b rest
      | None => None
      end = Some r).
    { destruct (parse_primary f ts) as [[b rest]|] eqn:Eb; [|discriminate].
      rewrite (IHa _ _ Eb). apply IHp. }
    destruct ts as [|[] ts]; auto.
    + destruct (parse_unary f ts) as [[x rest]|] eqn:Ex; [|discriminate].
      now rewrite (IHu _ _ Ex).
    + destruct (parse_unary f ts) as [[x rest]|] eqn:Ex; [|discriminate].
      now rewrite (IHu _ _ Ex).
  - intros b ts r. rewrite !parse_postfix_rest_S.
    destruct ts as [|[] ts]; auto.
    + destruct (parse_expr f ts) as [[k rest]|] eqn:Ek; [|discriminate].
      rewrite (IHe _ _ Ek).
      destruct rest as [|[] rest]; auto.
    + destruct ts as [|[] ts]; auto.
      destruct ts as [|[] ts]; auto.
      destruct (parse_items f Round ts) as [[args rest]|] eqn:Ei; [|discriminate].
      rewrite (IHi _ _ _ Ei). apply IHp.
  - intros ts r. rewrite !parse_primary_S.
    destruct ts as [|[] ts]; auto.
    + destruct ts as [|[] ts]; auto.
      * destruct (keyword name); auto.
        destruct (parse_items f Round ts) as [[args rest]|] eqn:Ei; [|discriminate].
        now rewrite (IHi _ _ _ Ei).
      * destruct (keyword name); auto.
        destruct (parse_entries f ts) as [[fields rest]|] eqn:Ei; [|discriminate].
        now rewrite (IHn _ _ Ei).
    + destruct (parse_expr f ts) as [[x rest]|] eqn:Ex; [|discriminate].
      rewrite (IHe _ _ Ex). auto.
    + destruct (parse_items f Square ts) as [[xs rest]|] eqn:Ei; [|discriminate].
      now rewrite (IHi _ _ _ Ei).
    + destruct (parse_entries f ts) as [[kvs rest]|] eqn:Ei; [|discriminate].
      now rewrite (IHn _ _ Ei).
  - intros b ts r. rewrite !parse_items_S.
    destruct ts as [|t ts]; auto.
    destruct (closes b t); auto.
    destruct (parse_expr f (t :: ts)) as [[x rest]|] eqn:Ex; [|discriminate].
    rewrite (IHe _ _ Ex).
    destruct rest as [|[] rest]; auto.
    destruct (parse_items f b rest) as [[xs rest']|] eqn:Ei; [|discriminate].
    now rewrite (IHi _ _ _ Ei).
  - intros ts r. rewrite !parse_entries_S.
    assert (Hentry :
      match parse_expr f ts with
      | Some (k, TColon :: rest1) =>
          match parse_expr f rest1 with
          | Some (v, TComma :: rest2) =>
              match parse_entries f rest2 with
              | Some (kvs, rest3) => Some ((k, v) :: kvs, rest3)
              | None => None
              end
          | Some (v, TRBrace :: rest2) => Some ([(k, v)], rest2)
          | _ => None
          end
      | _ => None
      end = Some r ->
      match parse_expr f' ts with
      | Some (k, TColon :: rest1) =>
          match parse_expr f' rest1 with
          | Some (v, TComma :: rest2) =>
              match parse_entries f' rest2 with
              | Some (kvs, rest3) => Some ((k, v) :: kvs, rest3)
              | None => None
              end
          | Some (v, TRBrace :: rest2) => Some ([(k, v)], rest2)
          | _ => None
          end
      | _ => None
      end = Some r).
    { destruct (parse_expr f ts) as [[k rest]|] eqn:Ek; [|discriminate].
      rewrite (IHe _ _ Ek).
      destruct rest as [|[] rest]; auto.
      destruct (parse_expr f rest) as [[v rest']|] eqn:Ev; [|discriminate].
      rewrite (IHe _ _ Ev).
      destruct rest' as [|[] rest']; auto.
      destruct (parse_entries f rest') as [[kvs rest'']|] eqn:En; [|discriminate].
      now rewrite (IHn _ _ En). }
    destruct ts as [|[] ts]; auto.
Qed.

Lemma parser_mono f : parser_mono_at f.
Proof.
  induction f as [|f IH]; [|now apply parser_mono_step].
  intros f' _. repeat apply conj; intros; discriminate.
Qed.

Lemma parse_expr_mono f f' ts r :
  parse_expr f ts = Some r -> (f <= f')%nat -> parse_expr f' ts = Some r.
Proof. intros H Hle. now apply (@parser_mono f f' Hle). Qed.

Lemma parse_binary_mono f f' lvl ts r :
  parse_binary f lvl ts = Some r -> (f <= f')%nat ->
  parse_binary f' lvl ts = Some r.
Proof. intros H Hle. now apply (@parser_mono f f' Hle). Qed.

Lemma parse_binary_rest_mono f f' lvl lhs ts r :
  parse_binary_rest f lvl lhs ts = Some r -> (f <= f')%nat ->
  parse_binary_rest f' lvl lhs ts = Some r.
Proof. intros H Hle. now apply (@parser_mono f f' Hle). Qed.

Lemma parse_unary_mono f f' ts r :
  parse_unary f ts = Some r -> (f <= f')%nat -> parse_unary f' ts = Some r.
Proof. intros H Hle. now apply (@parser_mono f f' Hle). Qed.

Lemma parse_postfix_rest_mono f f' b ts r :
  parse_postfix_rest f b ts = Some r -> (f <= f')%nat ->
  parse_postfix_rest f' b ts = Some r.
Proof. intros H Hle. now apply (@parser_mono f f' Hle). Qed.

Lemma parse_primary_mono f f' ts r :
  parse_primary f ts = Some r -> (f <= f')%nat -> parse_primary f' ts = Some r.
Proof. intros H Hle. now apply (@parser_mono f f' Hle). Qed.

Lemma parse_items_mono f f' b ts r :
  parse_items f b ts = Some r -> (f <= f')%nat -> parse_items f' b ts = Some r.
Proof. intros H Hle. now apply (@parser_mono f f' Hle). Qed.

Lemma parse_entries_mono f f' ts r :
  parse_entries f ts = Some r -> (f <= f')%nat -> parse_entries f' ts = Some r.
Proof. intros H Hle. now apply (@parser_mono f f' Hle). Qed.
(* ===================================================================== *)
(** * The parser reads back the tokens of a well-formed tree             *)
(* ===================================================================== *)

Lemma follows_level_binop t op :
  binop_of_token t = Some op -> follows_level t = binding_strength (KBinary op).
Proof.
  destruct t; simpl; try discriminate.
  - intros H. now rewrite H.
  - intros H. inversion H. reflexivity.
  - intros H. inversion H. reflexivity.
Qed.

Lemma quiet_weaken n m rest : quiet n rest -> (n <= m)%nat -> quiet m rest.
Proof. destruct rest; simpl; [auto|lia]. Qed.

Lemma binary_rest_returns k n e rest :
  quiet n rest -> (1 <= k)%nat -> parse_binary_rest k n e rest = Some (e, rest).
Proof.
  intros Hq Hk. destruct k as [|k]; [lia|].
  rewrite parse_binary_rest_S.
  destruct rest as [|t rest]; [reflexivity|].
  destruct (binop_of_token t) as [op|] eqn:E; [|reflexivity].
  apply follows_level_binop in E. simpl in Hq.
  destruct (binding_strength (KBinary op) =? n)%nat eqn:En; [|reflexivity].
  apply Nat.eqb_eq in En. lia.
Qed.

Lemma postfix_rest_returns k e rest :
  quiet 10 rest -> (1 <= k)%nat -> parse_postfix_rest k e rest = Some (e, rest).
Proof.
  intros Hq Hk. destruct k as [|k]; [lia|].
  rewrite parse_postfix_rest_S.
  destruct rest as [|t rest]; [reflexivity|].
  destruct t; simpl in Hq; try reflexivity; lia.
Qed.

Lemma operand_of_rung n e ts :
  (2 <= n <= 8)%nat -> rung_at n e ts -> operand_at n e ts.
Proof.
  intros Hn Hr rest fuel Hq Hfuel.
  apply (Hr rest 1%nat fuel (e, rest)).
  - eapply quiet_weaken; [eassumption|lia].
  - now apply binary_rest_returns.
  - lia.
Qed.

Lemma rung_of_operand n e ts :
  (2 <= n <= 8)%nat -> operand_at (S n) e ts -> rung_at n e ts.
Proof.
  intros Hn Ho rest k fuel res Hq Hk Hfuel.
  destruct fuel as [|fuel]; [lia|].
  rewrite parse_binary_S.
  replace (8 <? n)%nat with false by (symmetry; apply Nat.ltb_ge; lia).
  rewrite (Ho rest fuel Hq) by lia.
  eapply parse_binary_rest_mono; [eassumption|lia].
Qed.

Lemma operand_of_prefix e ts :
  (9 <= level e)%nat -> parses_prefix e ts -> operand_at 9 e ts.
Proof.
  intros Hl Hp rest fuel Hq Hfuel.
  destruct fuel as [|fuel]; [lia|].
  rewrite parse_binary_S. simpl.
  apply Hp; [assumption| |lia].
  eapply quiet_weaken; [eassumption|lia].
Qed.

(** An operand of a rung is an operand of every rung below. *)
Lemma operand_descends e ts m :
  (2 <= m <= 9)%nat -> operand_at m e ts ->
  forall j n, (n + j = m)%nat -> (2 <= n)%nat -> operand_at n e ts.
Proof.
  intros Hm Ho. induction j as [|j IH]; intros n Hj Hn.
  - replace n with m by lia. exact Ho.
  - apply operand_of_rung; [lia|].
    apply rung_of_operand; [lia|].
    apply IH; lia.
Qed.

Lemma rung_below e ts m n :
  (2 <= m <= 9)%nat -> operand_at m e ts -> (2 <= n)%nat -> (n < m)%nat ->
  rung_at n e ts.
Proof.
  intros Hm Ho Hn Hlt.
  apply rung_of_operand; [lia|].
  apply (operand_descends Hm Ho (m - S n)); lia.
Qed.

Lemma expr_of_operand e ts :
  operand_at 2 e ts -> parses_expr e ts.
Proof.
  intros Ho rest fuel Hq Hfuel.
  destruct fuel as [|fuel]; [lia|].
  rewrite parse_expr_S.
  rewrite (Ho rest fuel)
    by first [lia | eapply quiet_weaken; [eassumption|lia]].
  destruct rest as [|t rest]; [reflexivity|].
  destruct t; try reflexivity. simpl in Hq. lia.
Qed.

Lemma prefix_of_postfix e ts :
  (10 <= level e)%nat -> parses_postfix e ts -> parses_prefix e ts.
Proof.
  intros Hl10 Hx _ rest fuel Hq Hfuel.
  apply (Hx Hl10 rest 1%nat fuel (e, rest)).
  - eapply quiet_weaken; [eassumption|lia].
  - now apply postfix_rest_returns.
  - lia.
Qed.

(** From the prefix level down: what is left to show for a node of rung 9
    or above. *)
Lemma parses_of_prefix e ts :
  (9 <= level e)%nat -> parses_prefix e ts -> parses_postfix e ts ->
  parses e ts.
Proof.
  intros Hl Hp Hx.
  pose proof (operand_of_prefix Hl Hp) as Ho.
  repeat split; [| |exact Hp|exact Hx].
  - apply expr_of_operand.
    apply (@operand_descends e ts 9 ltac:(lia) Ho 7); lia.
  - intros n Hn Hln. apply (@rung_below e ts 9); auto; lia.
Qed.

Lemma parses_operand_of e ts : parses e ts -> parses_operand e ts.
Proof.
  intros (_ & Hr & Hp & _) n Hn Hl.
  destruct (Nat.eq_dec n 9) as [->|Hne].
  - now apply operand_of_prefix.
  - apply operand_of_rung; [lia|]. apply Hr; lia.
Qed.

(** A primary form is parsed by the prefix level and handed to the postfix
    loop. *)
Lemma postfix_of_primary e ts :
  parses_primary e ts ->
  (exists t ts', ts = t :: ts' /\ t <> TBang /\ t <> TMinus) ->
  parses_postfix e ts.
Proof.
  intros Hp (t & ts' & -> & Hb & Hm) Hl rest k fuel res Hq Hk Hfuel.
  destruct fuel as [|fuel]; [lia|].
  rewrite parse_unary_S.
  assert (E : parse_primary fuel ((t :: ts') ++ rest)%list = Some (e, rest))
    by (apply Hp; [assumption|lia]).
  assert (Hrest : parse_postfix_rest fuel e rest = Some res)
    by (eapply parse_postfix_rest_mono; [eassumption|lia]).
  simpl app in *.
  destruct t; try congruence; rewrite E; exact Hrest.
Qed.

(** ** What the slots of a well-formed tree say about levels *)

Lemma level_of_left op l :
  needs_parens l (binary_slot op LeftOperand) = false ->
  (binding_strength (KBinary op) <= level l)%nat.
Proof.
  unfold needs_parens, level. simpl. rewrite orb_false_iff.
  intros [H _]. now apply Nat.ltb_ge in H.
Qed.

Lemma level_of_right op r :
  needs_parens r (binary_slot op RightOperand) = false ->
  (S (binding_strength (KBinary op)) <= level r)%nat.
Proof.
  unfold needs_parens, level. simpl. rewrite orb_false_iff, andb_true_r.
  intros [H1 H2]. apply Nat.ltb_ge in H1. apply Nat.eqb_neq in H2. lia.
Qed.

Lemma level_of_unary op x :
  needs_parens x (unary_slot op) = false -> (9 <= level x)%nat.
Proof.
  unfold needs_parens, level. simpl. rewrite orb_false_iff.
  intros [H _]. now apply Nat.ltb_ge in H.
Qed.

Lemma level_of_receiver b :
  needs_parens b receiver_slot = false -> (10 <= level b)%nat.
Proof.
  unfold needs_parens, level. simpl. rewrite orb_false_iff.
  intros [H _]. now apply Nat.ltb_ge in H.
Qed.

Lemma level_of_branch p x :
  p = Condition \/ p = ThenBranch ->
  needs_parens x (ternary_slot p) = false -> (2 <= level x)%nat.
Proof.
  unfold needs_parens, level. intros [-> | ->]; simpl;
    rewrite orb_false_iff, andb_true_r;
    intros [H1 H2]; apply Nat.ltb_ge in H1; apply Nat.eqb_neq in H2; lia.
Qed.

Lemma binary_strength_range op :
  (2 <= binding_strength (KBinary op) <= 8)%nat.
Proof. destruct op; simpl; lia. Qed.

Lemma binop_of_binary_token op : binop_of_token (binary_token op) = Some op.
Proof. destruct op; reflexivity. Qed.

Lemma follows_level_binary_token op :
  follows_level (binary_token op) = binding_strength (KBinary op).
Proof. apply follows_level_binop, binop_of_binary_token. Qed.

(** ** Heads of token sequences *)

Lemma heads_app e e' ts ts' :
  heads e ts -> ((10 <= level e')%nat -> (10 <= level e)%nat) ->
  heads e' (ts ++ ts').
Proof.
  intros (t & r & -> & Ho & Hl) Himp.
  exists t, (r ++ ts')%list. repeat split; auto; now apply Hl, Himp.
Qed.

(** ** Node by node *)

Lemma primary_of_ident name a rest fuel :
  atom_of_ident name = Some a -> quiet 11 rest -> (1 <= fuel)%nat ->
  parse_primary fuel (TIdent name :: rest) = Some (a, rest).
Proof.
  intros Ha Hq Hfuel. destruct fuel as [|fuel]; [lia|].
  rewrite parse_primary_S.
  destruct rest as [|t rest]; [now rewrite Ha|].
  destruct t; simpl in Hq; try lia; now rewrite Ha.
Qed.

Lemma atom_of_plain_name name :
  plain_name name = true -> atom_of_ident name = Some (Identifier name).
Proof.
  unfold plain_name, keyword, atom_of_ident.
  rewrite andb_true_iff, negb_true_iff, !orb_false_iff.
  intros (_ & ((-> & ->) & ->) & ->). reflexivity.
Qed.

Lemma keyword_of_plain_name name : plain_name name = true -> keyword name = false.
Proof.
  unfold plain_name. rewrite andb_true_iff, negb_true_iff. tauto.
Qed.

Lemma parses_Literal l : literal_wf l = true -> parses_primary (Literal l) [literal_token l].
Proof.
  intros Hwf rest fuel Hq Hfuel. simpl in Hfuel.
  destruct l; simpl literal_token; simpl app;
    try (destruct fuel as [|fuel]; [lia|]; rewrite parse_primary_S; reflexivity).
  - destruct fuel as [|fuel]; [lia|]. rewrite parse_primary_S.
    simpl in Hwf. apply Z.leb_le in Hwf. now rewrite Z2N.id.
  - destruct value; apply primary_of_ident; auto; lia.
  - apply primary_of_ident; auto; lia.
Qed.

Lemma parses_Identifier name :
  plain_name name = true -> parses_primary (Identifier name) [TIdent name].
Proof.
  intros Hwf rest fuel Hq Hfuel. simpl in Hfuel.
  apply primary_of_ident; [now apply atom_of_plain_name|assumption|lia].
Qed.

Lemma parses_Unary op x tx :
  parses x tx -> (9 <= level x)%nat ->
  parses_prefix (Unary op x) (unary_token op :: tx).
Proof.
  intros (_ & _ & Hp & _) Hl _ rest fuel Hq Hfuel.
  simpl in Hfuel. destruct fuel as [|fuel]; [lia|].
  rewrite parse_unary_S.
  destruct op; simpl; rewrite (Hp Hl rest fuel Hq) by lia; reflexivity.
Qed.

Lemma parses_Binary_rung op l r tl tr :
  parses l tl -> parses r tr ->
  (binding_strength (KBinary op) <= level l)%nat ->
  (S (binding_strength (KBinary op)) <= level r)%nat ->
  rung_at (binding_strength (KBinary op)) (Binary op l r)
    (tl ++ binary_token op :: tr).
Proof.
  intros Hl Hr Hll Hlr rest k fuel res Hq Hk Hfuel.
  pose proof (binary_strength_range op) as Hm.
  set (m := binding_strength (KBinary op)) in *.
  rewrite length_app in Hfuel. cbn [List.length] in Hfuel.
  rewrite <- app_assoc. cbn [app].
  destruct Hl as (_ & Hrung & _).
  apply (Hrung m Hm Hll (binary_token op :: tr ++ rest)%list
           (S (k + 32 * List.length tr + 3 + 2 * (10 - S m)))).
  - cbn [quiet]. rewrite follows_level_binary_token. fold m. lia.
  - rewrite parse_binary_rest_S, binop_of_binary_token. fold m.
    rewrite Nat.eqb_refl.
    rewrite (parses_operand_of Hr (n := S m)) by (try lia; assumption).
    eapply parse_binary_rest_mono; [eassumption|lia].
  - lia.
Qed.

Lemma parses_Binary op l r tl tr :
  parses l tl -> parses r tr ->
  (binding_strength (KBinary op) <= level l)%nat ->
  (S (binding_strength (KBinary op)) <= level r)%nat ->
  parses (Binary op l r) (tl ++ binary_token op :: tr).
Proof.
  intros Hl Hr Hll Hlr.
  pose proof (binary_strength_range op) as Hm.
  pose proof (parses_Binary_rung op Hl Hr Hll Hlr) as Hrung.
  assert (Ho : operand_at (binding_strength (KBinary op)) (Binary op l r)
                 (tl ++ binary_token op :: tr))
    by (apply operand_of_rung; assumption).
  assert (Hlevel : level (Binary op l r) = binding_strength (KBinary op))
    by reflexivity.
  repeat split.
  - apply expr_of_operand.
    apply (operand_descends (m := binding_strength (KBinary op))
             ltac:(lia) Ho (binding_strength (KBinary op) - 2)); lia.
  - intros n Hn Hln. rewrite Hlevel in Hln.
    destruct (Nat.eq_dec n (binding_strength (KBinary op))) as [->|Hne];
      [exact Hrung|].
    apply (rung_below (m := binding_strength (KBinary op))); auto; lia.
  - intros H9. rewrite Hlevel in H9. lia.
  - intros H10. rewrite Hlevel in H10. lia.
Qed.

Lemma parses_Ternary c t f tc tt tf :
  parses c tc -> parses t tt -> parses f tf ->
  (2 <= level c)%nat -> (2 <= level t)%nat ->
  parses (Ternary c t f) (tc ++ TQuestion :: tt ++ TColon :: tf).
Proof.
  intros Hc Ht Hf Hlc Hlt.
  assert (Hlevel : level (Ternary c t f) = 1%nat) by reflexivity.
  repeat split.
  - intros rest fuel Hq Hfuel.
    rewrite !length_app in Hfuel. cbn [List.length] in Hfuel.
    rewrite length_app in Hfuel. cbn [List.length] in Hfuel.
    destruct fuel as [|fuel]; [lia|].
    rewrite parse_expr_S.
    rewrite <- app_assoc. cbn [app]. rewrite <- app_assoc. cbn [app].
    rewrite (parses_operand_of Hc (n := 2)) by (simpl; lia).
    rewrite (parses_operand_of Ht (n := 2)) by (simpl; lia).
    destruct Hf as (He & _).
    rewrite (He rest fuel Hq) by lia. reflexivity.
  - intros n Hn Hln. rewrite Hlevel in Hln. lia.
  - intros H9. rewrite Hlevel in H9. lia.
  - intros H10. rewrite Hlevel in H10. lia.
Qed.

Lemma parses_Member b field tb :
  parses b tb -> (10 <= level b)%nat ->
  parses_postfix (Member b field) (tb ++ [TDot; TIdent field]).
Proof.
  intros (_ & _ & _ & Hx) Hlb _ rest k fuel res Hq Hk Hfuel.
  rewrite length_app in Hfuel. cbn [List.length] in Hfuel.
  rewrite <- app_assoc. cbn [app].
  apply (Hx Hlb (TDot :: TIdent field :: rest) (S k)); [cbn; lia| |lia].
  rewrite parse_postfix_rest_S.
  destruct rest as [|t rest]; [exact Hk|].
  destruct t; try exact Hk. cbn in Hq. lia.
Qed.

Lemma parses_Index b key tb tk :
  parses b tb -> parses key tk -> (10 <= level b)%nat ->
  parses_postfix (Index b key) (tb ++ TLBrack :: tk ++ [TRBrack]).
Proof.
  intros (_ & _ & _ & Hx) (He & _) Hlb _ rest k fuel res Hq Hk Hfuel.
  rewrite !length_app in Hfuel. cbn [List.length] in Hfuel.
  rewrite length_app in Hfuel. cbn [List.length] in Hfuel.
  rewrite <- app_assoc. cbn [app]. rewrite <- app_assoc. cbn [app].
  apply (Hx Hlb (TLBrack :: tk ++ TRBrack :: rest)%list
           (S (k + 32 * List.length tk + 24))); [cbn; lia| |lia].
  rewrite parse_postfix_rest_S.
  rewrite (He (TRBrack :: rest) _) by (cbn; lia).
  eapply parse_postfix_rest_mono; [eassumption|lia].
Qed.

Lemma method_call_plain b fn args :
  is_none (expand_macro b fn args) = true ->
  method_call b fn args = Call (Some b) fn args.
Proof.
  unfold method_call. destruct (expand_macro b fn args); [discriminate|reflexivity].
Qed.

Lemma parses_Method b fn args tb ta :
  parses b tb -> parses_items args ta -> (10 <= level b)%nat ->
  is_none (expand_macro b fn args) = true ->
  parses_postfix (Call (Some b) fn args)
    (tb ++ TDot :: TIdent fn :: TLParen :: ta ++ [TRParen]).
Proof.
  intros (_ & _ & _ & Hx) Hi Hlb Hmacro _ rest k fuel res Hq Hk Hfuel.
  rewrite !length_app in Hfuel. cbn [List.length] in Hfuel.
  rewrite length_app in Hfuel. cbn [List.length] in Hfuel.
  rewrite <- app_assoc. cbn [app]. rewrite <- app_assoc. cbn [app].
  apply (Hx Hlb (TDot :: TIdent fn :: TLParen :: ta ++ TRParen :: rest)%list
           (S (k + 32 * List.length ta + 26))); [cbn; lia| |lia].
  rewrite parse_postfix_rest_S.
  rewrite (Hi Round TRParen rest _ eq_refl) by lia.
  rewrite method_call_plain by assumption.
  eapply parse_postfix_rest_mono; [eassumption|lia].
Qed.

Lemma parses_Grouping x tx :
  parses x tx -> parses_primary (Grouping x) (TLParen :: tx ++ [TRParen]).
Proof.
  intros (He & _) rest fuel Hq Hfuel.
  cbn [List.length] in Hfuel. rewrite length_app in Hfuel.
  cbn [List.length] in Hfuel.
  destruct fuel as [|fuel]; [lia|].
  cbn [app]. rewrite <- app_assoc. cbn [app].
  rewrite parse_primary_S.
  rewrite (He (TRParen :: rest) fuel) by (cbn; lia). reflexivity.
Qed.

Lemma parses_Call fn args ta :
  parses_items args ta -> plain_name fn = true ->
  parses_primary (Call None fn args) (TIdent fn :: TLParen :: ta ++ [TRParen]).
Proof.
  intros Hi Hfn rest fuel Hq Hfuel.
  cbn [List.length] in Hfuel. rewrite length_app in Hfuel.
  cbn [List.length] in Hfuel.
  destruct fuel as [|fuel]; [lia|].
  cbn [app]. rewrite <- app_assoc. cbn [app].
  rewrite parse_primary_S, keyword_of_plain_name by assumption.
  rewrite (Hi Round TRParen rest fuel eq_refl) by lia. reflexivity.
Qed.

Lemma parses_ListLit elems te :
  parses_items elems te ->
  parses_primary (ListLit elems) (TLBrack :: te ++ [TRBrack]).
Proof.
  intros Hi rest fuel Hq Hfuel.
  cbn [List.length] in Hfuel. rewrite length_app in Hfuel.
  cbn [List.length] in Hfuel.
  destruct fuel as [|fuel]; [lia|].
  cbn [app]. rewrite <- app_assoc. cbn [app].
  rewrite parse_primary_S.
  rewrite (Hi Square TRBrack rest fuel eq_refl) by lia. reflexivity.
Qed.

Lemma parses_MapLit entries te :
  parses_entries entries te ->
  parses_primary (MapLit entries) (TLBrace :: te ++ [TRBrace]).
Proof.
  intros Hi rest fuel Hq Hfuel.
  cbn [List.length] in Hfuel. rewrite length_app in Hfuel.
  cbn [List.length] in Hfuel.
  destruct fuel as [|fuel]; [lia|].
  cbn [app]. rewrite <- app_assoc. cbn [app].
  rewrite parse_primary_S.
  rewrite (Hi rest fuel) by lia. reflexivity.
Qed.

Lemma parses_StructLit name fields tf :
  parses_entries fields tf -> plain_name name = true ->
  parses_primary (StructLit (Some name) fields)
    (TIdent name :: TLBrace :: tf ++ [TRBrace]).
Proof.
  intros Hi Hname rest fuel Hq Hfuel.
  cbn [List.length] in Hfuel. rewrite length_app in Hfuel.
  cbn [List.length] in Hfuel.
  destruct fuel as [|fuel]; [lia|].
  cbn [app]. rewrite <- app_assoc. cbn [app].
  rewrite parse_primary_S, keyword_of_plain_name by assumption.
  rewrite (Hi rest fuel) by lia. reflexivity.
Qed.

(** ** Sequences *)

Lemma closes_opens b t : opens t = true -> closes b t = false.
Proof. destruct b, t; simpl; congruence. Qed.

Lemma closes_level b c : closes b c = true -> follows_level c = 0%nat.
Proof. destruct b, c; simpl; congruence. Qed.

Lemma closes_not_comma b c : closes b c = true -> c <> TComma.
Proof. destruct b, c; simpl; congruence. Qed.

Lemma parses_items_none : parses_items [] [].
Proof.
  intros b c rest fuel Hc Hfuel. destruct fuel as [|fuel]; [lia|].
  cbn [app]. rewrite parse_items_S. now rewrite Hc.
Qed.

Lemma parse_items_head fuel b t ts x rest :
  opens t = true ->
  parse_expr fuel (t :: ts) = Some (x, rest) ->
  parse_items (S fuel) b (t :: ts) =
    match rest with
    | TComma :: rest' =>
        match parse_items fuel b rest' with
        | Some (xs, rest'') => Some (x :: xs, rest'')
        | None => None
        end
    | t' :: rest' => if closes b t' then Some ([x], rest') else None
    | [] => None
    end.
Proof.
  intros Ho E. rewrite parse_items_S, (@closes_opens b _ Ho), E.
  destruct rest as [|[] rest]; reflexivity.
Qed.

Lemma parses_items_last x tx :
  parses x tx -> heads x tx -> parses_items [x] tx.
Proof.
  intros (He & _) (t & ts' & -> & Ho & _) b c rest fuel Hc Hfuel.
  destruct fuel as [|fuel]; [lia|].
  cbn [app]. erewrite parse_items_head; [|assumption|].
  2:{ apply (He (c :: rest) fuel); [|lia].
      cbn. rewrite (@closes_level _ _ Hc). lia. }
  pose proof (@closes_not_comma _ _ Hc).
  destruct c; try congruence; now rewrite Hc.
Qed.

Lemma parses_items_last_comma x tx :
  parses x tx -> heads x tx -> parses_items [x] (tx ++ [TComma]).
Proof.
  intros (He & _) (t & ts' & -> & Ho & _) b c rest fuel Hc Hfuel.
  rewrite length_app in Hfuel. cbn [List.length] in Hfuel.
  destruct fuel as [|fuel]; [lia|].
  rewrite <- app_assoc. cbn [app]. erewrite parse_items_head; [|assumption|].
  2:{ apply (He (TComma :: c :: rest) fuel); [cbn; lia|].
      cbn [List.length]. lia. }
  pose proof (@parses_items_none b c rest fuel Hc) as E. cbn [app] in E.
  cbv iota. rewrite E by (cbn [List.length]; lia). reflexivity.
Qed.

Lemma parses_items_more x y ys tx tys :
  parses x tx -> heads x tx -> parses_items (y :: ys) tys ->
  parses_items (x :: y :: ys) (tx ++ TComma :: tys).
Proof.
  intros (He & _) (t & ts' & -> & Ho & _) Hi b c rest fuel Hc Hfuel.
  rewrite length_app in Hfuel. cbn [List.length] in Hfuel.
  destruct fuel as [|fuel]; [lia|].
  rewrite <- app_assoc. cbn [app]. erewrite parse_items_head; [|assumption|].
  2:{ apply (He (TComma :: tys ++ c :: rest)%list fuel); [cbn; lia|].
      cbn [List.length]. lia. }
  cbv iota. rewrite (Hi b c rest fuel Hc) by lia. reflexivity.
Qed.

Lemma parses_entries_none : parses_entries [] [].
Proof.
  intros rest fuel Hfuel. destruct fuel as [|fuel]; [lia|].
  cbn [app]. now rewrite parse_entries_S.
Qed.

Lemma parse_entries_head fuel t ts :
  opens t = true ->
  parse_entries (S fuel) (t :: ts) =
    match parse_expr fuel (t :: ts) with
    | Some (k, TColon :: rest1) =>
        match parse_expr fuel rest1 with
        | Some (v, TComma :: rest2) =>
            match parse_entries fuel rest2 with
            | Some (kvs, rest3) => Some ((k, v) :: kvs, rest3)
            | None => None
            end
        | Some (v, TRBrace :: rest2) => Some ([(k, v)], rest2)
        | _ => None
        end
    | _ => None
    end.
Proof.
  intros Ho. rewrite parse_entries_S. destruct t; try reflexivity; discriminate.
Qed.

Lemma parses_entries_last k v tk tv :
  parses k tk -> heads k tk -> parses v tv ->
  parses_entries [(k, v)] (tk ++ TColon :: tv).
Proof.
  intros (Hk & _) (t & ts' & -> & Ho & _) (Hv & _) rest fuel Hfuel.
  rewrite length_app in Hfuel. cbn [List.length] in Hfuel.
  destruct fuel as [|fuel]; [lia|].
  rewrite <- app_assoc. cbn [app]. rewrite parse_entries_head by assumption.
  assert (Ek : parse_expr fuel (t :: ts' ++ TColon :: tv ++ TRBrace :: rest) = Some (k, TColon :: tv ++ TRBrace :: rest)).
  { apply (Hk (TColon :: tv ++ TRBrace :: rest) fuel);
      cbn [List.length quiet follows_level binop_of_token]; lia. }
  rewrite Ek. cbv iota.
  rewrite (Hv (TRBrace :: rest) fuel)
    by (cbn [List.length quiet follows_level binop_of_token]; lia).
  reflexivity.
Qed.

Lemma parses_entries_last_comma k v tk tv :
  parses k tk -> heads k tk -> parses v tv ->
  parses_entries [(k, v)] (tk ++ TColon :: tv ++ [TComma]).
Proof.
  intros (Hk & _) (t & ts' & -> & Ho & _) (Hv & _) rest fuel Hfuel.
  rewrite length_app in Hfuel. cbn [List.length] in Hfuel.
  rewrite length_app in Hfuel. cbn [List.length] in Hfuel.
  destruct fuel as [|fuel]; [lia|].
  rewrite <- app_assoc. cbn [app]. rewrite <- app_assoc. cbn [app].
  rewrite parse_entries_head by assumption.
  assert (Ek : parse_expr fuel (t :: ts' ++ TColon :: tv ++ TComma :: TRBrace :: rest) = Some (k, TColon :: tv ++ TComma :: TRBrace :: rest)).
  { apply (Hk (TColon :: tv ++ TComma :: TRBrace :: rest) fuel);
      cbn [List.length quiet follows_level binop_of_token]; lia. }
  rewrite Ek. cbv iota.
  rewrite (Hv (TComma :: TRBrace :: rest) fuel)
    by (cbn [List.length quiet follows_level binop_of_token]; lia).
  pose proof (@parses_entries_none rest fuel) as E. cbn [app] in E.
  rewrite E by (cbn [List.length]; lia). reflexivity.
Qed.

Lemma parses_entries_more k v kv kvs tk tv tkvs :
  parses k tk -> heads k tk -> parses v tv ->
  parses_entries (kv :: kvs) tkvs ->
  parses_entries ((k, v) :: kv :: kvs) (tk ++ TColon :: tv ++ TComma :: tkvs).
Proof.
  intros (Hk & _) (t & ts' & -> & Ho & _) (Hv & _) Hn rest fuel Hfuel.
  rewrite length_app in Hfuel. cbn [List.length] in Hfuel.
  rewrite length_app in Hfuel. cbn [List.length] in Hfuel.
  destruct fuel as [|fuel]; [lia|].
  rewrite <- app_assoc. cbn [app]. rewrite <- app_assoc. cbn [app].
  rewrite parse_entries_head by assumption.
  assert (Ek : parse_expr fuel (t :: ts' ++ TColon :: tv ++ TComma :: tkvs ++ TRBrace :: rest) = Some (k, TColon :: tv ++ TComma :: tkvs ++ TRBrace :: rest)).
  { apply (Hk (TColon :: tv ++ TComma :: tkvs ++ TRBrace :: rest) fuel);
      cbn [List.length quiet follows_level binop_of_token]; lia. }
  rewrite Ek. cbv iota.
  rewrite (Hv (TComma :: tkvs ++ TRBrace :: rest)%list fuel)
    by (cbn [List.length quiet follows_level binop_of_token]; lia).
  rewrite (Hn rest fuel) by lia.
  reflexivity.
Qed.

(** ** Every spelling of a well-formed tree parses back to it *)

Lemma parses_of_postfix e ts :
  (10 <= level e)%nat -> parses_postfix e ts -> parses e ts.
Proof.
  intros Hl Hx. apply parses_of_prefix; [lia| |assumption].
  now apply prefix_of_postfix.
Qed.

Lemma parses_of_primary e ts :
  (10 <= level e)%nat -> parses_primary e ts ->
  (exists t ts', ts = t :: ts' /\ t <> TBang /\ t <> TMinus) ->
  parses e ts.
Proof.
  intros Hl Hp Hh. apply parses_of_postfix; [assumption|].
  now apply postfix_of_primary.
Qed.

Lemma heads_cons e t ts :
  opens t = true -> t <> TBang -> t <> TMinus -> heads e (t :: ts).
Proof. intros Ho Hb Hm. exists t, ts. repeat split; assumption. Qed.

Lemma forallb_pair_wf kvs :
  forallb (fun kv : expr * expr => wf (fst kv) && wf (snd kv)) kvs
  = forallb pair_wf kvs.
Proof. reflexivity. Qed.

Ltac split_bools :=
  repeat match goal with
  | H : _ && _ = true |- _ => apply andb_prop in H; destruct H
  | H : negb _ = true |- _ => apply negb_true_iff in H
  end.

Lemma spells_parse_all :
  (forall e ts, spells e ts -> spelling_parses e ts)
  /\ (forall xs ts, spells_items xs ts -> items_parse xs ts)
  /\ (forall kvs ts, spells_entries kvs ts -> entries_parse kvs ts).
Proof.
  apply spells_mutual; unfold spelling_parses, items_parse, entries_parse.
  - (* Literal *)
    intros l Hwf _. cbn [wf] in Hwf. split.
    + apply parses_of_primary; [unfold level; cbn; lia|now apply parses_Literal|].
      exists (literal_token l), []. repeat split; destruct l as [| | | | |[]|]; discriminate.
    + apply heads_cons; destruct l as [| | | | |[]|]; (reflexivity || discriminate).
  - (* Identifier *)
    intros name Hwf _. cbn [wf] in Hwf. split.
    + apply parses_of_primary; [unfold level; cbn; lia|now apply parses_Identifier|].
      exists (TIdent name), []. repeat split; discriminate.
    + apply heads_cons; (reflexivity || discriminate).
  - (* Unary *)
    intros op x tx _ IH Hwf Hcf. cbn [wf comprehension_free] in Hwf, Hcf.
    split_bools. destruct (IH ltac:(assumption) Hcf) as [Hp Hh].
    pose proof (level_of_unary _ _ ltac:(eassumption)) as Hl.
    split.
    + apply parses_of_prefix; [unfold level; cbn; lia|now apply parses_Unary|].
      intros H10. unfold level in H10; cbn in H10; lia.
    + exists (unary_token op), tx.
      split; [reflexivity|split; [now destruct op|]].
      intros H10. unfold level in H10. cbn in H10. lia.
  - (* Binary *)
    intros op l r tl tr _ IHl _ IHr Hwf Hcf.
    cbn [wf comprehension_free] in Hwf, Hcf. split_bools.
    destruct (IHl ltac:(assumption) ltac:(assumption)) as [Hpl Hhl].
    destruct (IHr ltac:(assumption) ltac:(assumption)) as [Hpr Hhr].
    split.
    + apply parses_Binary; auto using level_of_left, level_of_right.
    + apply (heads_app (e := l)); [assumption|].
      intros H10. pose proof (binary_strength_range op).
      unfold level in H10. cbn [kind_of] in H10. lia.
  - (* Ternary *)
    intros c t f tc tt tf _ IHc _ IHt _ IHf Hwf Hcf.
    cbn [wf comprehension_free] in Hwf, Hcf. split_bools.
    destruct (IHc ltac:(assumption) ltac:(assumption)) as [Hpc Hhc].
    destruct (IHt ltac:(assumption) ltac:(assumption)) as [Hpt Hht].
    destruct (IHf ltac:(assumption) ltac:(assumption)) as [Hpf Hhf].
    split.
    + apply parses_Ternary; auto;
        eapply level_of_branch; eauto.
    + apply (heads_app (e := c)); [assumption|].
      intros H10. unfold level in H10. cbn in H10. lia.
  - (* Member *)
    intros b field tb _ IH Hwf Hcf.
    cbn [wf comprehension_free] in Hwf, Hcf. split_bools.
    destruct (IH ltac:(assumption) ltac:(assumption)) as [Hp Hh].
    pose proof (level_of_receiver _ ltac:(eassumption)) as Hl.
    split.
    + apply parses_of_postfix; [unfold level; cbn; lia|now apply parses_Member].
    + apply (heads_app (e := b)); auto.
  - (* Index *)
    intros b k tb tk _ IHb _ IHk Hwf Hcf.
    cbn [wf comprehension_free] in Hwf, Hcf. split_bools.
    destruct (IHb ltac:(assumption) ltac:(assumption)) as [Hpb Hhb].
    destruct (IHk ltac:(assumption) ltac:(assumption)) as [Hpk Hhk].
    pose proof (level_of_receiver _ ltac:(eassumption)) as Hl.
    split.
    + apply parses_of_postfix; [unfold level; cbn; lia|now apply parses_Index].
    + apply (heads_app (e := b)); auto.
  - (* Call *)
    intros fn args ta _ IH Hwf Hcf.
    cbn [wf comprehension_free] in Hwf, Hcf. split_bools.
    split.
    + apply parses_of_primary; [unfold level; cbn; lia|apply parses_Call; auto|].
      eexists _, _. repeat split; discriminate.
    + apply heads_cons; (reflexivity || discriminate).
  - (* Method *)
    intros r fn args tr ta _ IHr _ IHa Hwf Hcf.
    cbn [wf comprehension_free] in Hwf, Hcf. split_bools.
    destruct (IHr ltac:(assumption) ltac:(assumption)) as [Hpr Hhr].
    pose proof (level_of_receiver _ ltac:(eassumption)) as Hl.
    split.
    + apply parses_of_postfix; [unfold level; cbn; lia|apply parses_Method; auto].
    + apply (heads_app (e := r)); auto.
  - (* ListLit *)
    intros elems te _ IH Hwf Hcf.
    cbn [wf comprehension_free] in Hwf, Hcf.
    split.
    + apply parses_of_primary; [unfold level; cbn; lia|apply parses_ListLit; auto|].
      eexists _, _. repeat split; discriminate.
    + apply heads_cons; (reflexivity || discriminate).
  - (* MapLit *)
    intros entries te _ IH Hwf Hcf.
    cbn [wf comprehension_free] in Hwf, Hcf.
    split.
    + apply parses_of_primary; [unfold level; cbn; lia|apply parses_MapLit; auto|].
      eexists _, _. repeat split; discriminate.
    + apply heads_cons; (reflexivity || discriminate).
  - (* StructLit *)
    intros name fields tf _ IH Hwf Hcf.
    cbn [wf comprehension_free] in Hwf, Hcf. split_bools.
    split.
    + apply parses_of_primary; [unfold level; cbn; lia|apply parses_StructLit; auto|].
      eexists _, _. repeat split; discriminate.
    + apply heads_cons; (reflexivity || discriminate).
  - (* Grouping *)
    intros x tx _ IH Hwf Hcf.
    cbn [wf comprehension_free] in Hwf, Hcf.
    destruct (IH Hwf Hcf) as [Hp Hh].
    split.
    + apply parses_of_primary; [unfold level; cbn; lia|now apply parses_Grouping|].
      eexists _, _. repeat split; discriminate.
    + apply heads_cons; (reflexivity || discriminate).
  - (* no items *)
    intros _ _. apply parses_items_none.
  - intros x tx _ IH Hwf Hcf. cbn [forallb] in Hwf, Hcf. split_bools.
    destruct (IH ltac:(assumption) ltac:(assumption)).
    now apply parses_items_last.
  - intros x tx _ IH Hwf Hcf. cbn [forallb] in Hwf, Hcf. split_bools.
    destruct (IH ltac:(assumption) ltac:(assumption)).
    now apply parses_items_last_comma.
  - intros x y ys tx tys _ IHx _ IHys Hwf Hcf.
    change (forallb wf (x :: y :: ys)) with (wf x && forallb wf (y :: ys)) in Hwf.
    change (forallb comprehension_free (x :: y :: ys))
      with (comprehension_free x && forallb comprehension_free (y :: ys)) in Hcf.
    split_bools.
    destruct (IHx ltac:(assumption) ltac:(assumption)).
    apply parses_items_more; auto.
  - intros _ _. apply parses_entries_none.
  - intros k v tk tv _ IHk _ IHv Hwf Hcf.
    cbn [forallb] in Hwf, Hcf. unfold pair_wf, pair_free in Hwf, Hcf.
    cbn [fst snd] in Hwf, Hcf. split_bools.
    destruct (IHk ltac:(assumption) ltac:(assumption)).
    destruct (IHv ltac:(assumption) ltac:(assumption)).
    now apply parses_entries_last.
  - intros k v tk tv _ IHk _ IHv Hwf Hcf.
    cbn [forallb] in Hwf, Hcf. unfold pair_wf, pair_free in Hwf, Hcf.
    cbn [fst snd] in Hwf, Hcf. split_bools.
    destruct (IHk ltac:(assumption) ltac:(assumption)).
    destruct (IHv ltac:(assumption) ltac:(assumption)).
    now apply parses_entries_last_comma.
  - intros k v kv kvs tk tv tkvs _ IHk _ IHv _ IHn Hwf Hcf.
    change (forallb pair_wf ((k, v) :: kv :: kvs))
      with (pair_wf (k, v) && forallb pair_wf (kv :: kvs)) in Hwf.
    change (forallb pair_free ((k, v) :: kv :: kvs))
      with (pair_free (k, v) && forallb pair_free (kv :: kvs)) in Hcf.
    unfold pair_wf at 1 in Hwf. unfold pair_free at 1 in Hcf.
    cbn [fst snd] in Hwf, Hcf. split_bools.
    destruct (IHk ltac:(assumption) ltac:(assumption)).
    destruct (IHv ltac:(assumption) ltac:(assumption)).
    apply parses_entries_more; auto.
Qed.

Lemma spells_parse_tokens e ts :
  spells e ts -> wf e = true -> comprehension_free e = true ->
  parse_tokens ts = Some e.
Proof.
  intros Hs Hwf Hcf.
  destruct (proj1 spells_parse_all e ts Hs Hwf Hcf) as [(He & _) _].
  unfold parse_tokens, parse_fuel.
  pose proof (He [] (32 * List.length ts + 32)%nat I ltac:(lia)) as E.
  rewrite app_nil_r in E. now rewrite E.
Qed.

(* ===================================================================== *)
(** * The lexer reads the formatted text back                            *)
(* ===================================================================== *)

(** ** Composition *)

Lemma lexes_app (P Q : string -> bool) a b ta tb :
  lexes_before Q a ta -> lexes_before P b tb ->
  (forall rest, P rest = true -> Q (b ++ rest) = true) ->
  lexes_before P (a ++ b) (ta ++ tb).
Proof.
  intros Ha Hb Hfollow rest ts' HP Hrest.
  rewrite append_assoc, <- app_assoc.
  apply Ha; [now apply Hfollow|]. now apply Hb.
Qed.

Lemma lexes_weaken (P Q : string -> bool) s ts :
  lexes_before Q s ts -> (forall rest, P rest = true -> Q rest = true) ->
  lexes_before P s ts.
Proof. intros H Himp rest ts' HP. apply H. now apply Himp. Qed.

Lemma lexes_empty P : lexes_before P "" [].
Proof. intros rest ts' _ H. exact H. Qed.

(** ** White space *)

Lemma lex_blank w rest : blank w = true -> lex (w ++ rest) = lex rest.
Proof.
  unfold blank. induction w as [|c w IH]; [reflexivity|].
  cbn [all_chars]. rewrite andb_true_iff. intros [Hc Hw].
  cbn [append]. rewrite lex_cons, Hc. now apply IH.
Qed.

Lemma lexes_blank P w : blank w = true -> lexes_before P w [].
Proof. intros Hw rest ts' _ H. now rewrite lex_blank. Qed.

Lemma blank_app a b : blank a = true -> blank b = true -> blank (a ++ b) = true.
Proof. unfold blank. intros Ha Hb. now rewrite all_chars_app, Ha, Hb. Qed.

Lemma blank_repeat n s : blank s = true -> blank (repeat_string n s) = true.
Proof.
  intros Hs. induction n as [|n IH]; [reflexivity|].
  cbn [repeat_string]. now apply blank_app.
Qed.

Lemma blank_indent_unit o : blank (indent_unit o) = true.
Proof.
  unfold indent_unit. destruct (use_tabs o); [reflexivity|].
  now apply blank_repeat.
Qed.

Lemma blank_break o d :
  blank (newline ++ repeat_string d (indent_unit o)) = true.
Proof. apply blank_app; [reflexivity|]. apply blank_repeat, blank_indent_unit. Qed.

Lemma delimited_blank w rest :
  blank w = true -> w <> "" -> delimited (w ++ rest) = true.
Proof.
  destruct w as [|c w]; [congruence|]. unfold blank. cbn [all_chars].
  rewrite andb_true_iff. intros [Hc _] _. cbn [append delimited].
  now rewrite Hc.
Qed.

Lemma delimited_after_blank w rest :
  blank w = true -> delimited rest = true -> delimited (w ++ rest) = true.
Proof.
  intros Hw Hr. destruct w as [|c w]; [exact Hr|].
  now apply delimited_blank.
Qed.

Lemma unequal_blank w rest :
  blank w = true -> w <> "" -> unequal (w ++ rest) = true.
Proof.
  destruct w as [|c w]; [congruence|]. unfold blank. cbn [all_chars].
  rewrite andb_true_iff. intros [Hc _] _. cbn [append].
  destruct c as [[] [] [] [] [] [] [] []]; try reflexivity; discriminate.
Qed.

(** ** One token *)

Lemma lex_token c rest t rest' ts' :
  is_space c = false -> next_token c rest = Some (t, rest') ->
  lex rest' = Some ts' -> lex (String c rest) = Some (t :: ts').
Proof. intros H1 H2 H3. now rewrite lex_cons, H1, H2, H3. Qed.

Lemma span_app p a rest :
  all_chars p a = true -> stops p rest = true -> span p (a ++ rest) = (a, rest).
Proof.
  intros Ha Hr. induction a as [|c a IH].
  - cbn [append]. destruct rest as [|c r]; [reflexivity|].
    cbn [stops] in Hr. apply negb_true_iff in Hr. cbn [span]. now rewrite Hr.
  - cbn [all_chars] in Ha. apply andb_true_iff in Ha as [Hc Ha].
    cbn [append]. rewrite span_cons by assumption. now rewrite IH.
Qed.

Lemma ident_start_not_digit c : is_ident_start c = true -> is_digit c = false.
Proof.
  unfold is_ident_start, is_digit.
  rewrite !orb_true_iff, !andb_true_iff, !Nat.leb_le, Nat.eqb_eq.
  intros H. apply andb_false_iff. rewrite !Nat.leb_gt. lia.
Qed.

Lemma delimited_stops rest :
  delimited rest = true -> stops is_ident_char rest = true.
Proof.
  destruct rest as [|c r]; [reflexivity|].
  destruct c as [[] [] [] [] [] [] [] []]; try reflexivity; discriminate.
Qed.

Lemma delimited_unquoted rest :
  delimited rest = true -> starts_with_quote rest = false.
Proof.
  destruct rest as [|c r]; [reflexivity|].
  destruct c as [[] [] [] [] [] [] [] []]; try reflexivity; discriminate.
Qed.

Lemma delimited_stops_word rest :
  delimited rest = true -> stops_word rest = true.
Proof.
  intros H. unfold stops_word.
  now rewrite delimited_stops, delimited_unquoted.
Qed.

Lemma stops_digit rest :
  stops is_ident_char rest = true -> stops is_digit rest = true.
Proof.
  destruct rest as [|c r]; [reflexivity|]. cbn [stops].
  unfold is_ident_char. rewrite !negb_true_iff, orb_false_iff. now intros [_ H].
Qed.

Lemma spaced_stops_word rest : spaced rest = true -> stops_word rest = true.
Proof.
  destruct rest as [|c r]; [discriminate|]. cbn [spaced].
  destruct c as [[] [] [] [] [] [] [] []]; try reflexivity; discriminate.
Qed.

Lemma spaced_unequal rest : spaced rest = true -> unequal rest = true.
Proof.
  destruct rest as [|c r]; [discriminate|]. cbn [spaced].
  destruct c as [[] [] [] [] [] [] [] []]; try reflexivity; discriminate.
Qed.

Lemma spaced_blank w rest : blank w = true -> w <> "" -> spaced (w ++ rest) = true.
Proof.
  destruct w as [|c w]; [congruence|]. unfold blank. cbn [all_chars].
  rewrite andb_true_iff. now intros [Hc _] _.
Qed.

(** A name. *)
Lemma lexes_word name :
  ident_ok name = true -> lexes_before stops_word name [TIdent name].
Proof.
  intros Hname rest ts' Hstop Hrest.
  destruct name as [|c n]; [discriminate|].
  cbn [ident_ok] in Hname. apply andb_true_iff in Hname as [Hc Hn].
  unfold stops_word in Hstop. apply andb_true_iff in Hstop as [Hs Hq].
  apply negb_true_iff in Hq.
  cbn [append app]. apply lex_token with (rest' := rest); [| |assumption].
  - now apply is_ident_char_plain, is_ident_start_char.
  - unfold next_token. rewrite (@ident_start_not_digit c Hc), Hc.
    change (String c (n ++ rest)) with (String c n ++ rest).
    rewrite span_app; [|cbn [all_chars]; now rewrite is_ident_start_char, Hn|assumption].
    now rewrite Hq, andb_false_r.
Qed.

(** Numbers. *)
Lemma N_of_digits_decimal n : N_of_digits (decimal n) = n.
Proof.
  unfold N_of_digits, decimal.
  rewrite DecimalString.NilEmpty.usu. apply DecimalN.Unsigned.of_to.
Qed.

Lemma decimal_cons n :
  exists c s, decimal n = String c s /\ is_digit c = true
              /\ all_chars is_digit (decimal n) = true.
Proof.
  pose proof (decimal_digits n) as H. apply digits_ok_chars in H as [Hne Hall].
  destruct (decimal n) as [|c s]; [congruence|].
  exists c, s. repeat split; [|assumption].
  cbn [all_chars] in Hall. now apply andb_true_iff in Hall as [Hc _].
Qed.

Lemma number_token_int digits rest :
  delimited rest = true ->
  number_token digits rest = (TInt (N_of_digits digits), rest).
Proof.
  destruct rest as [|c r]; [reflexivity|].
  destruct c as [[] [] [] [] [] [] [] []]; try reflexivity; try discriminate.
  cbn [delimited is_space]. destruct r as [|c' r']; [discriminate|].
  intros H. apply orb_true_iff in H as [H|H]; [discriminate|].
  unfold number_token. cbn [span]. now rewrite (@ident_start_not_digit _ H).
Qed.

Lemma lex_number n after t rest ts' :
  stops is_digit after = true ->
  number_token (decimal n) after = (t, rest) ->
  lex rest = Some ts' ->
  lex (decimal n ++ after) = Some (t :: ts').
Proof.
  intros Hstop Htoken Hrest.
  destruct (decimal_cons n) as (c & s & E & Hc & Hall).
  rewrite E. cbn [append]. apply lex_token with (rest' := rest);
    [now apply is_digit_plain| |assumption].
  unfold next_token. rewrite Hc.
  change (String c (s ++ after)) with (String c s ++ after).
  rewrite <- E, span_app by assumption. now rewrite Htoken.
Qed.

Lemma lexes_int n : lexes_before delimited (decimal n) [TInt n].
Proof.
  intros rest ts' Hd Hrest.
  apply lex_number with (rest := rest);
    [now apply stops_digit, delimited_stops| |assumption].
  now rewrite number_token_int, N_of_digits_decimal.
Qed.

Lemma lexes_uint n : lexes_before anything (decimal n ++ "u") [TUInt n].
Proof.
  intros rest ts' _ Hrest. rewrite append_assoc.
  apply lex_number with (rest := rest); [reflexivity| |assumption].
  cbn [append number_token]. now rewrite N_of_digits_decimal.
Qed.

Lemma lexes_float w fraction :
  digits_ok fraction = true ->
  lexes_before delimited (decimal w ++ "." ++ fraction) [TFloat w fraction].
Proof.
  intros Hf rest ts' Hd Hrest. rewrite append_assoc.
  apply lex_number with (rest := rest); [reflexivity| |assumption].
  apply digits_ok_chars in Hf as [Hne Hall].
  cbn [append]. unfold number_token.
  rewrite span_app; [|assumption|now apply stops_digit, delimited_stops].
  destruct fraction; [congruence|]. now rewrite N_of_digits_decimal.
Qed.

(** Quoted text. *)
Lemma read_string_escaped e s :
  read_string (String backslash (String e s)) =
    match unescape e, read_string s with
    | Some ch, Some (v, rest) => Some (String ch v, rest)
    | _, _ => None
    end.
Proof. reflexivity. Qed.

Lemma read_string_plain c s :
  nat_of_ascii c <> 34%nat -> nat_of_ascii c <> 10%nat ->
  nat_of_ascii c <> 92%nat ->
  read_string (String c s) =
    match read_string s with
    | Some (v, rest) => Some (String c v, rest)
    | None => None
    end.
Proof.
  intros H34 H10 H92. apply Nat.eqb_neq in H34, H10, H92.
  cbn [read_string]. now rewrite H34, H10, H92.
Qed.

Lemma ascii_of_code c n : nat_of_ascii c = n -> ascii_of_nat n = c.
Proof. intros <-. apply ascii_nat_embedding. Qed.

Lemma read_escape v rest : read_string (escape v ++ quote ++ rest) = Some (v, rest).
Proof.
  induction v as [|c v IH]; [reflexivity|].
  cbn [escape].
  destruct (Nat.eqb_spec (nat_of_ascii c) 34) as [E34|N34].
  { cbn [append]. rewrite read_string_escaped, IH.
    unfold unescape. now rewrite E34. }
  destruct (Nat.eqb_spec (nat_of_ascii c) 92) as [E92|N92].
  { cbn [append]. rewrite read_string_escaped, IH.
    unfold unescape. now rewrite E92. }
  destruct (Nat.eqb_spec (nat_of_ascii c) 10) as [E10|N10].
  { cbn [append]. rewrite read_string_escaped, IH.
    change (unescape "n") with (Some (ascii_of_nat 10)).
    now rewrite (@ascii_of_code c _ E10). }
  destruct (Nat.eqb_spec (nat_of_ascii c) 13) as [E13|N13].
  { cbn [append]. rewrite read_string_escaped, IH.
    change (unescape "r") with (Some (ascii_of_nat 13)).
    now rewrite (@ascii_of_code c _ E13). }
  destruct (Nat.eqb_spec (nat_of_ascii c) 9) as [E9|N9].
  { cbn [append]. rewrite read_string_escaped, IH.
    change (unescape "t") with (Some (ascii_of_nat 9)).
    now rewrite (@ascii_of_code c _ E9). }
  cbn [append]. rewrite read_string_plain by assumption. now rewrite IH.
Qed.

Lemma next_token_quote rest :
  next_token (ascii_of_nat 34) rest =
    match read_string rest with
    | Some (v, rest1) => Some (TString v, rest1)
    | None => None
    end.
Proof. reflexivity. Qed.

Lemma next_token_bytes body :
  next_token "b" (String (ascii_of_nat 34) body) =
    match read_string body with
    | Some (v, rest2) => Some (TBytes v, rest2)
    | None => None
    end.
Proof. reflexivity. Qed.

Lemma lexes_string v :
  lexes_before anything (quote ++ escape v ++ quote) [TString v].
Proof.
  intros rest ts' _ Hrest. rewrite !append_assoc.
  change (quote ++ escape v ++ quote ++ rest)
    with (String (ascii_of_nat 34) (escape v ++ quote ++ rest)).
  apply lex_token with (rest' := rest); [reflexivity| |assumption].
  now rewrite next_token_quote, read_escape.
Qed.

Lemma lexes_bytes v :
  lexes_before anything ("b" ++ quote ++ escape v ++ quote) [TBytes v].
Proof.
  intros rest ts' _ Hrest. rewrite !append_assoc.
  change ("b" ++ quote ++ escape v ++ quote ++ rest)
    with (String "b" (String (ascii_of_nat 34) (escape v ++ quote ++ rest))).
  apply lex_token with (rest' := rest); [reflexivity| |assumption].
  now rewrite next_token_bytes, read_escape.
Qed.

(** ** Operators and punctuation *)

Ltac symbol := eapply lex_token; [reflexivity|reflexivity|].

Lemma next_token_spaced c rest t :
  is_space c = false ->
  (forall r, unequal r = true -> next_token c r = Some (t, r)) ->
  spaced rest = true -> next_token c rest = Some (t, rest).
Proof. intros _ H Hs. now apply H, spaced_unequal. Qed.

Lemma next_token_less rest :
  unequal rest = true -> next_token "<" rest = Some (TOp Less, rest).
Proof.
  destruct rest as [|c r]; [reflexivity|].
  destruct c as [[] [] [] [] [] [] [] []]; try reflexivity; discriminate.
Qed.

Lemma next_token_greater rest :
  unequal rest = true -> next_token ">" rest = Some (TOp Greater, rest).
Proof.
  destruct rest as [|c r]; [reflexivity|].
  destruct c as [[] [] [] [] [] [] [] []]; try reflexivity; discriminate.
Qed.

Lemma next_token_bang rest :
  unequal rest = true -> next_token "!" rest = Some (TBang, rest).
Proof.
  destruct rest as [|c r]; [reflexivity|].
  destruct c as [[] [] [] [] [] [] [] []]; try reflexivity; discriminate.
Qed.

Lemma lex_binary op rest ts' :
  spaced rest = true -> lex rest = Some ts' ->
  lex (binary_text op ++ rest) = Some (binary_token op :: ts').
Proof.
  intros Hs Hrest.
  destruct op; cbn [binary_text binary_token append]; try (symbol; assumption).
  - eapply lex_token; [reflexivity| |eassumption].
    now apply next_token_less, spaced_unequal.
  - eapply lex_token; [reflexivity| |eassumption].
    now apply next_token_greater, spaced_unequal.
  - apply (@lexes_word "in" eq_refl rest ts'); [|assumption].
    now apply spaced_stops_word.
Qed.

(** The first token of a spelling can start an expression. *)
Lemma spells_opens e ts :
  spells e ts -> exists t ts', ts = t :: ts' /\ opens t = true.
Proof.
  induction 1;
    repeat match goal with
    | H : exists _ _, _ /\ _ |- _ => destruct H as (? & ? & -> & ?)
    end;
    try (eexists _, _; split; [reflexivity|]; (reflexivity || assumption)).
  - eexists _, _. split; [reflexivity|]. now destruct l as [| | | | |[]|].
  - eexists _, _. split; [reflexivity|]. now destruct op.
Qed.

Lemma next_token_equals r t r' : next_token "=" r = Some (t, r') -> t = TOp Equals.
Proof.
  destruct r as [|c r0]; [discriminate|].
  destruct c as [[] [] [] [] [] [] [] []]; cbn; intros H;
    first [discriminate H | now inversion H].
Qed.

Lemma lex_opens_unequal s t ts :
  lex s = Some (t :: ts) -> opens t = true -> unequal s = true.
Proof.
  destruct s as [|c r]; [reflexivity|].
  destruct (unequal (String c r)) eqn:E; [reflexivity|].
  assert (c = "="%char) as ->.
  { destruct c as [[] [] [] [] [] [] [] []]; try discriminate E. reflexivity. }
  rewrite lex_cons. change (is_space "=") with false. cbv iota.
  destruct (next_token "=" r) as [[t0 r']|] eqn:En; [|discriminate].
  apply next_token_equals in En. subst t0.
  destruct (lex r'); [|discriminate]. intros H. inversion H; subst. discriminate.
Qed.

(** ** Node by node *)

Lemma reads_Literal l : literal_wf l = true -> reads (Literal l) (literal_text l).
Proof.
  intros Hwf. exists [literal_token l]. split; [constructor|].
  destruct l as [z|n|w f|s|s|[]|]; cbn [literal_text literal_token].
  - cbn [literal_wf] in Hwf. apply Z.leb_le in Hwf.
    assert ((z <? 0)%Z = false) as -> by (apply Z.ltb_ge; lia).
    assert (Z.abs_N z = Z.to_N z) as -> by (destruct z; reflexivity || lia).
    apply lexes_int.
  - eapply lexes_weaken; [apply lexes_uint|reflexivity].
  - now apply lexes_float.
  - eapply lexes_weaken; [apply lexes_string|reflexivity].
  - eapply lexes_weaken; [apply lexes_bytes|reflexivity].
  - eapply lexes_weaken; [now apply lexes_word|apply delimited_stops_word].
  - eapply lexes_weaken; [now apply lexes_word|apply delimited_stops_word].
  - eapply lexes_weaken; [now apply lexes_word|apply delimited_stops_word].
Qed.

Lemma reads_Identifier name :
  ident_ok name = true -> reads (Identifier name) name.
Proof.
  intros Hwf. exists [TIdent name]. split; [constructor|].
  eapply lexes_weaken; [now apply lexes_word|apply delimited_stops_word].
Qed.

Lemma reads_Unary op x sx :
  reads x sx -> reads (Unary op x) (unary_text op ++ sx).
Proof.
  intros (tx & Hs & Hx). exists (unary_token op :: tx).
  split; [now constructor|].
  intros rest ts' Hd Hrest. rewrite append_assoc. cbn [app].
  pose proof (Hx rest ts' Hd Hrest) as Hlex.
  destruct op; cbn [unary_text unary_token append].
  - symbol. assumption.
  - eapply lex_token; [reflexivity| |eassumption].
    apply next_token_bang.
    destruct (@spells_opens _ _ Hs) as (t & tx' & -> & Ho).
    eapply lex_opens_unequal; eassumption.
Qed.

Lemma reads_Binary op l r sl sr w1 w2 :
  reads l sl -> reads r sr ->
  blank w1 = true -> w1 <> "" -> blank w2 = true -> w2 <> "" ->
  reads (Binary op l r) (sl ++ w1 ++ binary_text op ++ w2 ++ sr).
Proof.
  intros (tl & Hsl & Hl) (tr & Hsr & Hr) Hw1 Hn1 Hw2 Hn2.
  exists (tl ++ binary_token op :: tr)%list. split; [now constructor|].
  intros rest ts' Hd Hrest.
  rewrite !append_assoc, <- app_assoc. cbn [app].
  apply Hl; [now apply delimited_blank|].
  rewrite lex_blank by assumption.
  apply lex_binary; [now apply spaced_blank|].
  rewrite lex_blank by assumption. now apply Hr.
Qed.

Lemma reads_Ternary c t f sc st sf w1 w2 w3 w4 :
  reads c sc -> reads t st -> reads f sf ->
  blank w1 = true -> w1 <> "" -> blank w2 = true ->
  blank w3 = true -> w3 <> "" -> blank w4 = true ->
  reads (Ternary c t f)
    (sc ++ w1 ++ "?" ++ w2 ++ st ++ w3 ++ ":" ++ w4 ++ sf).
Proof.
  intros (tc & Hsc & Hc) (tt & Hst & Ht) (tf & Hsf & Hf) Hw1 Hn1 Hw2 Hw3 Hn3 Hw4.
  exists (tc ++ TQuestion :: tt ++ TColon :: tf)%list. split; [now constructor|].
  intros rest ts' Hd Hrest.
  rewrite !append_assoc, <- app_assoc. cbn [app]. rewrite <- app_assoc. cbn [app].
  apply Hc; [now apply delimited_blank|].
  rewrite lex_blank by assumption. cbn [append]. symbol.
  rewrite lex_blank by assumption.
  apply Ht; [now apply delimited_blank|].
  rewrite lex_blank by assumption. cbn [append]. symbol.
  rewrite lex_blank by assumption. now apply Hf.
Qed.

Lemma delimited_dot w field rest :
  blank w = true -> ident_ok field = true ->
  delimited (w ++ "." ++ field ++ rest) = true.
Proof.
  intros Hw Hf. apply delimited_after_blank; [assumption|].
  destruct field as [|c n]; [discriminate|].
  cbn [ident_ok] in Hf. apply andb_true_iff in Hf as [Hc _].
  cbn. exact Hc.
Qed.

Lemma reads_Member b field sb w :
  reads b sb -> blank w = true -> ident_ok field = true ->
  reads (Member b field) (sb ++ w ++ "." ++ field).
Proof.
  intros (tb & Hsb & Hb) Hw Hfield.
  exists (tb ++ [TDot; TIdent field])%list. split; [now constructor|].
  intros rest ts' Hd Hrest.
  rewrite !append_assoc, <- app_assoc. cbn [app].
  apply Hb; [now apply delimited_dot|].
  rewrite lex_blank by assumption. cbn [append]. symbol.
  apply (@lexes_word _ Hfield); [now apply delimited_stops_word|assumption].
Qed.

Lemma reads_Index b k sb sk :
  reads b sb -> reads k sk -> reads (Index b k) (sb ++ "[" ++ sk ++ "]").
Proof.
  intros (tb & Hsb & Hb) (tk & Hsk & Hk).
  exists (tb ++ TLBrack :: tk ++ [TRBrack])%list. split; [now constructor|].
  intros rest ts' Hd Hrest.
  rewrite !append_assoc, <- app_assoc. cbn [app]. rewrite <- app_assoc. cbn [app].
  apply Hb; [reflexivity|]. cbn [append]. symbol.
  apply Hk; [reflexivity|]. symbol. assumption.
Qed.

Lemma reads_Grouping x sx : reads x sx -> reads (Grouping x) ("(" ++ sx ++ ")").
Proof.
  intros (tx & Hsx & Hx).
  exists (TLParen :: tx ++ [TRParen])%list. split; [now constructor|].
  intros rest ts' Hd Hrest.
  rewrite !append_assoc. cbn [app]. rewrite <- app_assoc. cbn [app append].
  symbol. apply Hx; [reflexivity|]. symbol. assumption.
Qed.

Lemma reads_Call fn args s w :
  reads_items args s -> blank w = true -> ident_ok fn = true ->
  reads (Call None fn args) (fn ++ "(" ++ s ++ w ++ ")").
Proof.
  intros (ta & Hsa & Ha) Hw Hfn.
  exists (TIdent fn :: TLParen :: ta ++ [TRParen])%list. split; [now constructor|].
  intros rest ts' Hd Hrest.
  rewrite !append_assoc. cbn [app]. rewrite <- app_assoc. cbn [app].
  apply (@lexes_word _ Hfn); [reflexivity|]. cbn [append]. symbol.
  apply Ha; [now apply delimited_after_blank|].
  rewrite lex_blank by assumption. symbol. assumption.
Qed.

Lemma reads_Method r fn args sr s w0 w :
  reads r sr -> reads_items args s ->
  blank w0 = true -> blank w = true -> ident_ok fn = true ->
  reads (Call (Some r) fn args) (sr ++ w0 ++ "." ++ fn ++ "(" ++ s ++ w ++ ")").
Proof.
  intros (tr & Hsr & Hr) (ta & Hsa & Ha) Hw0 Hw Hfn.
  exists (tr ++ TDot :: TIdent fn :: TLParen :: ta ++ [TRParen])%list.
  split; [now constructor|].
  intros rest ts' Hd Hrest.
  rewrite !append_assoc, <- app_assoc. cbn [app]. rewrite <- app_assoc. cbn [app].
  apply Hr; [now apply delimited_dot|].
  rewrite lex_blank by assumption. cbn [append]. symbol.
  apply (@lexes_word _ Hfn); [reflexivity|]. cbn [append]. symbol.
  apply Ha; [now apply delimited_after_blank|].
  rewrite lex_blank by assumption. symbol. assumption.
Qed.

Lemma reads_ListLit elems s w :
  reads_items elems s -> blank w = true ->
  reads (ListLit elems) ("[" ++ s ++ w ++ "]").
Proof.
  intros (ta & Hsa & Ha) Hw.
  exists (TLBrack :: ta ++ [TRBrack])%list. split; [now constructor|].
  intros rest ts' Hd Hrest.
  rewrite !append_assoc. cbn [app]. rewrite <- app_assoc. cbn [app append].
  symbol. apply Ha; [now apply delimited_after_blank|].
  rewrite lex_blank by assumption. symbol. assumption.
Qed.

Lemma reads_MapLit entries s w :
  reads_entries entries s -> blank w = true ->
  reads (MapLit entries) ("{" ++ s ++ w ++ "}").
Proof.
  intros (ta & Hsa & Ha) Hw.
  exists (TLBrace :: ta ++ [TRBrace])%list. split; [now constructor|].
  intros rest ts' Hd Hrest.
  rewrite !append_assoc. cbn [app]. rewrite <- app_assoc. cbn [app append].
  symbol. apply Ha; [now apply delimited_after_blank|].
  rewrite lex_blank by assumption. symbol. assumption.
Qed.

Lemma reads_StructLit name fields s w :
  reads_entries fields s -> blank w = true -> ident_ok name = true ->
  reads (StructLit (Some name) fields) (name ++ "{" ++ s ++ w ++ "}").
Proof.
  intros (ta & Hsa & Ha) Hw Hname.
  exists (TIdent name :: TLBrace :: ta ++ [TRBrace])%list.
  split; [now constructor|].
  intros rest ts' Hd Hrest.
  rewrite !append_assoc. cbn [app]. rewrite <- app_assoc. cbn [app].
  apply (@lexes_word _ Hname); [reflexivity|]. cbn [append]. symbol.
  apply Ha; [now apply delimited_after_blank|].
  rewrite lex_blank by assumption. symbol. assumption.
Qed.

(** ** Sequences *)

Lemma reads_items_none : reads_items [] "".
Proof. exists []. split; [constructor|apply lexes_empty]. Qed.

Lemma reads_items_last x s : reads x s -> reads_items [x] s.
Proof. intros (tx & Hs & Hx). exists tx. split; [now constructor|assumption]. Qed.

Lemma reads_items_last_comma x s : reads x s -> reads_items [x] (s ++ ",").
Proof.
  intros (tx & Hs & Hx). exists (tx ++ [TComma])%list. split; [now constructor|].
  intros rest ts' Hd Hrest. rewrite append_assoc, <- app_assoc. cbn [app].
  apply Hx; [reflexivity|]. symbol. assumption.
Qed.

Lemma reads_items_more x y ys s s' :
  reads x s -> reads_items (y :: ys) s' ->
  reads_items (x :: y :: ys) (s ++ "," ++ s').
Proof.
  intros (tx & Hs & Hx) (tys & Hss & Hys).
  exists (tx ++ TComma :: tys)%list. split; [now constructor|].
  intros rest ts' Hd Hrest. rewrite !append_assoc, <- app_assoc. cbn [app].
  apply Hx; [reflexivity|]. cbn [append]. symbol. now apply Hys.
Qed.

Lemma reads_items_blank xs w s :
  blank w = true -> reads_items xs s -> reads_items xs (w ++ s).
Proof.
  intros Hw (ts & Hs & Hx). exists ts. split; [assumption|].
  intros rest ts' Hd Hrest. rewrite append_assoc, lex_blank by assumption.
  now apply Hx.
Qed.

Lemma reads_entries_none : reads_entries [] "".
Proof. exists []. split; [constructor|apply lexes_empty]. Qed.

Lemma reads_entries_last k v sk sv w :
  reads k sk -> reads v sv -> blank w = true ->
  reads_entries [(k, v)] (sk ++ ":" ++ w ++ sv).
Proof.
  intros (tk & Hsk & Hk) (tv & Hsv & Hv) Hw.
  exists (tk ++ TColon :: tv)%list. split; [now constructor|].
  intros rest ts' Hd Hrest. rewrite !append_assoc, <- app_assoc. cbn [app].
  apply Hk; [reflexivity|]. cbn [append]. symbol.
  rewrite lex_blank by assumption. now apply Hv.
Qed.

Lemma reads_entries_last_comma k v sk sv w :
  reads k sk -> reads v sv -> blank w = true ->
  reads_entries [(k, v)] (sk ++ ":" ++ w ++ sv ++ ",").
Proof.
  intros (tk & Hsk & Hk) (tv & Hsv & Hv) Hw.
  exists (tk ++ TColon :: tv ++ [TComma])%list. split; [now constructor|].
  intros rest ts' Hd Hrest.
  rewrite !append_assoc, <- app_assoc. cbn [app]. rewrite <- app_assoc. cbn [app].
  apply Hk; [reflexivity|]. cbn [append]. symbol.
  rewrite lex_blank by assumption.
  apply Hv; [reflexivity|]. symbol. assumption.
Qed.

Lemma reads_entries_more k v kv kvs sk sv w s' :
  reads k sk -> reads v sv -> blank w = true ->
  reads_entries (kv :: kvs) s' ->
  reads_entries ((k, v) :: kv :: kvs) (sk ++ ":" ++ w ++ sv ++ "," ++ s').
Proof.
  intros (tk & Hsk & Hk) (tv & Hsv & Hv) Hw (tn & Hsn & Hn).
  exists (tk ++ TColon :: tv ++ TComma :: tn)%list. split; [now constructor|].
  intros rest ts' Hd Hrest.
  rewrite !append_assoc, <- app_assoc. cbn [app]. rewrite <- app_assoc. cbn [app].
  apply Hk; [reflexivity|]. cbn [append]. symbol.
  rewrite lex_blank by assumption.
  apply Hv; [reflexivity|]. cbn [append]. symbol. now apply Hn.
Qed.

Lemma reads_entries_blank kvs w s :
  blank w = true -> reads_entries kvs s -> reads_entries kvs (w ++ s).
Proof.
  intros Hw (ts & Hs & Hx). exists ts. split; [assumption|].
  intros rest ts' Hd Hrest. rewrite append_assoc, lex_blank by assumption.
  now apply Hx.
Qed.

(** ** The text of groups of lines *)

Lemma blank_line_break o d : blank (line_break o d) = true.
Proof. apply blank_break. Qed.

Lemma line_break_nonempty o d : line_break o d <> "".
Proof. discriminate. Qed.

Lemma body_single o d s : body o [{| depth := d; text := s |}] = s.
Proof. cbn. apply append_empty_r. Qed.

Lemma body_rest_app o a b :
  body_rest o (a ++ b) = body_rest o a ++ body_rest o b.
Proof.
  induction a as [|l a IH]; [reflexivity|].
  cbn [app body_rest]. now rewrite IH, !append_assoc.
Qed.

Lemma body_app o a b : a <> [] -> body o (a ++ b) = body o a ++ body_rest o b.
Proof.
  destruct a as [|l a]; [congruence|]. intros _.
  cbn [app body]. now rewrite body_rest_app, append_assoc.
Qed.

Lemma body_rest_first o d ls :
  first_depth d ls -> body_rest o ls = line_break o d ++ body o ls.
Proof.
  intros (l & rest & -> & <-). cbn [body_rest body]. unfold line_string, line_break.
  now rewrite !append_assoc.
Qed.

Lemma first_depth_nonempty d ls : first_depth d ls -> ls <> [].
Proof. intros (l & rest & -> & _). discriminate. Qed.

Lemma body_prepend_first o p ls :
  ls <> [] -> body o (prepend_first p ls) = p ++ body o ls.
Proof.
  destruct ls as [|l rest]; [congruence|]. intros _.
  cbn [prepend_first body text]. now rewrite append_assoc.
Qed.

Lemma body_rest_append_last o s ls :
  ls <> [] -> body_rest o (append_last s ls) = body_rest o ls ++ s.
Proof.
  induction ls as [|l [|l' rest] IH]; [congruence| |]; intros _.
  - cbn [append_last body_rest]. unfold line_string. cbn [depth text].
    rewrite !append_assoc, !append_empty_r. reflexivity.
  - change (append_last s (l :: l' :: rest))
      with (l :: append_last s (l' :: rest)).
    cbn [body_rest] in *. rewrite IH by discriminate.
    now rewrite !append_assoc.
Qed.

Lemma body_append_last o s ls :
  ls <> [] -> body o (append_last s ls) = body o ls ++ s.
Proof.
  destruct ls as [|l [|l' rest]]; [congruence| |]; intros _.
  - cbn [append_last body text body_rest].
    now rewrite !append_assoc, !append_empty_r.
  - change (append_last s (l :: l' :: rest))
      with (l :: append_last s (l' :: rest)).
    cbn [body]. rewrite body_rest_append_last by discriminate.
    now rewrite !append_assoc.
Qed.

Lemma append_last_nonempty s ls : ls <> [] -> append_last s ls <> [].
Proof. destruct ls as [|l [|l' rest]]; [congruence|discriminate|discriminate]. Qed.

Lemma prepend_first_nonempty p ls : ls <> [] -> prepend_first p ls <> [].
Proof. destruct ls; [congruence|discriminate]. Qed.

Lemma body_glue o sep a b :
  a <> [] -> b <> [] -> body o (glue sep a b) = body o a ++ sep ++ body o b.
Proof.
  intros Ha Hb. destruct b as [|f rest]; [congruence|].
  cbn [glue]. rewrite body_app by now apply append_last_nonempty.
  rewrite body_append_last by assumption.
  cbn [body]. now rewrite !append_assoc.
Qed.

Lemma body_wrap_parens o ls :
  ls <> [] -> body o (wrap_parens ls) = "(" ++ body o ls ++ ")".
Proof.
  intros H. unfold wrap_parens.
  rewrite body_append_last by now apply prepend_first_nonempty.
  rewrite body_prepend_first by assumption. now rewrite append_assoc.
Qed.

Lemma body_bracketed o d opener closer tc groups :
  body o (bracketed d opener closer tc groups)
  = opener ++ body_rest o (separated tc groups) ++ line_break o d ++ closer.
Proof.
  unfold bracketed. cbn [body text]. rewrite body_rest_app.
  cbn [body_rest]. unfold line_string, line_break. cbn [depth text].
  now rewrite !append_assoc, !append_empty_r.
Qed.

Lemma render_ne o d e : render o d e <> [].
Proof. apply nonempty_length, render_nonempty. Qed.

Lemma break_node_ne o d e : break_node o d e <> [].
Proof. apply nonempty_length, break_node_nonempty. Qed.

Lemma operand_lines_plain o d s e :
  needs_parens e s = false -> operand_lines o d s e = render o d e.
Proof. unfold operand_lines. now intros ->. Qed.

Lemma chain_left_cases o d op l :
  needs_parens l (binary_slot op LeftOperand) = false ->
  chain_left o d op l = break_node o d l \/ chain_left o d op l = render o d l.
Proof.
  intros H. destruct l; try (right; cbn [chain_left]; now apply operand_lines_plain).
  cbn [chain_left]. destruct (same_rung op op0); [now left|right].
  now apply operand_lines_plain.
Qed.

(** ** Sequences of elements and entries *)

Lemma render_reads o e :
  reads e (single_line e) -> (forall d, reads e (body o (break_node o d e))) ->
  forall d, reads e (body o (render o d e)).
Proof.
  intros Hs Hb d. unfold render. destruct (fits o d (single_line e)).
  - now rewrite body_single.
  - apply Hb.
Qed.

Lemma reads_items_join args :
  Forall (fun x => reads x (single_line x)) args ->
  reads_items args (join ", " (map single_line args)).
Proof.
  induction 1 as [|x args Hx Hargs IH]; [apply reads_items_none|].
  destruct args as [|y ys]; [now apply reads_items_last|].
  change (join ", " (map single_line (x :: y :: ys)))
    with (single_line x ++ "," ++ " " ++ join ", " (map single_line (y :: ys))).
  apply reads_items_more; [assumption|].
  now apply reads_items_blank.
Qed.

Lemma reads_items_separated o d tc args :
  Forall (fun x => reads x (body o (render o d x))) args ->
  reads_items args (body_rest o (separated tc (map (render o d) args))).
Proof.
  induction 1 as [|x args Hx Hargs IH]; [apply reads_items_none|].
  destruct args as [|y ys].
  - cbn [map separated]. destruct tc.
    + rewrite body_rest_append_last by apply render_ne.
      rewrite (body_rest_first o (render_first_depth o d x)), append_assoc.
      apply reads_items_blank; [apply blank_line_break|].
      now apply reads_items_last_comma.
    + rewrite (body_rest_first o (render_first_depth o d x)).
      apply reads_items_blank; [apply blank_line_break|].
      now apply reads_items_last.
  - change (separated tc (map (render o d) (x :: y :: ys)))
      with (append_last "," (render o d x)
            ++ separated tc (map (render o d) (y :: ys)))%list.
    rewrite body_rest_app, body_rest_append_last by apply render_ne.
    rewrite (body_rest_first o (render_first_depth o d x)), !append_assoc.
    apply reads_items_blank; [apply blank_line_break|].
    now apply reads_items_more.
Qed.

Lemma reads_entries_join kvs :
  Forall (fun kv => reads_entry kv (entry_text kv)) kvs ->
  reads_entries kvs (join ", " (map entry_text kvs)).
Proof.
  induction 1 as [|[k v] kvs Hkv Hkvs IH]; [apply reads_entries_none|].
  destruct Hkv as (sk & sv & E & Hk & Hv). cbn [fst snd] in Hk, Hv.
  destruct kvs as [|kv' kvs].
  - cbn [map join]. rewrite E.
    now apply reads_entries_last with (w := " ").
  - change (join ", " (map entry_text ((k, v) :: kv' :: kvs)))
      with (entry_text (k, v) ++ ", " ++ join ", " (map entry_text (kv' :: kvs))).
    rewrite E, !append_assoc.
    apply reads_entries_more with (w := " "); [assumption|assumption|reflexivity|].
    now apply (@reads_entries_blank (kv' :: kvs) " ").
Qed.

Lemma entry_lines_first_depth o d kv : first_depth d (entry_lines o d kv).
Proof.
  unfold entry_lines. destruct (fits o d _); [apply first_depth_single|].
  apply first_depth_glue, render_first_depth.
Qed.

Lemma entry_lines_reads o d kv :
  reads (fst kv) (single_line (fst kv)) ->
  reads (snd kv) (single_line (snd kv)) ->
  (forall d, reads (fst kv) (body o (render o d (fst kv)))) ->
  (forall d, reads (snd kv) (body o (render o d (snd kv)))) ->
  reads_entry kv (body o (entry_lines o d kv)).
Proof.
  intros Hk Hv Bk Bv. unfold entry_lines. destruct (fits o d _).
  - rewrite body_single. now exists (single_line (fst kv)), (single_line (snd kv)).
  - rewrite body_glue by apply render_ne.
    now exists (body o (render o d (fst kv))), (body o (render o d (snd kv))).
Qed.

Lemma reads_entries_separated o d tc kvs :
  Forall (fun kv => reads_entry kv (body o (entry_lines o d kv))) kvs ->
  reads_entries kvs (body_rest o (separated tc (map (entry_lines o d) kvs))).
Proof.
  assert (Hne : forall kv, entry_lines o d kv <> []).
  { intros kv. eapply first_depth_nonempty, entry_lines_first_depth. }
  induction 1 as [|[k v] kvs Hkv Hkvs IH]; [apply reads_entries_none|].
  destruct Hkv as (sk & sv & E & Hk & Hv). cbn [fst snd] in Hk, Hv.
  destruct kvs as [|kv' kvs].
  - cbn [map separated]. destruct tc.
    + rewrite body_rest_append_last by apply Hne.
      rewrite (body_rest_first o (entry_lines_first_depth o d (k, v))), E.
      rewrite !append_assoc.
      apply reads_entries_blank; [apply blank_line_break|].
      now apply reads_entries_last_comma with (w := " ").
    + rewrite (body_rest_first o (entry_lines_first_depth o d (k, v))), E.
      apply reads_entries_blank; [apply blank_line_break|].
      now apply reads_entries_last with (w := " ").
  - change (separated tc (map (entry_lines o d) ((k, v) :: kv' :: kvs)))
      with (append_last "," (entry_lines o d (k, v))
            ++ separated tc (map (entry_lines o d) (kv' :: kvs)))%list.
    rewrite body_rest_app, body_rest_append_last by apply Hne.
    rewrite (body_rest_first o (entry_lines_first_depth o d (k, v))), E.
    rewrite !append_assoc.
    apply reads_entries_blank; [apply blank_line_break|].
    now apply reads_entries_more with (w := " ").
Qed.

(** ** Both layouts of a tree are read back *)

Lemma single_line_Call fn args :
  single_line (Call None fn args)
  = fn ++ "(" ++ join ", " (map single_line args) ++ ")".
Proof. reflexivity. Qed.

Lemma single_line_Method r fn args :
  single_line (Call (Some r) fn args)
  = paren_if (needs_parens r receiver_slot) (single_line r) ++ "." ++ fn
    ++ "(" ++ join ", " (map single_line args) ++ ")".
Proof. reflexivity. Qed.

Lemma single_line_ListLit elems :
  single_line (ListLit elems) = "[" ++ join ", " (map single_line elems) ++ "]".
Proof. reflexivity. Qed.

Lemma single_line_MapLit entries :
  single_line (MapLit entries) = "{" ++ join ", " (map entry_text entries) ++ "}".
Proof. reflexivity. Qed.

Lemma single_line_StructLit t fields :
  single_line (StructLit t fields)
  = type_prefix t ++ "{" ++ join ", " (map entry_text fields) ++ "}".
Proof. reflexivity. Qed.

Lemma readable_render o e :
  readable o e -> wf e = true -> comprehension_free e = true ->
  forall d, reads e (body o (render o d e)).
Proof. intros H Hwf Hcf. destruct (H Hwf Hcf). now apply render_reads. Qed.

Lemma readable_single o e :
  readable o e -> wf e = true -> comprehension_free e = true ->
  reads e (single_line e).
Proof. intros H Hwf Hcf. now destruct (H Hwf Hcf). Qed.

Lemma readable_items o args :
  Forall (readable o) args ->
  forallb wf args = true -> forallb comprehension_free args = true ->
  Forall (fun x => reads x (single_line x)) args
  /\ forall d, Forall (fun x => reads x (body o (render o d x))) args.
Proof.
  induction 1 as [|x args Hx Hargs IH]; [intros _ _; split; constructor|].
  cbn [forallb]. rewrite !andb_true_iff. intros [Hwf Hwfs] [Hcf Hcfs].
  destruct (IH Hwfs Hcfs) as [IH1 IH2]. split.
  - constructor; [now apply (readable_single Hx)|assumption].
  - intros d. constructor; [now apply (readable_render Hx)|apply IH2].
Qed.

Lemma readable_entries o kvs :
  Forall (fun kv => readable o (fst kv) /\ readable o (snd kv)) kvs ->
  forallb pair_wf kvs = true -> forallb pair_free kvs = true ->
  Forall (fun kv => reads_entry kv (entry_text kv)) kvs
  /\ forall d, Forall (fun kv => reads_entry kv (body o (entry_lines o d kv))) kvs.
Proof.
  induction 1 as [|kv kvs [Hk Hv] Hkvs IH]; [intros _ _; split; constructor|].
  cbn [forallb]. unfold pair_wf at 1, pair_free at 1.
  rewrite !andb_true_iff. intros [[Hwk Hwv] Hwfs] [[Hck Hcv] Hcfs].
  destruct (IH Hwfs Hcfs) as [IH1 IH2].
  pose proof (readable_single Hk Hwk Hck) as Sk.
  pose proof (readable_single Hv Hwv Hcv) as Sv.
  pose proof (readable_render Hk Hwk Hck) as Bk.
  pose proof (readable_render Hv Hwv Hcv) as Bv.
  split.
  - constructor; [|assumption].
    now exists (single_line (fst kv)), (single_line (snd kv)).
  - intros d. constructor; [now apply entry_lines_reads|apply IH2].
Qed.

Lemma blank_empty : blank "" = true.
Proof. reflexivity. Qed.

Lemma blank_space : blank " " = true.
Proof. reflexivity. Qed.

Lemma space_nonempty : " " <> "".
Proof. discriminate. Qed.

Create HintDb layout.

#[local] Hint Resolve blank_empty blank_space space_nonempty blank_line_break
  line_break_nonempty render_ne break_node_ne : layout.

Ltac plain_operands :=
  repeat match goal with
  | H : needs_parens _ _ = false |- _ => rewrite H; clear H
  end;
  cbn [paren_if].

Lemma readable_all o e : readable o e.
Proof.
  induction e using expr_induction; intros Hwf Hcf;
    cbn [wf comprehension_free] in Hwf, Hcf; split_bools.
  - (* Literal *)
    split; [now apply reads_Literal|]. intros d.
    cbn [break_node]. rewrite body_single. now apply reads_Literal.
  - (* Identifier *)
    pose proof (@plain_name_ident _ Hwf) as Hn.
    split; [now apply reads_Identifier|]. intros d.
    cbn [break_node]. rewrite body_single. now apply reads_Identifier.
  - (* Unary *)
    pose proof (readable_single IHe ltac:(assumption) ltac:(assumption)) as Sx.
    pose proof (readable_render IHe ltac:(assumption) ltac:(assumption)) as Bx.
    split.
    + cbn [single_line]. plain_operands. now apply reads_Unary.
    + intros d. rewrite break_node_Unary, operand_lines_plain by assumption.
      rewrite body_prepend_first by auto with layout. now apply reads_Unary.
  - (* Binary *)
    pose proof (readable_single IHe1 ltac:(assumption) ltac:(assumption)) as Sl.
    pose proof (readable_render IHe1 ltac:(assumption) ltac:(assumption)) as Bl.
    pose proof (readable_single IHe2 ltac:(assumption) ltac:(assumption)) as Sr.
    pose proof (readable_render IHe2 ltac:(assumption) ltac:(assumption)) as Br.
    destruct (IHe1 ltac:(assumption) ltac:(assumption)) as [_ Kl].
    split.
    + rewrite single_line_Binary.
      plain_operands. apply reads_Binary with (w1 := " ") (w2 := " ");
        auto with layout.
    + intros d. rewrite break_node_Binary.
      rewrite (operand_lines_plain o (S d)) by assumption.
      assert (Hleft : chain_left o d op e1 <> []
                      /\ reads e1 (body o (chain_left o d op e1))).
      { destruct (@chain_left_cases o d op e1 ltac:(assumption)) as [-> | ->];
          split; auto with layout. }
      destruct Hleft as [Hne Hleft].
      rewrite body_app by now apply append_last_nonempty.
      rewrite body_append_last by assumption.
      rewrite (body_rest_first o (render_first_depth o (S d) e2)).
      rewrite !append_assoc.
      apply reads_Binary with (w1 := " "); auto with layout.
  - (* Ternary *)
    pose proof (readable_single IHe1 ltac:(assumption) ltac:(assumption)) as Sc.
    pose proof (readable_render IHe1 ltac:(assumption) ltac:(assumption)) as Bc.
    pose proof (readable_single IHe2 ltac:(assumption) ltac:(assumption)) as St.
    pose proof (readable_render IHe2 ltac:(assumption) ltac:(assumption)) as Bt.
    pose proof (readable_single IHe3 ltac:(assumption) ltac:(assumption)) as Sf.
    pose proof (readable_render IHe3 ltac:(assumption) ltac:(assumption)) as Bf.
    split.
    + cbn [single_line].
      plain_operands.
      apply reads_Ternary with (w1 := " ") (w2 := " ") (w3 := " ") (w4 := " ");
        auto with layout.
    + intros d. rewrite break_node_Ternary.
      rewrite !operand_lines_plain by assumption.
      rewrite !body_app, !body_rest_app by auto with layout.
      rewrite (body_rest_first o (d := S d) (ls := prepend_first "? " _))
        by apply first_depth_prepend_first, render_first_depth.
      rewrite (body_rest_first o (d := S d) (ls := prepend_first ": " _))
        by apply first_depth_prepend_first, render_first_depth.
      rewrite !body_prepend_first by auto with layout.
      rewrite !append_assoc.
      apply reads_Ternary with (w1 := line_break o (S d)) (w2 := " ")
                               (w3 := line_break o (S d)) (w4 := " ");
        auto with layout.
  - (* Member *)
    pose proof (readable_single IHe ltac:(assumption) ltac:(assumption)) as Sb.
    pose proof (readable_render IHe ltac:(assumption) ltac:(assumption)) as Bb.
    split.
    + cbn [single_line]. plain_operands.
      apply reads_Member with (w := ""); auto with layout.
    + intros d. rewrite break_node_Member, operand_lines_plain by assumption.
      rewrite body_append_last by auto with layout.
      apply reads_Member with (w := ""); auto with layout.
  - (* Index *)
    pose proof (readable_single IHe1 ltac:(assumption) ltac:(assumption)) as Sb.
    pose proof (readable_render IHe1 ltac:(assumption) ltac:(assumption)) as Bb.
    pose proof (readable_single IHe2 ltac:(assumption) ltac:(assumption)) as Sk.
    pose proof (readable_render IHe2 ltac:(assumption) ltac:(assumption)) as Bk.
    split.
    + cbn [single_line]. plain_operands. now apply reads_Index.
    + intros d. rewrite break_node_Index, operand_lines_plain by assumption.
      rewrite body_append_last
        by (apply nonempty_length, length_glue; auto with layout).
      rewrite body_glue by auto with layout.
      rewrite !append_assoc. now apply reads_Index.
  - (* Call *)
    destruct r as [r|].
    + split_bools.
      pose proof (H r eq_refl) as IHr.
      pose proof (readable_single IHr ltac:(assumption) ltac:(assumption)) as Sr.
      pose proof (readable_render IHr ltac:(assumption) ltac:(assumption)) as Br.
      destruct (readable_items H0 ltac:(assumption) ltac:(assumption))
        as [Sargs Bargs].
      assert (Hflat : forall sr w0, reads r sr -> blank w0 = true ->
                reads (Call (Some r) fn args)
                  (sr ++ w0 ++ "." ++ fn ++ "("
                   ++ join ", " (map single_line args) ++ ")")).
      { intros sr w0 Hsr Hw0.
        apply reads_Method with (w := "") (s := join ", " (map single_line args));
          auto with layout. now apply reads_items_join. }
      split.
      * rewrite single_line_Method.
        plain_operands. now apply (Hflat (single_line r) "").
      * intros d. destruct args as [|a args].
        { rewrite break_node_Method_nil, operand_lines_plain by assumption.
          rewrite body_append_last by auto with layout.
          now apply (Hflat (body o (render o d r)) ""). }
        rewrite break_node_Method.
        rewrite operand_lines_plain by assumption.
        match goal with H : needs_parens _ _ = false |- _ => rewrite H end.
        cbn [paren_if].
        destruct (fits o d _).
        { rewrite body_bracketed, !append_assoc.
          apply reads_Method with (w0 := ""); auto with layout.
          apply reads_items_separated, Bargs. }
        rewrite body_app by auto with layout.
        destruct (fits o (S d) _).
        { cbn [body_rest]. unfold line_string. cbn [depth text].
          rewrite !append_assoc, append_empty_r.
          apply (Hflat (body o (render o d r)) (line_break o (S d)));
            auto with layout. }
        rewrite (body_rest_first o (first_depth_bracketed (S d) _ _ _ _)).
        rewrite body_bracketed, !append_assoc.
        apply reads_Method with (w0 := line_break o (S d)); auto with layout.
        apply reads_items_separated, Bargs.
    + split_bools.
      pose proof (@plain_name_ident _ ltac:(eassumption)) as Hfn.
      destruct (readable_items H0 ltac:(assumption) ltac:(assumption))
        as [Sargs Bargs].
      assert (Hflat : reads (Call None fn args) (single_line (Call None fn args))).
      { rewrite single_line_Call.
        apply reads_Call with (w := ""); auto with layout.
        now apply reads_items_join. }
      split; [exact Hflat|].
      intros d. destruct args as [|a args].
      * rewrite break_node_leaf by exact I. now rewrite body_single.
      * rewrite break_node_Call, body_bracketed, !append_assoc.
        apply reads_Call; auto with layout.
        apply reads_items_separated, Bargs.
  - (* ListLit *)
    destruct (readable_items H Hwf Hcf) as [Sargs Bargs].
    assert (Hflat : reads (ListLit elems) (single_line (ListLit elems))).
    { rewrite single_line_ListLit.
      apply reads_ListLit with (w := ""); auto with layout.
      now apply reads_items_join. }
    split; [exact Hflat|].
    intros d. destruct elems as [|a elems].
    + rewrite break_node_leaf by exact I. now rewrite body_single.
    + rewrite break_node_ListLit, body_bracketed.
      apply reads_ListLit; auto with layout.
      apply reads_items_separated, Bargs.
  - (* MapLit *)
    destruct (readable_entries H Hwf Hcf) as [Sargs Bargs].
    assert (Hflat : reads (MapLit entries) (single_line (MapLit entries))).
    { rewrite single_line_MapLit.
      apply reads_MapLit with (w := ""); auto with layout.
      now apply reads_entries_join. }
    split; [exact Hflat|].
    intros d. destruct entries as [|a entries].
    + rewrite break_node_leaf by exact I. now rewrite body_single.
    + rewrite break_node_MapLit, body_bracketed.
      apply reads_MapLit; auto with layout.
      apply reads_entries_separated, Bargs.
  - (* StructLit *)
    destruct t as [name|]; [|discriminate].
    pose proof (@plain_name_ident _ ltac:(eassumption)) as Hname.
    destruct (readable_entries H ltac:(assumption) Hcf) as [Sargs Bargs].
    assert (Hflat : reads (StructLit (Some name) fields)
                      (single_line (StructLit (Some name) fields))).
    { rewrite single_line_StructLit. cbn [type_prefix].
      apply reads_StructLit with (w := ""); auto with layout.
      now apply reads_entries_join. }
    split; [exact Hflat|].
    intros d. destruct fields as [|a fields].
    + rewrite break_node_leaf by exact I. now rewrite body_single.
    + rewrite break_node_StructLit, body_bracketed. cbn [type_prefix].
      rewrite !append_assoc.
      apply reads_StructLit; auto with layout.
      apply reads_entries_separated, Bargs.
  - (* Comprehension *)
    discriminate.
  - (* Grouping *)
    pose proof (readable_single IHe Hwf Hcf) as Sx.
    pose proof (readable_render IHe Hwf Hcf) as Bx.
    split.
    + cbn [single_line]. now apply reads_Grouping.
    + intros d. rewrite break_node_Grouping, body_wrap_parens by auto with layout.
      now apply reads_Grouping.
Qed.

(** ** The formatted text parses back to the tree *)

Lemma output_text_body_rest o ls :
  newline ++ output_text o ls = body_rest o ls ++ newline.
Proof.
  induction ls as [|l ls IH]; [reflexivity|].
  cbn [output_text body_rest]. rewrite !append_assoc. now rewrite <- IH.
Qed.

Lemma output_text_body o ls :
  first_depth 0 ls -> output_text o ls = body o ls ++ newline.
Proof.
  intros (l & rest & -> & Hd). cbn [output_text body].
  rewrite output_text_body_rest. unfold line_string. rewrite Hd.
  cbn [repeat_string]. now rewrite !append_assoc.
Qed.

Lemma format_expr_lexes o e :
  wf e = true -> comprehension_free e = true ->
  exists ts, spells e ts /\ lex (format_expr o e) = Some ts.
Proof.
  intros Hwf Hcf.
  destruct (@readable_render o e (@readable_all o e) Hwf Hcf 0%nat) as (ts & Hs & Hl).
  exists ts. split; [assumption|].
  unfold format_expr. rewrite (@output_text_body o _ (render_first_depth o 0 e)).
  rewrite <- (app_nil_r ts). now apply Hl.
Qed.

Lemma format_expr_parses o e :
  wf e = true -> comprehension_free e = true ->
  parse (format_expr o e) = inl e.
Proof.
  intros Hwf Hcf.
  destruct (@format_expr_lexes o e Hwf Hcf) as (ts & Hs & Hl).
  unfold parse. rewrite Hl. now rewrite (@spells_parse_tokens e ts Hs Hwf Hcf).
Qed.

(** ** Parentheses in the text *)

(** C2.  In [a op1 (b op2 c)] the text of the right subtree stands between
    a literal [(] and [)] exactly when, on the precedence ladder of the
    spec, [op2] stands below [op1] (it binds more weakly) or on the same row
    (it binds equally: the binary operators all group to the left, so that
    the right-operand position then conflicts).  This is so in the
    single-line form and, for every option set and depth, in the broken
    layout, and it is the answer of needs_parens. *)
Theorem parentheses_follow_precedence
    (o : FormatOptions) (d : nat) (op1 op2 : binary_op) (a b c : expr) :
  let right := Binary op2 b c in
  let e := Binary op1 a right in
  let left :=
    paren_if (needs_parens a (binary_slot op1 LeftOperand)) (single_line a) in
  let wraps := (rung op2 <=? rung op1)%nat in
  needs_parens right (binary_slot op1 RightOperand) = wraps
  /\ assoc_of (KBinary op1) = LeftAssoc
  /\ single_line e
     = left ++ " " ++ binary_text op1 ++ " "
       ++ (if wraps then "(" ++ single_line right ++ ")" else single_line right)
  /\ exists operand : list line,
       break_node o d e
       = (append_last (" " ++ binary_text op1) (chain_left o d op1 a)
          ++ operand)%list
       /\ body o operand
          = (if wraps then "(" ++ body o (render o (S d) right) ++ ")"
             else body o (render o (S d) right))
       /\ List.length operand = List.length (render o (S d) right).
Proof.
  intros right e left wraps.
  pose proof (needs_parens_rung op1 op2 b c) as Hn.
  change (right_operand_wraps op1 op2) with wraps in Hn.
  split; [exact Hn|]. split; [reflexivity|]. split.
  - subst e left right. rewrite single_line_Binary, Hn.
    destruct wraps; reflexivity.
  - exists (operand_lines o (S d) (binary_slot op1 RightOperand) right).
    split; [apply break_node_Binary|].
    unfold operand_lines. subst right. rewrite Hn. destruct wraps; cbn [wrap_if].
    + split; [apply body_wrap_parens, render_ne|].
      unfold wrap_parens.
      now rewrite length_append_last, length_prepend_first.
    + split; reflexivity.
Qed.

(** ** The facade *)






(** ** Round trip *)







(* ===================================================================== *)
(** * The page script beyond formatCode                                  *)
(* ===================================================================== *)

Open Scope list_scope.

(** ** What [trim] leaves *)

Lemma trimStart_split (s : jsstring) :
  exists pre, s = pre ++ trimStart s
              /\ Forall (fun c => is_white_space c = true) pre.
Proof.
  induction s as [|c s (pre & E & Hpre)]; [now exists []|].
  cbn [trimStart]. destruct (is_white_space c) eqn:Hc.
  - exists (c :: pre). split; [cbn; now f_equal|now constructor].
  - now exists [].
Qed.

Lemma trimStart_head (s : jsstring) x rest :
  trimStart s = x :: rest -> is_white_space x = false.
Proof.
  induction s as [|c s IH]; [discriminate|].
  cbn [trimStart]. destruct (is_white_space c) eqn:Hc; [exact IH|].
  intros E. inversion E; subst. exact Hc.
Qed.

Lemma trimStart_fixed (s : jsstring) x rest :
  s = x :: rest -> is_white_space x = false -> trimStart s = s.
Proof. intros -> H. cbn [trimStart]. now rewrite H. Qed.

Lemma trimEnd_split (s : jsstring) :
  exists post, s = trimEnd s ++ post
               /\ Forall (fun c => is_white_space c = true) post.
Proof.
  destruct (trimStart_split (rev s)) as (pre & E & Hpre).
  exists (rev pre). split; [|now apply Forall_rev].
  unfold trimEnd. rewrite <- rev_app_distr, <- E. now rewrite rev_involutive.
Qed.

Lemma trimEnd_last (s : jsstring) front x :
  trimEnd s = front ++ [x] -> is_white_space x = false.
Proof.
  unfold trimEnd. intros E.
  apply (f_equal (@rev _)) in E. rewrite rev_involutive, rev_app_distr in E.
  now apply trimStart_head in E.
Qed.

Lemma trimEnd_fixed (s : jsstring) front x :
  s = front ++ [x] -> is_white_space x = false -> trimEnd s = s.
Proof.
  intros -> H. unfold trimEnd. rewrite rev_app_distr. cbn [rev app trimStart].
  rewrite H. change (x :: rev front) with ([x] ++ rev front).
  now rewrite rev_app_distr, rev_involutive.
Qed.

Lemma trim_head (s : jsstring) x rest :
  trim s = x :: rest -> is_white_space x = false.
Proof.
  unfold trim. intros E.
  destruct (trimEnd_split (trimStart s)) as (post & Es & _).
  rewrite E in Es. now apply trimStart_head in Es.
Qed.

Lemma trim_last (s : jsstring) front x :
  trim s = front ++ [x] -> is_white_space x = false.
Proof. unfold trim. apply trimEnd_last. Qed.

Lemma number_or_nonzero x d : d <> 0%Z -> number_or x d <> 0%Z.
Proof.
  intros Hd. destruct x as [z|]; cbn [number_or]; [|assumption].
  destruct (Z.eqb_spec z 0); assumption.
Qed.

Lemma call_args_well_formed (input : jsstring) (c : config_inputs) :
  trim input <> [] -> call_well_formed (call_args (trim input) c).
Proof.
  intros Hne. unfold call_well_formed. cbn [call_args arg_source arg_maxWidth arg_indentWidth].
  split; [assumption|]. split; [apply trim_head|]. split; [apply trim_last|].
  split; apply number_or_nonzero; discriminate.
Qed.


Section PageFacts.

Variable format_with_options : jsstring -> Z -> Z -> bool -> bool -> outcome.
Variable version : outcome.

Local Abbreviation run := (formatCode format_with_options).
Local Abbreviation reach := (reachable format_with_options version).
Local Abbreviation sreach := (session_reachable format_with_options version).
Local Abbreviation act := (perform format_with_options version).
Local Abbreviation act_all := (perform_all format_with_options version).

(** ** What one run of [formatCode] touches *)

Lemma formatCode_log (p : page) :
  ffi_log (run p) = ffi_log p
  \/ (wasmReady p = true /\ trim (inputEl_value p) <> []
      /\ ffi_log (run p)
         = ffi_log p ++ [call_args (trim (inputEl_value p)) (config p)]).
Proof.
  unfold formatCode. destruct (wasmReady p); cbn [negb]; [|now left].
  destruct (trim (inputEl_value p)) as [|x rest] eqn:E; cbn [truthy_string negb];
    [now left|].
  right. split; [reflexivity|]. split; [discriminate|].
  destruct (invoke _ _); reflexivity.
Qed.

(** X1.  [formatCode] only writes the output and the error: the input box,
    the configuration controls, the ready flag, the loading indicator, the
    version and the two buttons are as they were, and at most one call is
    added to those made so far. *)
Theorem formatCode_frame (p : page) :
  inputEl_value (run p) = inputEl_value p
  /\ config (run p) = config p
  /\ wasmReady (run p) = wasmReady p
  /\ loadingEl_hidden (run p) = loadingEl_hidden p
  /\ versionEl_textContent (run p) = versionEl_textContent p
  /\ formatBtn_disabled (run p) = formatBtn_disabled p
  /\ copyBtn_textContent (run p) = copyBtn_textContent p
  /\ exists calls, ffi_log (run p) = ffi_log p ++ calls
                   /\ (List.length calls <= 1)%nat.
Proof.
  assert (Hlog : exists calls, ffi_log (run p) = ffi_log p ++ calls
                               /\ (List.length calls <= 1)%nat).
  { destruct (formatCode_log p) as [E|(_ & _ & E)]; rewrite E.
    - exists []. rewrite app_nil_r. split; [reflexivity|cbn; lia].
    - eexists. split; [reflexivity|cbn; lia]. }
  repeat split; try exact Hlog;
    unfold formatCode; destruct (wasmReady p) eqn:Hr; cbn [negb];
    try (destruct (truthy_string (trim (inputEl_value p))); cbn [negb];
         try destruct (invoke _ _));
    cbn; congruence.
Qed.

(** X2.  On a page whose module is ready, [formatCode] right after
    [clearInput] changes nothing and calls nothing: the cleared page is
    empty, free of errors, and stays so; clearing twice is clearing once. *)
Theorem clearInput_then_formatCode (p : page) :
  wasmReady p = true ->
  run (clearInput p) = clearInput p
  /\ clearInput (clearInput p) = clearInput p
  /\ inputEl_value (clearInput p) = []
  /\ outputEl_value (clearInput p) = []
  /\ errorEl_hidden (clearInput p) = true
  /\ ffi_log (clearInput p) = ffi_log p.
Proof.
  intros Hr. repeat split; try reflexivity.
  unfold formatCode, clearInput. cbn. rewrite Hr. reflexivity.
Qed.

(** ** Pages the handlers reach *)

Lemma reachable_calls (p : page) :
  reach p ->
  Forall call_well_formed (ffi_log p)
  /\ (wasmReady p = false -> ffi_log p = [] /\ outputEl_value p = []).
Proof.
  assert (Hrun : forall q,
            Forall call_well_formed (ffi_log q)
            /\ (wasmReady q = false -> ffi_log q = [] /\ outputEl_value q = []) ->
            Forall call_well_formed (ffi_log (run q))
            /\ (wasmReady (run q) = false ->
                ffi_log (run q) = [] /\ outputEl_value (run q) = [])).
  { intros q [Hc Hn]. split.
    - destruct (formatCode_log q) as [E|(_ & Hne & E)]; rewrite E; [assumption|].
      apply Forall_app. split; [assumption|]. constructor; [|constructor].
      now apply call_args_well_formed.
    - rewrite formatCode_wasmReady. intros Hq.
      destruct (Hn Hq) as [Hl Ho].
      unfold formatCode. rewrite Hq. cbn. now split. }
  induction 1 as [p (Hr & Ho & Hl)|e p Hp IH].
  - rewrite Hl. split; [constructor|now split].
  - destruct e; cbn [handle]; try exact IH.
    + unfold initWasm_resolved. destruct version; [|cbn; split; [apply IH|discriminate]].
      apply Hrun. cbn. split; [apply IH|discriminate].
    + now apply Hrun.
    + destruct IH as [Hc Hn]. cbn. split; [assumption|]. intros Hq.
      destruct (Hn Hq). now split.
Qed.

Lemma perform_reachable (a : action) (s : session) :
  reach (dom s) -> reach (dom (act a s)).
Proof.
  intros H. destruct a; cbn [perform].
  - unfold init_resolves. destruct (init_pending s); [|assumption].
    apply (reach_step EInitResolved H).
  - unfold init_rejects. destruct (init_pending s); [|assumption].
    apply (reach_step (EInitRejected err) H).
  - unfold click_format. destruct (formatBtn_disabled (dom s)); [assumption|].
    apply (reach_step EFormat H).
  - apply (reach_step EClear H).
  - unfold copyOutput_begin. now destruct (negb _).
  - unfold write_settles. destruct (nth_error _ _); [|assumption].
    destruct ok.
    + apply (reach_step (ECopied copied_label) H).
    + apply (reach_step ECopyFailed H).
  - unfold on_input. cbn [with_dom formatTimeout].
    destruct (formatTimeout s); cbn; apply (reach_step (EType value) H).
  - apply (reach_step EFormat (reach_step (EConfigure c) H)).
  - unfold on_keydown.
    destruct ((ctrlKey e || metaKey e) && strict_equal (key e) (js "Enter"));
      destruct ((ctrlKey e || metaKey e) && strict_equal (key e) (js "k"));
      cbn [fst dom with_dom].
    + apply (reach_step EClear (reach_step EFormat H)).
    + apply (reach_step EFormat H).
    + apply (reach_step EClear H).
    + assumption.
  - unfold timer_fires. destruct (find _ _) as [t|]; [|assumption].
    destruct (timer_task t).
    + apply (reach_step EFormat H).
    + apply (reach_step (ECopied originalText) H).
Qed.

Lemma session_reachable_dom (s : session) : sreach s -> reach (dom s).
Proof.
  induction 1 as [s (Hfresh & _)|a s Hs IH].
  - now apply reach_load.
  - now apply perform_reachable.
Qed.

Lemma session_calls (s : session) :
  sreach s ->
  Forall call_well_formed (ffi_log (dom s))
  /\ (wasmReady (dom s) = false ->
      ffi_log (dom s) = [] /\ outputEl_value (dom s) = []).
Proof. intros H. now apply reachable_calls, session_reachable_dom. Qed.

(** X3.  Whatever the user and the timers do, every call the script makes
    to [format_with_options] carries a source that is not empty and has no
    white space at either end, and widths that are not zero; and no call is
    made, nor anything written to the output, before the module is ready. *)
Theorem calls_are_well_formed (s : session) :
  sreach s ->
  Forall call_well_formed (ffi_log (dom s))
  /\ (wasmReady (dom s) = false ->
      ffi_log (dom s) = [] /\ outputEl_value (dom s) = []).
Proof. exact (@session_calls s). Qed.

End PageFacts.

Ltac session_fields :=
  cbn [dom init_pending timers next_timer formatTimeout writes clipboard
       with_dom with_init_pending with_timers with_formatTimeout with_writes
       with_clipboard setTimeout clearTimeout copyOutput_resolved
       copyOutput_rejected run_task fst snd] in *.

Section SessionFacts.

Variable format_with_options : jsstring -> Z -> Z -> bool -> bool -> outcome.
Variable version : outcome.

Local Abbreviation run := (formatCode format_with_options).
Local Abbreviation sreach := (session_reachable format_with_options version).
Local Abbreviation act := (perform format_with_options version).
Local Abbreviation act_all := (perform_all format_with_options version).

(** ** Runs of actions *)

Lemma perform_all_app (xs ys : list action) (s : session) :
  act_all (xs ++ ys) s = act_all ys (act_all xs s).
Proof. unfold perform_all. apply fold_left_app. Qed.

Lemma perform_all_reachable (actions : list action) (s : session) :
  sreach s -> sreach (act_all actions s).
Proof.
  revert s. induction actions as [|a actions IH]; intros s Hs; [exact Hs|].
  cbn [perform_all fold_left]. apply IH. now apply session_step.
Qed.

(** ** The module-ready flag *)

Lemma perform_ready (a : action) (s : session) :
  wasmReady (dom s) = true -> wasmReady (dom (act a s)) = true.
Proof.
  intros Hr.
  assert (Hrun : forall p, wasmReady p = true -> wasmReady (run p) = true).
  { intros p Hp. now rewrite formatCode_wasmReady. }
  destruct a; cbn [perform].
  - unfold init_resolves. destruct (init_pending s); [|assumption].
    cbn [dom with_dom with_init_pending]. unfold initWasm_resolved.
    destruct version; [apply Hrun|]; reflexivity.
  - unfold init_rejects. now destruct (init_pending s).
  - unfold click_format. destruct (formatBtn_disabled (dom s)); [assumption|].
    now apply Hrun.
  - assumption.
  - unfold copyOutput_begin. now destruct (negb _).
  - unfold write_settles. destruct (nth_error _ _); [|assumption].
    now destruct ok.
  - unfold on_input. cbn [with_dom formatTimeout].
    now destruct (formatTimeout s).
  - cbn. now apply Hrun.
  - unfold on_keydown.
    destruct ((ctrlKey e || metaKey e) && strict_equal (key e) (js "Enter"));
      destruct ((ctrlKey e || metaKey e) && strict_equal (key e) (js "k"));
      cbn [fst dom with_dom]; try assumption; cbn; now apply Hrun.
  - unfold timer_fires. destruct (find _ _) as [t|]; [|assumption].
    destruct (timer_task t); cbn; [now apply Hrun|assumption].
Qed.

(** X4.  Once the module is ready it stays ready: nothing the user, the
    timers or the clipboard do afterwards brings back the state in which
    [formatCode] answers that the formatter is still loading. *)
Theorem ready_is_permanent (actions : list action) (s : session) :
  wasmReady (dom s) = true -> wasmReady (dom (act_all actions s)) = true.
Proof.
  revert s. induction actions as [|a actions IH]; intros s Hr; [exact Hr|].
  cbn [perform_all fold_left]. apply IH. now apply perform_ready.
Qed.

Lemma perform_not_pending (a : action) (s : session) :
  init_pending s = false ->
  init_pending (act a s) = false
  /\ (wasmReady (dom s) = false -> wasmReady (dom (act a s)) = false).
Proof.
  intros Hp.
  assert (Hrun : forall p, wasmReady p = false -> wasmReady (run p) = false).
  { intros p Hq. now rewrite formatCode_wasmReady. }
  destruct a; cbn [perform].
  - unfold init_resolves. rewrite Hp. now split.
  - unfold init_rejects. rewrite Hp. now split.
  - unfold click_format. destruct (formatBtn_disabled (dom s));
      session_fields; split; auto.
  - now split.
  - unfold copyOutput_begin. destruct (negb _); now split.
  - unfold write_settles. destruct (nth_error _ _); [|now split].
    destruct ok; session_fields; now split.
  - unfold on_input. session_fields.
    destruct (formatTimeout s); session_fields; now split.
  - unfold on_change. session_fields. split; auto.
  - unfold on_keydown.
    destruct ((ctrlKey e || metaKey e) && strict_equal (key e) (js "Enter"));
      destruct ((ctrlKey e || metaKey e) && strict_equal (key e) (js "k"));
      session_fields; unfold clearInput;
      cbn [wasmReady hideError set_error set_output set_input];
      split; auto.
  - unfold timer_fires. destruct (find _ _) as [t|]; [|now split].
    destruct (timer_task t); session_fields; split; auto.
Qed.

(** X5.  After a failed load ([init()] rejected) the module never becomes
    ready: whatever happens next, [format_with_options] is not called, the
    output stays empty, and every run of [formatCode] shows that the
    formatter is still loading. *)
Theorem failed_load_is_final (actions : list action) (s : session) :
  sreach s -> init_pending s = false -> wasmReady (dom s) = false ->
  let s' := act_all actions s in
  wasmReady (dom s') = false
  /\ ffi_log (dom s') = [] /\ outputEl_value (dom s') = []
  /\ errorEl_hidden (run (dom s')) = false
  /\ errorEl_textContent (run (dom s'))
     = js "Formatter is still loading, please wait..."
  /\ ffi_log (run (dom s')) = [].
Proof.
  intros Hs Hp Hr s'.
  assert (H : init_pending s' = false /\ wasmReady (dom s') = false).
  { subst s'. clear Hs. revert s Hp Hr.
    induction actions as [|a actions IH]; intros s Hp Hr; [now split|].
    cbn [perform_all fold_left].
    destruct (perform_not_pending a s Hp) as [Hp' Hr']. apply IH; auto. }
  destruct H as [_ Hr'].
  pose proof (perform_all_reachable actions Hs) as Hs'. fold s' in Hs'.
  destruct (session_calls Hs') as [_ Hn].
  destruct (Hn Hr') as [Hl Ho].
  split; [assumption|]. split; [assumption|]. split; [assumption|].
  rewrite formatCode_not_ready by assumption. cbn. now repeat split.
Qed.

(** X6.  When [version()] throws after [init()] resolved, the module is
    ready all the same: the error reads that the formatter failed to load,
    the format button is left as it was and the initial content is not
    formatted, yet a later run of [formatCode] on a non-blank input calls
    the formatter. *)
Theorem version_failure_leaves_ready (err : thrown) (s : session) :
  version = Threw err -> init_pending s = true ->
  let s' := act InitResolves s in
  wasmReady (dom s') = true
  /\ errorEl_hidden (dom s') = false
  /\ errorEl_textContent (dom s')
     = js "Failed to load formatter: " ++ err_message err
  /\ loadingEl_hidden (dom s') = true
  /\ formatBtn_disabled (dom s') = formatBtn_disabled (dom s)
  /\ versionEl_textContent (dom s') = versionEl_textContent (dom s)
  /\ ffi_log (dom s') = ffi_log (dom s)
  /\ (trim (inputEl_value (dom s)) <> [] ->
      ffi_log (run (dom s'))
      = ffi_log (dom s)
        ++ [call_args (trim (inputEl_value (dom s))) (config (dom s))]).
Proof.
  intros Hv Hp s'. subst s'. cbn [perform]. unfold init_resolves. rewrite Hp.
  cbn [dom with_dom with_init_pending]. unfold initWasm_resolved. rewrite Hv.
  repeat split.
  intros Hne. rewrite formatCode_call by (try reflexivity; exact Hne).
  cbn. destruct (invoke _ _); reflexivity.
Qed.

End SessionFacts.

Section TimerFacts.

Variable format_with_options : jsstring -> Z -> Z -> bool -> bool -> outcome.
Variable version : outcome.

Local Abbreviation run := (formatCode format_with_options).
Local Abbreviation sreach := (session_reachable format_with_options version).
Local Abbreviation act := (perform format_with_options version).
Local Abbreviation act_all := (perform_all format_with_options version).

(** ** Pending timers *)

Lemma timers_consistent_dom (p : page) (s : session) :
  timers_consistent s -> timers_consistent (with_dom p s).
Proof. exact (fun H => H). Qed.

Lemma timers_consistent_filter (f : timer -> bool) (s : session) :
  timers_consistent s ->
  timers_consistent (with_timers (filter f (timers s)) s).
Proof.
  intros (Hlt & Hnd & Hf). unfold timers_consistent. session_fields.
  split; [|split].
  - apply Forall_forall. intros t Ht. apply filter_In in Ht as [Ht _].
    now apply (proj1 (Forall_forall _ _) Hlt).
  - clear Hlt Hf. induction (timers s) as [|t l IH]; [constructor|].
    inversion Hnd as [|? ? Hin Hnd']; subst. cbn [filter].
    destruct (f t); [|now apply IH]. cbn [map]. constructor; [|now apply IH].
    intros Hin'. apply Hin. apply in_map_iff in Hin' as (t' & E & Ht').
    apply filter_In in Ht' as [Ht' _]. apply in_map_iff. now exists t'.
  - intros t Ht. apply filter_In in Ht as [Ht _]. now apply Hf.
Qed.

Lemma timers_consistent_setTimeout (t : task) (delay : N) (s : session) :
  timers_consistent s ->
  (t = RunFormat ->
   forall t', In t' (timers s) -> is_format_timer t' = false) ->
  timers_consistent
    (with_formatTimeout
       (match t with
        | RunFormat => Some (next_timer s)
        | RestoreLabel _ => formatTimeout s
        end)
       (setTimeout t delay s)).
Proof.
  intros (Hlt & Hnd & Hf) Hnone. unfold timers_consistent. session_fields.
  split; [|split].
  - apply Forall_app. split.
    + eapply Forall_impl; [|exact Hlt]. cbn. intros; lia.
    + constructor; [cbn; lia|constructor].
  - rewrite map_app. cbn [map timer_id].
    apply NoDup_app; [assumption|repeat constructor; intros []|].
    intros i Hi [<-|[]].
    apply in_map_iff in Hi as (t' & E & Ht').
    pose proof (proj1 (Forall_forall _ _) Hlt t' Ht'). cbn in *. lia.
  - intros t' Ht'. apply in_app_iff in Ht' as [Ht'|[<-|[]]].
    + intros Hfmt. destruct t.
      * rewrite (Hnone eq_refl t' Ht') in Hfmt. discriminate.
      * now apply Hf.
    + unfold is_format_timer. cbn. destruct t; [reflexivity|discriminate].
Qed.

Lemma clearTimeout_format (s : session) :
  timers_consistent s ->
  timers_consistent (clearTimeout (formatTimeout s) s)
  /\ forall t, In t (timers (clearTimeout (formatTimeout s) s)) ->
       is_format_timer t = false.
Proof.
  intros H. unfold clearTimeout. destruct (formatTimeout s) as [i|] eqn:Ei.
  - split; [now apply timers_consistent_filter|].
    session_fields. intros t Ht. apply filter_In in Ht as [Ht Hne].
    destruct (is_format_timer t) eqn:Hfmt; [|reflexivity].
    destruct H as (_ & _ & Hf). specialize (Hf t Ht Hfmt).
    rewrite Ei in Hf. inversion Hf; subst.
    rewrite Nat.eqb_refl in Hne. discriminate.
  - split; [assumption|]. intros t Ht.
    destruct (is_format_timer t) eqn:Hfmt; [|reflexivity].
    destruct H as (_ & _ & Hf). specialize (Hf t Ht Hfmt).
    rewrite Ei in Hf. discriminate.
Qed.

Lemma on_input_timers (value : jsstring) (s : session) :
  timers_consistent s ->
  let s' := on_input value s in
  timers_consistent s'
  /\ filter is_format_timer (timers s')
     = [{| timer_id := next_timer s; timer_delay := 500;
           timer_task := RunFormat |}]
  /\ next_timer s' = S (next_timer s)
  /\ dom s' = set_input value (dom s).
Proof.
  intros H s'. subst s'. unfold on_input.
  set (s0 := with_dom (set_input value (dom s)) s).
  assert (H0 : timers_consistent s0) by exact H.
  destruct (clearTimeout_format H0) as [H1 Hnone].
  set (s1 := clearTimeout (formatTimeout s0) s0) in *.
  assert (Hnext : next_timer s1 = next_timer s).
  { subst s1 s0. session_fields. now destruct (formatTimeout s). }
  assert (Hdom : dom s1 = set_input value (dom s)).
  { subst s1 s0. session_fields. now destruct (formatTimeout s). }
  split; [|split; [|split]].
  - apply (@timers_consistent_setTimeout RunFormat 500 s1 H1).
    intros _. exact Hnone.
  - session_fields. rewrite filter_app, Hnext. cbn [filter is_format_timer timer_task].
    replace (filter is_format_timer (timers s1)) with (@nil timer); [reflexivity|].
    symmetry. clear -Hnone. induction (timers s1) as [|t l IH]; [reflexivity|].
    cbn [filter]. rewrite (Hnone t (or_introl eq_refl)).
    apply IH. intros t' Ht'. apply Hnone. now right.
  - session_fields. now rewrite Hnext.
  - session_fields. exact Hdom.
Qed.

Lemma perform_timers (a : action) (s : session) :
  timers_consistent s -> timers_consistent (act a s).
Proof.
  intros H. destruct a; cbn [perform].
  - unfold init_resolves. now destruct (init_pending s).
  - unfold init_rejects. now destruct (init_pending s).
  - unfold click_format. now destruct (formatBtn_disabled (dom s)).
  - exact H.
  - unfold copyOutput_begin. now destruct (negb _).
  - unfold write_settles. destruct (nth_error _ _) as [text|]; [|assumption].
    destruct ok; [|exact H].
    unfold copyOutput_resolved.
    apply (@timers_consistent_setTimeout (RestoreLabel _) 2000
             (with_dom _ (with_clipboard text (with_writes _ s))));
      [exact H|discriminate].
  - now apply on_input_timers.
  - exact H.
  - unfold on_keydown.
    destruct ((ctrlKey e || metaKey e) && strict_equal (key e) (js "Enter"));
      destruct ((ctrlKey e || metaKey e) && strict_equal (key e) (js "k"));
      exact H.
  - unfold timer_fires. destruct (find _ _) as [t|]; [|assumption].
    pose proof (timers_consistent_filter
                  (fun t => negb (timer_id t =? id)%nat) H) as H'.
    destruct (timer_task t); exact H'.
Qed.

Lemma reachable_timers (s : session) : sreach s -> timers_consistent s.
Proof.
  induction 1 as [s (_ & _ & _ & Ht & Hf & _)|a s Hs IH].
  - unfold timers_consistent. rewrite Ht. repeat split; try constructor.
    intros t [].
  - now apply perform_timers.
Qed.

Lemma same_handle_once (l : list timer) (i : nat) :
  NoDup (map timer_id l) ->
  (forall t, In t l -> is_format_timer t = true -> timer_id t = i) ->
  (List.length (filter is_format_timer l) <= 1)%nat.
Proof.
  induction l as [|t l IH]; intros Hnd Hid; [cbn; lia|].
  inversion Hnd as [|? ? Hin Hnd']; subst.
  cbn [filter]. destruct (is_format_timer t) eqn:Hfmt.
  - replace (filter is_format_timer l) with (@nil timer); [cbn; lia|].
    symmetry. pose proof (Hid t (or_introl eq_refl) Hfmt) as Ht.
    assert (Hnone : forall t', In t' l -> is_format_timer t' = false).
    { intros t' Ht'. destruct (is_format_timer t') eqn:E; [|reflexivity].
      exfalso. apply Hin. apply in_map_iff. exists t'. split; [|assumption].
      rewrite Ht. apply Hid; [now right|assumption]. }
    clear -Hnone. induction l as [|t' l IH]; [reflexivity|].
    cbn [filter]. rewrite (Hnone t' (or_introl eq_refl)).
    apply IH. intros t'' H. apply Hnone. now right.
  - apply IH; [assumption|]. intros t' Ht'. apply Hid. now right.
Qed.

(** X7.  The input listener debounces: however the user types and whatever
    else happens, at most one run of [formatCode] is pending on a timer, no
    two pending timers share a handle, and every pending handle is one
    [setTimeout] has handed out. *)
Theorem debounce_keeps_one_timer (s : session) :
  sreach s ->
  (List.length (filter is_format_timer (timers s)) <= 1)%nat
  /\ NoDup (map timer_id (timers s))
  /\ Forall (fun t => (timer_id t < next_timer s)%nat) (timers s).
Proof.
  intros Hs. destruct (reachable_timers Hs) as (Hlt & Hnd & Hf).
  split; [|now split].
  destruct (formatTimeout s) as [i|] eqn:Ei.
  - apply same_handle_once with (i := i); [assumption|].
    intros t Ht Hfmt. specialize (Hf t Ht Hfmt). congruence.
  - apply same_handle_once with (i := 0%nat); [assumption|].
    intros t Ht Hfmt. specialize (Hf t Ht Hfmt). discriminate.
Qed.

(** ** A burst of keystrokes *)

Lemma filter_swap (A : Type) (f g : A -> bool) (l : list A) :
  filter f (filter g l) = filter g (filter f l).
Proof.
  induction l as [|x l IH]; [reflexivity|].
  cbn [filter]. destruct (f x) eqn:Hf, (g x) eqn:Hg; cbn [filter];
    rewrite ?Hf, ?Hg, IH; reflexivity.
Qed.


Lemma find_handle (l : list timer) (t : timer) :
  NoDup (map timer_id l) -> In t l ->
  find (fun t' => (timer_id t' =? timer_id t)%nat) l = Some t.
Proof.
  induction l as [|x l IH]; intros Hnd Hin; [destruct Hin|].
  destruct Hin as [E|Hin].
  - subst x. cbn [find]. now rewrite Nat.eqb_refl.
  - inversion Hnd as [|? ? Hx Hnd']; subst. cbn [find].
    destruct (Nat.eqb_spec (timer_id x) (timer_id t)) as [E|_]; [|now apply IH].
    exfalso. apply Hx. apply in_map_iff. now exists t.
Qed.

Lemma inputs_timers (values : list jsstring) (v : jsstring) (s : session) :
  timers_consistent s ->
  let s' := act_all (map Input (values ++ [v])) s in
  timers_consistent s'
  /\ filter is_format_timer (timers s')
     = [{| timer_id := next_timer s + List.length values; timer_delay := 500;
           timer_task := RunFormat |}]
  /\ dom s' = set_input v (dom s).
Proof.
  revert s. induction values as [|w values IH]; intros s H s'; subst s'.
  - cbn [app map perform_all fold_left perform List.length].
    destruct (on_input_timers v H) as (H1 & H2 & _ & H4).
    rewrite Nat.add_0_r. split; [exact H1|split; [exact H2|exact H4]].
  - cbn [app map perform_all fold_left perform List.length].
    destruct (on_input_timers w H) as (H1 & _ & H3 & H4).
    destruct (IH (on_input w s) H1) as (I1 & I2 & I3).
    unfold perform_all in I1, I2, I3.
    split; [exact I1|]. split.
    + rewrite I2, H3. do 2 f_equal. lia.
    + rewrite I3, H4. reflexivity.
Qed.

(** X8.  A burst of keystrokes is formatted once: after any number of
    input events in a row exactly one run of [formatCode] is pending, that
    of the last event, and when it fires [formatCode] runs on the page with
    the last text typed; the formatter was not called in between. *)
Theorem keystrokes_format_once
    (values : list jsstring) (v : jsstring) (s : session) :
  sreach s ->
  let s' := act_all (map Input (values ++ [v])) s in
  let id := (next_timer s + List.length values)%nat in
  filter is_format_timer (timers s')
  = [{| timer_id := id; timer_delay := 500; timer_task := RunFormat |}]
  /\ ffi_log (dom s') = ffi_log (dom s)
  /\ outputEl_value (dom s') = outputEl_value (dom s)
  /\ dom (act (TimerFires id) s') = run (set_input v (dom s))
  /\ filter is_format_timer (timers (act (TimerFires id) s')) = [].
Proof.
  intros Hs s' id.
  destruct (inputs_timers values v (reachable_timers Hs)) as (H1 & H2 & H3).
  fold s' in H1, H2, H3. fold id in H2.
  split; [exact H2|]. rewrite H3. split; [reflexivity|]. split; [reflexivity|].
  set (t := {| timer_id := id; timer_delay := 500; timer_task := RunFormat |}) in *.
  assert (Hin : In t (timers s')).
  { assert (Hf : In t (filter is_format_timer (timers s')))
      by (rewrite H2; now left).
    now apply filter_In in Hf. }
  destruct H1 as (_ & Hnd & _).
  cbn [perform]. unfold timer_fires.
  change id with (timer_id t). rewrite (@find_handle _ t Hnd Hin).
  subst t. session_fields. cbn [timer_task]. session_fields.
  split; [now rewrite H3|].
  cbn [timer_id]. rewrite filter_swap, H2. cbn [filter timer_id].
  now rewrite Nat.eqb_refl.
Qed.

End TimerFacts.

Section CopyFacts.

Variable format_with_options : jsstring -> Z -> Z -> bool -> bool -> outcome.
Variable version : outcome.

Local Abbreviation run := (formatCode format_with_options).
Local Abbreviation sreach := (session_reachable format_with_options version).
Local Abbreviation act := (perform format_with_options version).
Local Abbreviation act_all := (perform_all format_with_options version).

(** ** The clipboard *)

Lemma truthy_nonempty (text : jsstring) : truthy_string text = true <-> text <> [].
Proof. destruct text; cbn; split; congruence. Qed.

Lemma Forall_remove_nth (A : Type) (P : A -> Prop) (i : nat) (l : list A) :
  Forall P l -> Forall P (remove_nth i l).
Proof.
  revert i. induction l as [|x l IH]; intros i H; [now destruct i|].
  inversion H; subst. destruct i; cbn [remove_nth]; auto.
Qed.

Lemma remove_nth_last (A : Type) (l : list A) (x : A) :
  remove_nth (List.length l) (l ++ [x]) = l.
Proof. induction l as [|y l IH]; cbn; [reflexivity|now rewrite IH]. Qed.

Lemma nth_error_last (A : Type) (l : list A) (x : A) :
  nth_error (l ++ [x]) (List.length l) = Some x.
Proof. induction l as [|y l IH]; cbn; [reflexivity|exact IH]. Qed.

Lemma perform_keeps_copies (a : action) (s : session) :
  match a with
  | ClickCopy | WriteSettles _ _ => True
  | _ => writes (act a s) = writes s /\ clipboard (act a s) = clipboard s
  end.
Proof.
  destruct a; cbn [perform]; try exact I.
  - unfold init_resolves. now destruct (init_pending s).
  - unfold init_rejects. now destruct (init_pending s).
  - unfold click_format. now destruct (formatBtn_disabled (dom s)).
  - now split.
  - unfold on_input. session_fields. now destruct (formatTimeout s).
  - now split.
  - unfold on_keydown.
    destruct ((ctrlKey e || metaKey e) && strict_equal (key e) (js "Enter"));
      destruct ((ctrlKey e || metaKey e) && strict_equal (key e) (js "k"));
      now split.
  - unfold timer_fires. destruct (find _ _) as [t|]; [|now split].
    now destruct (timer_task t).
Qed.

Lemma perform_copies (a : action) (s : session) :
  sreach s -> copies_consistent s -> copies_consistent (act a s).
Proof.
  intros Hs (Hw & Hc & Hn).
  assert (Hnot : wasmReady (dom (act a s)) = false -> wasmReady (dom s) = false).
  { intros H. destruct (wasmReady (dom s)) eqn:E; [|reflexivity].
    now rewrite (perform_ready format_with_options version a s E) in H. }
  destruct (session_calls Hs) as [_ Hout].
  pose proof (perform_keeps_copies a s) as Hkeep.
  assert (Hsame : copies_consistent s) by (split; [|split]; assumption).
  destruct a.
  1-4, 7-10:
    destruct Hkeep as [Ew Ec]; unfold copies_consistent;
    rewrite Ew, Ec; split; [assumption|]; split; [assumption|];
    intros H; now apply Hn, Hnot.
  - (* ClickCopy *)
    cbn [perform] in *. unfold copyOutput_begin in *.
    destruct (truthy_string (outputEl_value (dom s))) eqn:Ht; cbn [negb] in *;
      [|exact Hsame].
    unfold copies_consistent. session_fields. split; [|split; [assumption|]].
    + apply Forall_app. split; [assumption|].
      constructor; [now apply truthy_nonempty|constructor].
    + intros H. destruct (Hout H) as [_ Ho]. rewrite Ho in Ht. discriminate.
  - (* WriteSettles *)
    cbn [perform] in *. unfold write_settles in *.
    destruct (nth_error (writes s) i) as [text|] eqn:En; [|exact Hsame].
    assert (Htext : text <> []).
    { apply nth_error_In in En. now apply (proj1 (Forall_forall _ _) Hw). }
    assert (Hready : wasmReady (dom s) = true).
    { destruct (wasmReady (dom s)) eqn:E; [reflexivity|].
      destruct (Hn eq_refl) as [Hnil _]. rewrite Hnil in En.
      now destruct i. }
    unfold copies_consistent. destruct ok; session_fields.
    + split; [now apply Forall_remove_nth|]. split.
      * intros t E. inversion E; subst. assumption.
      * cbn. rewrite Hready. discriminate.
    + split; [now apply Forall_remove_nth|]. split; [assumption|].
      cbn. rewrite Hready. discriminate.
Qed.

Lemma reachable_copies (s : session) : sreach s -> copies_consistent s.
Proof.
  induction 1 as [s (_ & _ & _ & _ & _ & Hw & Hc)|a s Hs IH].
  - unfold copies_consistent. rewrite Hw, Hc.
    split; [constructor|]. split; [discriminate|]. now split.
  - now apply perform_copies.
Qed.

(** X9.  [copyOutput] never copies nothing: with an empty output a click
    on the copy button changes nothing at all, no text on its way to the
    clipboard or written to it by the script is empty, and before the
    module is ready nothing is copied. *)
Theorem copy_is_never_empty (s : session) :
  sreach s ->
  (outputEl_value (dom s) = [] -> act ClickCopy s = s)
  /\ Forall (fun text : jsstring => text <> []) (writes s)
  /\ (forall text, clipboard s = Some text -> text <> [])
  /\ (wasmReady (dom s) = false -> writes s = [] /\ clipboard s = None).
Proof.
  intros Hs. split; [|exact (reachable_copies Hs)].
  intros Ho. cbn [perform]. unfold copyOutput_begin. now rewrite Ho.
Qed.

Lemma find_after (A : Type) (f : A -> bool) (l l' : list A) :
  find f l = None -> find f (l ++ l') = find f l'.
Proof.
  induction l as [|x l IH]; [reflexivity|].
  cbn [find app]. destruct (f x); [discriminate|exact IH].
Qed.

Lemma filter_fresh (l : list timer) (n : nat) :
  Forall (fun t => (timer_id t < n)%nat) l ->
  filter (fun t => negb (timer_id t =? n)%nat) l = l
  /\ find (fun t => (timer_id t =? n)%nat) l = None.
Proof.
  induction 1 as [|t l Ht Hl [IH1 IH2]]; [now split|].
  cbn [filter find]. destruct (Nat.eqb_spec (timer_id t) n); [lia|].
  cbn [negb]. now rewrite IH1, IH2.
Qed.

Lemma fresh_timer_fires (s : session) (t : task) (delay : N) :
  Forall (fun t => (timer_id t < next_timer s)%nat) (timers s) ->
  timer_fires format_with_options (next_timer s) (setTimeout t delay s)
  = run_task format_with_options t
      {| dom := dom s; init_pending := init_pending s; timers := timers s;
         next_timer := S (next_timer s); formatTimeout := formatTimeout s;
         writes := writes s; clipboard := clipboard s |}.
Proof.
  intros H. destruct (filter_fresh H) as [Hfilter Hfind].
  unfold timer_fires. session_fields.
  rewrite (@find_after _ _ _ _ Hfind). cbn [find timer_id]. rewrite Nat.eqb_refl.
  cbn [timer_task]. rewrite filter_app, Hfilter. cbn [filter timer_id].
  rewrite Nat.eqb_refl. cbn [negb]. rewrite app_nil_r. reflexivity.
Qed.

Lemma timer_fires_at (r : session) (l rest : list timer) (t : timer) :
  Forall (fun t' => (timer_id t' < timer_id t)%nat) l ->
  Forall (fun t' => (timer_id t < timer_id t')%nat) rest ->
  timers r = l ++ t :: rest ->
  timer_fires format_with_options (timer_id t) r
  = run_task format_with_options (timer_task t) (with_timers (l ++ rest) r).
Proof.
  intros Hl Hrest E. destruct (filter_fresh Hl) as [Hfilter Hfind].
  unfold timer_fires. rewrite E.
  rewrite (@find_after _ _ _ _ Hfind). cbn [find]. rewrite Nat.eqb_refl.
  rewrite filter_app, Hfilter. cbn [filter]. rewrite Nat.eqb_refl. cbn [negb].
  replace (filter (fun t' => negb (timer_id t' =? timer_id t)%nat) rest)
    with rest; [reflexivity|].
  symmetry. clear -Hrest. induction Hrest as [|x rest Hx _ IH]; [reflexivity|].
  cbn [filter]. destruct (Nat.eqb_spec (timer_id x) (timer_id t)); [lia|].
  cbn [negb]. now rewrite IH.
Qed.

Lemma set_copyBtn_same (p : page) : set_copyBtn (copyBtn_textContent p) p = p.
Proof. now destruct p. Qed.

(** X10.  One copy: a click on the copy button with a non-empty output,
    once the clipboard write succeeds, puts on the clipboard the output as
    it stood at the click and the copied label on the button; when the
    timer it started fires, the page is as it was before the click.  When
    the write fails instead, the clipboard and the button are untouched and
    the error is shown over an output that is still there. *)
Theorem copy_restores_label (s : session) :
  sreach s -> outputEl_value (dom s) <> [] ->
  let n := List.length (writes s) in
  let copied := act (WriteSettles n true) (act ClickCopy s) in
  let restored := act (TimerFires (next_timer s)) copied in
  let failed := act (WriteSettles n false) (act ClickCopy s) in
  clipboard copied = Some (outputEl_value (dom s))
  /\ dom copied = set_copyBtn copied_label (dom s)
  /\ writes copied = writes s
  /\ dom restored = dom s
  /\ timers restored = timers s
  /\ clipboard failed = clipboard s
  /\ timers failed = timers s
  /\ dom failed = showError (js "Failed to copy to clipboard") (dom s)
  /\ errorEl_hidden (dom failed) = false
  /\ outputEl_value (dom failed) <> [].
Proof.
  intros Hs Ho n copied restored failed.
  destruct (reachable_timers Hs) as (Hlt & _ & _).
  assert (Hclick : act ClickCopy s
                   = with_writes (writes s ++ [outputEl_value (dom s)]) s).
  { cbn [perform]. unfold copyOutput_begin.
    apply truthy_nonempty in Ho. now rewrite Ho. }
  assert (Hcopied : copied
            = setTimeout (RestoreLabel (copyBtn_textContent (dom s))) 2000
                (with_dom (set_copyBtn copied_label (dom s))
                   (with_clipboard (outputEl_value (dom s)) s))).
  { subst copied. rewrite Hclick. cbn [perform]. unfold write_settles.
    session_fields. subst n. rewrite nth_error_last, remove_nth_last.
    unfold copyOutput_resolved. session_fields. now destruct s. }
  assert (Hfailed : failed
            = with_dom (showError (js "Failed to copy to clipboard") (dom s)) s).
  { subst failed. rewrite Hclick. cbn [perform]. unfold write_settles.
    session_fields. subst n. rewrite nth_error_last, remove_nth_last.
    unfold copyOutput_rejected. session_fields. now destruct s. }
  assert (Hrestored : restored
            = {| dom := dom s; init_pending := init_pending s;
                 timers := timers s; next_timer := S (next_timer s);
                 formatTimeout := formatTimeout s; writes := writes s;
                 clipboard := Some (outputEl_value (dom s)) |}).
  { subst restored. rewrite Hcopied. cbn [perform].
    change (next_timer s)
      with (next_timer (with_dom (set_copyBtn copied_label (dom s))
                          (with_clipboard (outputEl_value (dom s)) s))) at 1.
    rewrite fresh_timer_fires by exact Hlt. session_fields.
    f_equal. destruct (dom s); reflexivity. }
  rewrite Hcopied, Hrestored, Hfailed. session_fields.
  repeat split; try reflexivity. exact Ho.
Qed.

(** X11.  Two copies in a row leave the copied label on the button for
    good: the second copy takes the label of the first for the original
    text, so that once both timers have fired the button still carries the
    copied label and no timer is left to put the original back. *)
Theorem second_copy_keeps_copied_label (s : session) :
  sreach s -> outputEl_value (dom s) <> [] ->
  let n := List.length (writes s) in
  let s' :=
    act_all [ClickCopy; WriteSettles n true; ClickCopy; WriteSettles n true;
             TimerFires (next_timer s); TimerFires (S (next_timer s))] s in
  copyBtn_textContent (dom s') = copied_label
  /\ dom s' = set_copyBtn copied_label (dom s)
  /\ timers s' = timers s.
Proof.
  intros Hs Ho n s'.
  destruct (reachable_timers Hs) as (Hlt & _ & _).
  assert (Hcopy : forall r : session,
            outputEl_value (dom r) <> [] ->
            act (WriteSettles (List.length (writes r)) true) (act ClickCopy r)
            = setTimeout (RestoreLabel (copyBtn_textContent (dom r))) 2000
                (with_dom (set_copyBtn copied_label (dom r))
                   (with_clipboard (outputEl_value (dom r)) r))).
  { intros r Hr. cbn [perform]. unfold copyOutput_begin.
    apply truthy_nonempty in Hr. rewrite Hr. cbn [negb].
    unfold write_settles. session_fields.
    rewrite nth_error_last, remove_nth_last.
    unfold copyOutput_resolved. session_fields. now destruct r. }
  subst s'. cbn [perform_all fold_left].
  subst n. rewrite (Hcopy s Ho).
  set (s1 := setTimeout _ _ _).
  assert (Hw1 : writes s1 = writes s) by reflexivity.
  rewrite <- Hw1. rewrite (Hcopy s1) by exact Ho.
  set (s2 := setTimeout _ _ _).
  set (T1 := {| timer_id := next_timer s; timer_delay := 2000;
                timer_task := RestoreLabel (copyBtn_textContent (dom s)) |}).
  set (T2 := {| timer_id := S (next_timer s); timer_delay := 2000;
                timer_task := RestoreLabel copied_label |}).
  assert (E2 : timers s2 = timers s ++ T1 :: [T2]).
  { subst s2 s1. session_fields. now rewrite <- app_assoc. }
  assert (F1 : timer_fires format_with_options (next_timer s) s2
               = run_task format_with_options (timer_task T1)
                   (with_timers (timers s ++ [T2]) s2)).
  { apply (@timer_fires_at s2 (timers s) [T2] T1 Hlt);
      [repeat constructor|exact E2]. }
  cbn [perform]. rewrite F1. cbn [timer_task T1 run_task].
  set (s3 := with_dom _ _).
  assert (F2 : timer_fires format_with_options (S (next_timer s)) s3
               = run_task format_with_options (timer_task T2)
                   (with_timers (timers s ++ []) s3)).
  { apply (@timer_fires_at s3 (timers s) [] T2); [|constructor|reflexivity].
    eapply Forall_impl; [|exact Hlt]. cbn. intros; lia. }
  rewrite F2. cbn [timer_task T2 run_task]. subst s3 s2 s1. session_fields.
  rewrite app_nil_r. repeat split.
Qed.

End CopyFacts.

(** ** The keyboard *)

Lemma strict_equal_eq (a b : jsstring) : strict_equal a b = true <-> a = b.
Proof.
  revert b. induction a as [|x a IH]; intros [|y b]; cbn [strict_equal];
    try (split; [discriminate|discriminate]); [now split|].
  rewrite andb_true_iff, N.eqb_eq, IH. split; [intros [-> ->]|intros E].
  - reflexivity.
  - now inversion E.
Qed.

Lemma strict_equal_neq (a b : jsstring) : a <> b -> strict_equal a b = false.
Proof.
  intros H. destruct (strict_equal a b) eqn:E; [|reflexivity].
  now apply strict_equal_eq in E.
Qed.

(** X12.  The keyboard shortcuts: with Ctrl or Cmd held, Enter runs
    [formatCode] and the key k runs [clearInput], each with the default
    action prevented; any other key, or either key without Ctrl or Cmd,
    leaves the page as it is and prevents nothing.  The key is compared
    exactly, so that K with the shift key does nothing. *)
Theorem keydown_shortcuts
    (format_with_options : jsstring -> Z -> Z -> bool -> bool -> outcome)
    (e : KeyboardEvent) (s : session) :
  let held := ctrlKey e || metaKey e in
  let result := on_keydown format_with_options e s in
  (held = true -> key e = js "Enter" ->
   result = (with_dom (formatCode format_with_options (dom s)) s, true))
  /\ (held = true -> key e = js "k" ->
      result = (with_dom (clearInput (dom s)) s, true))
  /\ (held = false \/ (key e <> js "Enter" /\ key e <> js "k") ->
      result = (s, false))
  /\ (key e = js "K" -> result = (s, false)).
Proof.
  intros held result. subst held result. unfold on_keydown.
  split; [|split; [|split]].
  - intros -> ->. reflexivity.
  - intros -> ->. reflexivity.
  - intros [->|[H1 H2]]; [reflexivity|].
    now rewrite (strict_equal_neq H1), (strict_equal_neq H2), !andb_false_r.
  - intros ->. now rewrite !andb_false_r.
Qed.

(** ** Numbers in the width fields *)

Lemma js_app (a b : string) : js (a ++ b) = js a ++ js b.
Proof.
  unfold js. induction a as [|c a IH]; [reflexivity|].
  cbn [append list_ascii_of_string map app]. now rewrite IH.
Qed.

(** What may follow the digits of a number: nothing, or a character that is
    no decimal digit. *)
Lemma digits_prefix_stops (acc : option N) (rest : jsstring) :
  match rest with
  | [] => True
  | ch :: _ => digit_value 10 ch = None
  end ->
  digits_prefix 10 acc rest = acc.
Proof. destruct rest as [|ch rest]; [reflexivity|]. cbn. now intros ->. Qed.

Ltac digit_case d IH c k :=
  cbn [DecimalString.NilEmpty.string_of_uint];
  change (js (String c (DecimalString.NilEmpty.string_of_uint d)))
    with (of_ascii c :: js (DecimalString.NilEmpty.string_of_uint d));
  cbn [app digits_prefix];
  change (digit_value 10 (of_ascii c)) with (Some k);
  cbv iota; rewrite IH;
  match goal with
  | |- context [Decimal.rev (?D d)] =>
      change (Decimal.rev (D d)) with (Decimal.revapp d (D Decimal.Nil))
  end;
  rewrite (DecimalPos.Unsigned.of_lu_revapp d);
  cbn [DecimalPos.Unsigned.usize DecimalPos.Unsigned.of_lu];
  rewrite N.pow_succ_r'; f_equal; ring.

Lemma digits_prefix_uint (d : Decimal.uint) (acc : N) (rest : jsstring) :
  match rest with
  | [] => True
  | ch :: _ => digit_value 10 ch = None
  end ->
  digits_prefix 10 (Some acc)
    (js (DecimalString.NilEmpty.string_of_uint d) ++ rest)
  = Some (DecimalPos.Unsigned.of_lu (Decimal.rev d)
          + acc * 10 ^ DecimalPos.Unsigned.usize d)%N.
Proof.
  intros Hrest. revert acc.
  induction d as [|d IH|d IH|d IH|d IH|d IH|d IH|d IH|d IH|d IH|d IH];
    intros acc.
  - cbn. rewrite digits_prefix_stops by assumption. f_equal. lia.
  - digit_case d IH "0"%char 0%N.
  - digit_case d IH "1"%char 1%N.
  - digit_case d IH "2"%char 2%N.
  - digit_case d IH "3"%char 3%N.
  - digit_case d IH "4"%char 4%N.
  - digit_case d IH "5"%char 5%N.
  - digit_case d IH "6"%char 6%N.
  - digit_case d IH "7"%char 7%N.
  - digit_case d IH "8"%char 8%N.
  - digit_case d IH "9"%char 9%N.
Qed.

Lemma to_uint_head (p : positive) (d : Decimal.uint) :
  Pos.to_uint p <> Decimal.D0 d.
Proof.
  intros E.
  pose proof (DecimalPos.Unsigned.to_of (Pos.to_uint p)) as H.
  rewrite DecimalPos.Unsigned.of_to in H. cbn [N.to_uint] in H.
  rewrite E, DecimalFacts.unorm_D0 in H.
  destruct (Decimal.uint_eq_dec d Decimal.Nil) as [->|Hne].
  - now apply (DecimalPos.Unsigned.to_uint_nonzero p).
  - pose proof (DecimalFacts.nb_digits_unorm d Hne) as Hn.
    rewrite <- H in Hn. cbn [Decimal.nb_digits] in Hn. lia.
Qed.

Lemma decimal_first (n : N) :
  (0 < n)%N ->
  exists c s, js (decimal n) = c :: s /\ (49 <= c <= 57)%N.
Proof.
  intros Hn. destruct n as [|p]; [lia|].
  unfold decimal. cbn [N.to_uint].
  pose proof (@to_uint_head p) as Hhead.
  pose proof (DecimalPos.Unsigned.to_uint_nonnil p) as Hnil.
  destruct (Pos.to_uint p) as [|d|d|d|d|d|d|d|d|d|d];
    [congruence|exfalso; now apply (Hhead d)|..];
    cbn [DecimalString.NilEmpty.string_of_uint];
    eexists _, _; (split; [reflexivity|cbn; lia]).
Qed.

Lemma digits_prefix_start (c : char16) (s : jsstring) :
  (49 <= c <= 57)%N ->
  digits_prefix 10 None (c :: s) = digits_prefix 10 (Some 0%N) (c :: s).
Proof.
  intros Hc. cbn [digits_prefix].
  assert (digit_value 10 c = Some (c - 48)%N) as ->; [|reflexivity].
  unfold digit_value.
  destruct (N.leb_spec 48 c); [|lia]. destruct (N.leb_spec c 57); [|lia].
  reflexivity.
Qed.

Ltac parse_sign :=
  cbv - [digits_prefix Z.of_N Z.mul Z.opp];
  split; (destruct (digits_prefix 10 None _) as [n|]; [|reflexivity]);
  f_equal; destruct n; reflexivity.

Lemma parseInt_digits (c : char16) (s : jsstring) :
  (49 <= c <= 57)%N ->
  parseInt (c :: s)
  = match digits_prefix 10 None (c :: s) with
    | Some n => Some (Z.of_N n)
    | None => None
    end
  /\ parseInt (45%N :: c :: s)
     = match digits_prefix 10 None (c :: s) with
       | Some n => Some (- Z.of_N n)%Z
       | None => None
       end.
Proof.
  intros Hc.
  assert (Hcases : (c = 49 \/ c = 50 \/ c = 51 \/ c = 52 \/ c = 53 \/ c = 54
                    \/ c = 55 \/ c = 56 \/ c = 57)%N) by lia.
  unfold parseInt.
  repeat (destruct Hcases as [E|Hcases]; [subst c; parse_sign|]).
  subst c. parse_sign.
Qed.

Lemma parseInt_decimal (n : N) (pad rest : jsstring) :
  (0 < n)%N ->
  Forall (fun c => is_white_space c = true) pad ->
  match rest with
  | [] => True
  | ch :: _ => digit_value 10 ch = None
  end ->
  parseInt (pad ++ js (decimal n) ++ rest) = Some (Z.of_N n)
  /\ parseInt (pad ++ js "-" ++ js (decimal n) ++ rest) = Some (- Z.of_N n)%Z.
Proof.
  intros Hn Hpad Hrest.
  destruct (decimal_first Hn) as (c & s & E & Hc).
  assert (Hvalue : digits_prefix 10 None (js (decimal n) ++ rest) = Some n).
  { rewrite E. cbn [app]. rewrite digits_prefix_start by assumption.
    change (c :: s ++ rest) with ((c :: s) ++ rest). rewrite <- E.
    unfold decimal. rewrite digits_prefix_uint by assumption.
    rewrite <- DecimalPos.Unsigned.of_uint_alt.
    change (Pos.of_uint (N.to_uint n)) with (N.of_uint (N.to_uint n)).
    rewrite DecimalN.Unsigned.of_to. f_equal. lia. }
  assert (Hstart : forall t, parseInt (pad ++ t) = parseInt t).
  { intros t. unfold parseInt. now rewrite trimStart_app_ws. }
  rewrite !Hstart. rewrite E in *. cbn [app] in *.
  destruct (@parseInt_digits c (s ++ rest) Hc) as [H1 H2].
  change (js "-" ++ c :: s ++ rest) with (45%N :: c :: s ++ rest).
  now rewrite H1, H2, Hvalue.
Qed.

(** X13.  A width field that holds the decimal text of a positive
    integer no larger than 2^53, white space before it and anything but a
    digit after it being allowed, hands that integer to the formatter:
    [ 100px] gives 100.  Up to 2^53 every integer is a Number of its own,
    so that the integer read is the Number [parseInt] returns; a longer
    digit string is rounded to the nearest Number and is left out here. *)
Theorem width_fields_read_decimal
    (n m : N) (pad1 rest1 pad2 rest2 : jsstring) (source : jsstring)
    (c : config_inputs) :
  (0 < n <= 2 ^ 53)%N -> (0 < m <= 2 ^ 53)%N ->
  Forall (fun ch => is_white_space ch = true) pad1 ->
  Forall (fun ch => is_white_space ch = true) pad2 ->
  match rest1 with [] => True | ch :: _ => digit_value 10 ch = None end ->
  match rest2 with [] => True | ch :: _ => digit_value 10 ch = None end ->
  maxWidthInput_value c = pad1 ++ js (decimal n) ++ rest1 ->
  indentWidthInput_value c = pad2 ++ js (decimal m) ++ rest2 ->
  arg_maxWidth (call_args source c) = Z.of_N n
  /\ arg_indentWidth (call_args source c) = Z.of_N m.
Proof.
  intros [Hn _] [Hm _] Hp1 Hp2 Hr1 Hr2 E1 E2.
  cbn [call_args arg_maxWidth arg_indentWidth]. rewrite E1, E2.
  rewrite (proj1 (@parseInt_decimal n pad1 rest1 Hn Hp1 Hr1)).
  rewrite (proj1 (@parseInt_decimal m pad2 rest2 Hm Hp2 Hr2)).
  cbn [number_or].
  destruct (Z.eqb_spec (Z.of_N n) 0); [lia|].
  destruct (Z.eqb_spec (Z.of_N m) 0); [lia|]. now split.
Qed.

(** X14.  Negative widths are not guarded against: a width field that
    holds a minus sign and the decimal text of a positive integer no larger
    than 2^53 (the range in which every integer is a Number of its own)
    hands the negative integer to the formatter, no default taking its
    place. *)
Theorem negative_widths_pass_through
    (n m : N) (source : jsstring) (c : config_inputs) :
  (0 < n <= 2 ^ 53)%N -> (0 < m <= 2 ^ 53)%N ->
  maxWidthInput_value c = js "-" ++ js (decimal n) ->
  indentWidthInput_value c = js "-" ++ js (decimal m) ->
  arg_maxWidth (call_args source c) = (- Z.of_N n)%Z
  /\ arg_indentWidth (call_args source c) = (- Z.of_N m)%Z
  /\ (arg_maxWidth (call_args source c) < 0)%Z
  /\ (arg_indentWidth (call_args source c) < 0)%Z.
Proof.
  intros [Hn _] [Hm _] E1 E2.
  cbn [call_args arg_maxWidth arg_indentWidth]. rewrite E1, E2.
  pose proof (proj2 (@parseInt_decimal n [] [] Hn (Forall_nil _) I)) as H1.
  pose proof (proj2 (@parseInt_decimal m [] [] Hm (Forall_nil _) I)) as H2.
  cbn [app] in H1, H2. rewrite app_nil_r in H1, H2.
  rewrite H1, H2. cbn [number_or].
  destruct (Z.eqb_spec (- Z.of_N n) 0); [lia|].
  destruct (Z.eqb_spec (- Z.of_N m) 0); [lia|].
  repeat split; lia.
Qed.

(** ** The theorems at work on concrete sessions *)

Ltac reached :=
  apply perform_all_reachable, session_load; vm_compute; repeat split.

Lemma clearInput_then_formatCode_witness :
  formatCode echo_formatter (clearInput (set_wasmReady true fresh_page))
  = clearInput (set_wasmReady true fresh_page).
Proof.
  apply (@clearInput_then_formatCode echo_formatter
           (set_wasmReady true fresh_page)).
  reflexivity.
Defined.

Lemma calls_are_well_formed_witness :
  Forall call_well_formed (ffi_log (dom typed_session))
  /\ List.length (ffi_log (dom typed_session)) = 1%nat.
Proof.
  split; [|reflexivity].
  apply (@calls_are_well_formed echo_formatter some_version typed_session).
  unfold typed_session. reached.
Defined.

Lemma ready_is_permanent_witness :
  wasmReady
    (dom (perform_all echo_formatter some_version
            [ClickClear; Input (js "x"); ClickCopy] typed_session))
  = true.
Proof.
  apply (@ready_is_permanent echo_formatter some_version). reflexivity.
Defined.

Lemma failed_load_is_final_witness :
  ffi_log
    (dom (perform_all echo_formatter some_version
            [Input (js "1+2"); TimerFires 1;
             Keydown {| ctrlKey := true; metaKey := false; key := js "Enter" |};
             InitResolves]
            failed_session))
  = [].
Proof.
  apply (@failed_load_is_final echo_formatter some_version
           [Input (js "1+2"); TimerFires 1;
            Keydown {| ctrlKey := true; metaKey := false; key := js "Enter" |};
            InitResolves]
           failed_session); [|reflexivity|reflexivity].
  unfold failed_session. apply session_step, session_load.
  vm_compute. repeat split.
Defined.

Lemma version_failure_leaves_ready_witness :
  let broken := Threw {| err_toString := js "RuntimeError: unreachable";
                         err_message := js "unreachable" |} in
  wasmReady (dom (perform echo_formatter broken InitResolves first_session))
  = true.
Proof.
  intros broken.
  apply (@version_failure_leaves_ready echo_formatter broken
           {| err_toString := js "RuntimeError: unreachable";
              err_message := js "unreachable" |} first_session);
    reflexivity.
Defined.

Lemma debounce_keeps_one_timer_witness :
  (List.length
     (filter is_format_timer
        (timers (perform_all echo_formatter some_version
                   [Input (js "1"); Input (js "1+"); Input (js "1+2")]
                   typed_session)))
   <= 1)%nat.
Proof.
  apply (@debounce_keeps_one_timer echo_formatter some_version).
  apply perform_all_reachable. unfold typed_session. reached.
Defined.

Lemma keystrokes_format_once_witness :
  dom (perform echo_formatter some_version (TimerFires 4)
         (perform_all echo_formatter some_version
            (map Input ([js "3"; js "3*"] ++ [js "3*4"])) typed_session))
  = formatCode echo_formatter (set_input (js "3*4") (dom typed_session)).
Proof.
  apply (@keystrokes_format_once echo_formatter some_version
           [js "3"; js "3*"] (js "3*4") typed_session).
  unfold typed_session. reached.
Defined.

Lemma copy_is_never_empty_witness :
  perform echo_formatter some_version ClickCopy first_session = first_session.
Proof.
  apply (@copy_is_never_empty echo_formatter some_version first_session);
    [|reflexivity].
  apply session_load. vm_compute. repeat split.
Defined.

Lemma copy_restores_label_witness :
  clipboard
    (perform echo_formatter some_version (WriteSettles 0 true)
       (perform echo_formatter some_version ClickCopy typed_session))
  = Some (js "1+2").
Proof.
  apply (@copy_restores_label echo_formatter some_version typed_session);
    [|discriminate].
  unfold typed_session. reached.
Defined.

Lemma second_copy_keeps_copied_label_witness :
  copyBtn_textContent
    (dom (perform_all echo_formatter some_version
            [ClickCopy; WriteSettles 0 true; ClickCopy; WriteSettles 0 true;
             TimerFires 2; TimerFires 3] typed_session))
  = copied_label.
Proof.
  apply (@second_copy_keeps_copied_label echo_formatter some_version
           typed_session); [|discriminate].
  unfold typed_session. reached.
Defined.

Lemma width_fields_read_decimal_witness :
  let c := {| maxWidthInput_value := js " 100px";
              indentWidthInput_value := js "4 spaces";
              useTabsInput_checked := false;
              trailingCommaInput_checked := true |} in
  arg_maxWidth (call_args (js "1+2") c) = 100%Z
  /\ arg_indentWidth (call_args (js "1+2") c) = 4%Z.
Proof.
  intros c.
  apply (@width_fields_read_decimal 100 4 (js " ") (js "px") [] (js " spaces")
           (js "1+2") c);
    try reflexivity; try (vm_compute; split; [reflexivity|discriminate]);
    repeat constructor.
Defined.

Lemma negative_widths_pass_through_witness :
  let c := {| maxWidthInput_value := js "-5";
              indentWidthInput_value := js "-1";
              useTabsInput_checked := false;
              trailingCommaInput_checked := true |} in
  arg_maxWidth (call_args (js "1+2") c) = (-5)%Z
  /\ arg_indentWidth (call_args (js "1+2") c) = (-1)%Z
  /\ (arg_maxWidth (call_args (js "1+2") c) < 0)%Z
  /\ (arg_indentWidth (call_args (js "1+2") c) < 0)%Z.
Proof.
  intros c.
  apply (@negative_widths_pass_through 5 1 (js "1+2") c);
    try reflexivity; (vm_compute; split; [reflexivity|discriminate]).
Defined.

(** X15.  Clearing does not cancel the debounce: a run of [formatCode]
    still pending when the input is cleared fires all the same, but finds
    the input empty, so that on a ready page it calls nothing and leaves
    the cleared page as it is. *)
Theorem clear_outlives_debounce
    (format_with_options : jsstring -> Z -> Z -> bool -> bool -> outcome)
    (version : outcome) (value : jsstring) (s : session) :
  session_reachable format_with_options version s ->
  wasmReady (dom s) = true ->
  let act := perform format_with_options version in
  let cleared := act ClickClear (act (Input value) s) in
  filter is_format_timer (timers cleared)
  = [{| timer_id := next_timer s; timer_delay := 500; timer_task := RunFormat |}]
  /\ dom (act (TimerFires (next_timer s)) cleared) = clearInput (dom s)
  /\ ffi_log (dom (act (TimerFires (next_timer s)) cleared)) = ffi_log (dom s)
  /\ filter is_format_timer (timers (act (TimerFires (next_timer s)) cleared))
     = [].
Proof.
  intros Hs Hr act cleared.
  pose proof (reachable_timers Hs) as Hc.
  destruct (@on_input_timers value s Hc) as (H1 & H2 & _ & H4).
  set (T := {| timer_id := next_timer s; timer_delay := 500;
               timer_task := RunFormat |}) in *.
  assert (Hin : In T (timers (on_input value s))).
  { assert (Hf : In T (filter is_format_timer
                         (timers (on_input value s))))
      by (rewrite H2; now left).
    now apply filter_In in Hf. }
  destruct H1 as (_ & Hnd & _).
  assert (Hfire : act (TimerFires (next_timer s)) cleared
            = with_dom
                (formatCode format_with_options
                   (clearInput (dom (on_input value s))))
                (with_timers
                   (filter (fun t => negb (timer_id t =? next_timer s)%nat)
                      (timers (on_input value s)))
                   (on_input value s))).
  { subst act cleared. cbn [perform]. unfold timer_fires. session_fields.
    change (next_timer s) with (timer_id T) at 1.
    rewrite (@find_handle _ T Hnd Hin). reflexivity. }
  split; [exact H2|]. rewrite Hfire. session_fields. rewrite H4.
  assert (Hclear : formatCode format_with_options (clearInput (set_input value (dom s)))
                   = clearInput (dom s)).
  { unfold formatCode, clearInput. cbn. now rewrite Hr. }
  rewrite Hclear. split; [reflexivity|]. split; [reflexivity|].
  rewrite filter_swap, H2. cbn [filter timer_id T].
  now rewrite Nat.eqb_refl.
Qed.

Lemma clear_outlives_debounce_witness :
  dom (perform echo_formatter some_version (TimerFires 2)
         (perform echo_formatter some_version ClickClear
            (perform echo_formatter some_version (Input (js "3*4"))
               typed_session)))
  = clearInput (dom typed_session).
Proof.
  apply (@clear_outlives_debounce echo_formatter some_version (js "3*4")
           typed_session); [|reflexivity].
  unfold typed_session. reached.
Defined.
